(** * The Heretical Game: scoring, council reactions, question pool, persistence

    A shallow embedding of the game's logic modules:
    - [CouncilManager]   (src/js/modules/council-manager.js)
    - [QuestionManager]  (src/js/modules/question-manager.js)
    - [VerdictCalculator] (verdict-calculator.js)
    - [StateManager]     (src/js/modules/state-manager.js)
    - [QuestionPool]     (the used-question tracking of heretical-game.html)

    JavaScript numbers that carry scores are modelled as rationals [Q]: every
    finite double is a dyadic rational, comparisons on finite doubles agree
    with comparisons on the rationals they denote, and the sums the game forms
    (multiples of 1/2 of small magnitude) are exact in double arithmetic.
    Counters that only ever move by [++] / [- 1] are integers [Z].
    Timestamps ([Date.now()]) and console output do not influence any result
    modelled here and are left out of the records. *)

From Stdlib Require Import ZArith NArith QArith Qabs Qround Lia Lqa List.
From stdpp Require Import base option gmap strings list pretty.

Open Scope Q_scope.

(** ** JavaScript values that reach the game logic *)

(** An answer as the UI hands it over: a boolean or a string. *)
Inductive answer : Type :=
| ABool (b : bool)
| AStr (s : string).

#[global] Instance answer_eq_dec : EqDecision answer.
Proof. solve_decision. Defined.

(** [x === y] on answers. *)
Definition strict_eq (x y : answer) : bool := bool_decide (x = y).

(** The property key an answer is coerced to in [obj[answer]]. *)
Definition property_key (a : answer) : string :=
  match a with
  | ABool true => "true"
  | ABool false => "false"
  | AStr s => s
  end.

(** Truthiness of an optional string field: [undefined] and [''] are falsy. *)
Definition truthy_str (o : option string) : bool :=
  match o with
  | Some s => negb (String.eqb s "")
  | None => false
  end.

(** An entry of [question.options]: the built-in binary questions use plain
    strings (no [value] property), the multiple-choice ones use objects. *)
Inductive qoption : Type :=
| OptString (s : string)
| OptObject (text : string) (value : answer).

Definition opt_value (o : qoption) : option answer :=
  match o with
  | OptString _ => None
  | OptObject _ v => Some v
  end.

(** A question object. One JavaScript object serves both managers: the
    question manager reads [council] / [heresyPoints] / [correctAnswer], the
    council manager reads [councils], a map from council id to a reaction map
    ([agree] / [disagree] or one entry per option value).  [councils] keeps
    the property order that [Object.entries] enumerates. *)
Record question : Type := {
  q_id : option string;
  q_text : option string;
  q_type : option string;
  q_options : option (list qoption);
  q_correctAnswer : option string;
  q_difficulty : option string;
  q_council : option string;
  q_heresyPoints : option Q;
  q_timeLimit : option Q;
  q_councils : option (list (string * gmap string Q))
}.

(** Comparisons of JavaScript numbers. *)
Definition num_lt (x y : Q) : bool := negb (Qle_bool y x).
Definition num_le (x y : Q) : bool := Qle_bool x y.
Definition num_is_zero (x : Q) : bool := Qeq_bool x 0.

(** [Math.max] on two finite numbers. *)
Definition Math_max (x y : Q) : Q := if Qle_bool x y then y else x.

(** [x || d] for a numeric property that may be missing: [undefined] and [0]
    both select the default. *)
Definition num_or (o : option Q) (d : Q) : Q :=
  match o with
  | Some v => if num_is_zero v then d else v
  | None => d
  end.

(** The property names every object inherits from [Object.prototype].  A
    read [obj[key]] under such a key finds the inherited function (for
    [__proto__] the prototype object) when [obj] has no own property of
    that name. *)
Definition prototypeNames : list string :=
  ["constructor"; "__proto__"; "hasOwnProperty"; "isPrototypeOf";
   "propertyIsEnumerable"; "toLocaleString"; "toString"; "valueOf";
   "__defineGetter__"; "__defineSetter__"; "__lookupGetter__";
   "__lookupSetter__"]%string.

Definition inherited_name (key : string) : bool :=
  bool_decide (key ∈ prototypeNames).

(** What a read such as [reactionMap[answer]] hands on where a number is
    expected: a number, or the value inherited under [key].  The inherited
    value is truthy and not [undefined]; as a number it is [NaN], so every
    comparison with it is false and every sum, product, [Math.abs] and
    [Math.max] with it is [NaN]. *)
Inductive scoreValue : Type :=
| Number (v : Q)
| Inherited (key : string).

(** A JavaScript number that may be [NaN]. *)
Inductive jsnum : Type :=
| Num (v : Q)
| NaN.

(** [x * m] for a number [x] and a value read as a multiplier. *)
Definition jsnum_times (x : Q) (m : scoreValue) : jsnum :=
  match m with
  | Number v => Num (x * v)
  | Inherited _ => NaN
  end.

(** [a + b]. *)
Definition jsnum_plus (a b : jsnum) : jsnum :=
  match a, b with
  | Num x, Num y => Num (x + y)
  | _, _ => NaN
  end.

(** [Math.max(x, b)]: [NaN] when an argument is. *)
Definition jsnum_max (x : Q) (b : jsnum) : jsnum :=
  match b with
  | Num y => Num (Math_max x y)
  | NaN => NaN
  end.

(** ** Council manager *)

Module CouncilManager.

(** Severity labels of [calculateSeverity]. *)
Inductive severity : Type := Low | Medium | High | Severe.

(** [council.lastReaction] as [processCouncilReaction] stores it: it has a
    [score] and an [offended] flag and no [severity] property. *)
Record reactionSummary : Type := {
  lr_score : scoreValue;
  lr_offended : bool
}.

Record historyEntry : Type := {
  h_question : option string;
  h_answer : answer;
  h_score : scoreValue
}.

(** A council object held in [this.councils].  [tolerance] is optional:
    [validateCouncil] only requires [id], [name], [icon], [description], and
    a comparison against [undefined] is false.  The descriptive properties
    (name, icon, messages, colour) are never read by the logic. *)
Record council : Type := {
  id : string;
  tolerance : option Q;
  offendedCount : Z;
  lastReaction : option reactionSummary;
  reactionHistory : list historyEntry
}.

(** The object [processCouncilReaction] returns. *)
Record reaction : Type := {
  r_score : scoreValue;
  r_offended : bool;
  r_newlyOffended : bool;
  r_severity : severity
}.

(** The mutable fields of the manager.  [offendedCouncils] is a JavaScript
    [Set], which iterates in insertion order: a duplicate-free list that
    [Set.add] extends at the end. *)
Record state : Type := {
  councils : gmap string council;
  offendedCouncils : list string;
  councilReactions : gmap (option string) (list (string * reaction))
}.

Definition set_has (x : string) (s : list string) : bool :=
  bool_decide (x ∈ s).

Definition set_add (x : string) (s : list string) : list string :=
  if set_has x s then s else s ++ [x].

(** [calculateSeverity(score, council)]; with a missing tolerance the
    tolerance factor is [NaN], and with a score that is not a number the
    base severity is: the total is [NaN] then, every comparison fails and
    the label is low. *)
Definition calculateSeverity (score : scoreValue) (c : council) : severity :=
  match tolerance c, score with
  | Some t, Number v =>
      let baseSeverity := Qabs v in
      let toleranceFactor := Math_max 0 (inject_Z (offendedCount c) - t + 1) in
      let totalSeverity := baseSeverity + toleranceFactor in
      if num_le 5 totalSeverity then Severe
      else if num_le 3 totalSeverity then High
      else if num_le 1 totalSeverity then Medium
      else Low
  | _, _ => Low
  end.

(** [council.offendedCount >= council.tolerance]. *)
Definition reached_tolerance (count : Z) (tol : option Q) : bool :=
  match tol with
  | Some t => num_le t (inject_Z count)
  | None => false
  end.

(** The update of [council.offendedCount] in [processCouncilReaction]; a
    score that is not a number is neither below nor above 0. *)
Definition next_count (count : Z) (score : scoreValue) : Z :=
  match score with
  | Number v =>
      if num_lt v 0 then (count + 1)%Z
      else if num_lt 0 v && (0 <? count)%Z then Z.max 0 (count - 1)
      else count
  | Inherited _ => count
  end.

(** [processCouncilReaction(council, score)]: the mutated council and the
    returned reaction.  [offended] is [this.offendedCouncils]. *)
Definition processCouncilReaction (offended : list string) (c : council)
    (score : scoreValue) : council * reaction :=
  let wasOffended := set_has (id c) offended in
  let count' := next_count (offendedCount c) score in
  let nowOffended := reached_tolerance count' (tolerance c) in
  let newlyOffended := nowOffended && negb wasOffended in
  let c' := {| id := id c;
               tolerance := tolerance c;
               offendedCount := count';
               lastReaction := Some {| lr_score := score;
                                        lr_offended := nowOffended |};
               reactionHistory := reactionHistory c |} in
  (c', {| r_score := score;
          r_offended := nowOffended;
          r_newlyOffended := newlyOffended;
          r_severity := calculateSeverity score c' |}).

(** [reactionMap[key]]: the map's own number, or what every object
    inherits under that key, or [undefined]. *)
Definition readReaction (reactionMap : gmap string Q) (key : string)
    : option scoreValue :=
  match reactionMap !! key with
  | Some v => Some (Number v)
  | None => if inherited_name key then Some (Inherited key) else None
  end.

(** The score [processAnswer] derives from a reaction map.  [agree] and
    [disagree] are no inherited names; [reactionMap[answer]] is read under
    whatever key the answer gives. *)
Definition reaction_score (q : question) (a : answer)
    (reactionMap : gmap string Q) : scoreValue :=
  match q_type q with
  | Some "binary"%string =>
      let isAgree := strict_eq a (ABool true) || strict_eq a (AStr "agree") in
      if isAgree then Number (num_or (reactionMap !! "agree"%string) 0)
      else Number (num_or (reactionMap !! "disagree"%string) 0)
  | Some "multiple"%string =>
      match q_options q with
      | Some opts =>
          let selectedOption :=
            find (fun o => match opt_value o with
                           | Some v => strict_eq v a
                           | None => false
                           end) opts in
          match selectedOption, readReaction reactionMap (property_key a) with
          | Some _, Some score => score
          | _, _ => Number 0
          end
      | None => Number 0
      end
  | _ => Number 0
  end.

(** The accumulator of the [forEach] in [processAnswer]: the manager state,
    the [reactions] object and the [newlyOffended] array.  The array holds
    references to the council objects of [this.councils]; an entry is
    identified by the key it is stored under. *)
Record loop_acc : Type := {
  acc_councils : gmap string council;
  acc_offended : list string;
  acc_reactions : list (string * reaction);
  acc_newly : list string
}.

Definition push_history (q : question) (a : answer) (score : scoreValue)
    (c : council) : council :=
  {| id := id c;
     tolerance := tolerance c;
     offendedCount := offendedCount c;
     lastReaction := lastReaction c;
     reactionHistory := reactionHistory c ++
       [{| h_question := q_id q; h_answer := a; h_score := score |}] |}.

(** One iteration of the [forEach] callback. *)
Definition processEntry (q : question) (a : answer) (acc : loop_acc)
    (entry : string * gmap string Q) : loop_acc :=
  let '(councilId, reactionMap) := entry in
  match acc_councils acc !! councilId with
  | None => acc
  | Some c =>
      let score := reaction_score q a reactionMap in
      let '(c1, r) := processCouncilReaction (acc_offended acc) c score in
      let fresh := r_offended r && negb (set_has councilId (acc_offended acc)) in
      {| acc_councils := <[councilId := push_history q a score c1]> (acc_councils acc);
         acc_offended := if fresh then set_add councilId (acc_offended acc)
                         else acc_offended acc;
         acc_reactions := acc_reactions acc ++ [(councilId, r)];
         acc_newly := if fresh then acc_newly acc ++ [councilId]
                      else acc_newly acc |}
  end.

(** [processAnswer(question, answer)]: the returned [newlyOffended] (by
    council key) and the manager state afterwards. *)
Definition processAnswer (st : state) (q : question) (a : answer)
    : list string * state :=
  match q_councils q with
  | None => ([], st)
  | Some entries =>
      let acc := fold_left (processEntry q a) entries
                   {| acc_councils := councils st;
                      acc_offended := offendedCouncils st;
                      acc_reactions := [];
                      acc_newly := [] |} in
      (acc_newly acc,
       {| councils := acc_councils acc;
          offendedCouncils := acc_offended acc;
          councilReactions :=
            <[q_id q := acc_reactions acc]> (councilReactions st) |})
  end.

Definition reset_council (c : council) : council :=
  {| id := id c;
     tolerance := tolerance c;
     offendedCount := 0;
     lastReaction := None;
     reactionHistory := [] |}.

(** [reset()]. *)
Definition reset (st : state) : state :=
  {| councils := reset_council <$> councils st;
     offendedCouncils := [];
     councilReactions := ∅ |}.

(** [getOffendedCouncils()]: the offended set in insertion order, each id
    looked up in the map. *)
Definition getOffendedCouncils (st : state) : list (option council) :=
  map (fun k => councils st !! k) (offendedCouncils st).

(** A session: [processAnswer] applied to a sequence of answers, collecting
    what each call returned. *)
Fixpoint runAnswers (st : state) (calls : list (question * answer))
    : list (list string) * state :=
  match calls with
  | [] => ([], st)
  | (q, a) :: rest =>
      let '(newly, st1) := processAnswer st q a in
      let '(reports, st2) := runAnswers st1 rest in
      (newly :: reports, st2)
  end.

(** A council entry of the data file, before validation. *)
Record councilData : Type := {
  cd_id : option string;
  cd_name : option string;
  cd_icon : option string;
  cd_description : option string;
  cd_tolerance : option Q
}.

(** [validateCouncil(council)]: every required field is truthy. *)
Definition validateCouncil (d : councilData) : bool :=
  truthy_str (cd_id d) && truthy_str (cd_name d) &&
  truthy_str (cd_icon d) && truthy_str (cd_description d).

(** [processCouncils(councilsData)]: the map is cleared and refilled. *)
Definition processCouncils (data : list councilData) : gmap string council :=
  fold_left
    (fun m d =>
       if validateCouncil d then
         match cd_id d with
         | Some i => <[i := {| id := i;
                               tolerance := cd_tolerance d;
                               offendedCount := 0;
                               lastReaction := None;
                               reactionHistory := [] |}]> m
         | None => m
         end
       else m)
    data ∅.

Definition builtIn (i n ic d : string) (t : Q) : councilData :=
  {| cd_id := Some i; cd_name := Some n; cd_icon := Some ic;
     cd_description := Some d; cd_tolerance := Some t |}.

(** The list of [loadBuiltInCouncils]. *)
Definition builtInCouncils : list councilData :=
  [ builtIn "catholic-church" "Catholic Church" "⛪"
      "The powerful Roman Catholic Church, guardian of doctrine and tradition." 2;
    builtIn "protestant-reformation" "Protestant Reformation" "✝️"
      "Reforming voices calling for church reform and scripture access." 3;
    builtIn "scientific-community" "Scientific Community" "🔬"
      "Natural philosophers and early scientists seeking truth through observation." 1;
    builtIn "political-authority" "Political Authority" "👑"
      "Monarchs and nobles defending the divine right of kings." 2;
    builtIn "academic-institution" "Academic Institution" "🎓"
      "Universities and scholars preserving and expanding knowledge." 3;
    builtIn "religious-order" "Religious Order" "🕊️"
      "Monastic orders dedicated to spiritual contemplation and service." 4;
    builtIn "philosophical-school" "Philosophical School" "🤔"
      "Thinkers and philosophers questioning fundamental assumptions." 5 ].

(** The manager after construction with the built-in councils. *)
Definition initial : state :=
  {| councils := processCouncils builtInCouncils;
     offendedCouncils := [];
     councilReactions := ∅ |}.

(** *** Vocabulary of the properties and sample data *)

(** What one [forEach] iteration does to the offended set and to the
    [newlyOffended] array: both are extended by the same ids, all of them
    absent from the set before. *)
Definition extends_by (acc acc' : loop_acc) (new : list string) : Prop :=
  acc_offended acc' = acc_offended acc ++ new /\
  acc_newly acc' = acc_newly acc ++ new /\
  NoDup new /\
  (forall x, x ∈ new -> x ∉ acc_offended acc).

(** Every council whose count has reached its tolerance is in the offended
    set. *)
Definition tolerance_recorded (cs : gmap string council) (offended : list string)
    : Prop :=
  map_Forall
    (fun k c => reached_tolerance (offendedCount c) (tolerance c) = true ->
                k ∈ offended) cs.

(** A binary question that the Scientific Community reacts to: agreeing
    pleases it by 1, disagreeing costs [pts]. *)
Definition scienceQuestion (pts : Q) : question :=
  {| q_id := Some "q1"%string;
     q_text := Some "The Earth revolves around the Sun."%string;
     q_type := Some "binary"%string;
     q_options := Some [OptString "Yes"; OptString "No"];
     q_correctAnswer := Some "Yes"%string;
     q_difficulty := Some "easy"%string;
     q_council := Some "Scientific Community"%string;
     q_heresyPoints := Some pts;
     q_timeLimit := Some 30;
     q_councils := Some [("scientific-community"%string,
                          {[ "agree"%string := 1; "disagree"%string := - pts ]})] |}.

(** A manager whose only council has tolerance 0, which [validateCouncil]
    accepts: its count of 0 has reached the tolerance before any answer. *)
Definition intolerantManager : state :=
  {| councils := processCouncils
                   [builtIn "inquisition" "Inquisition" "!"
                      "A tribunal that tolerates no dissent." 0];
     offendedCouncils := [];
     councilReactions := ∅ |}.

(** A binary question the council of [intolerantManager] reacts to. *)
Definition intolerantQuestion : question :=
  {| q_id := Some "q2"%string;
     q_text := Some "Doctrine is settled by the tribunal."%string;
     q_type := Some "binary"%string;
     q_options := None;
     q_correctAnswer := None;
     q_difficulty := None;
     q_council := None;
     q_heresyPoints := None;
     q_timeLimit := None;
     q_councils := Some [("inquisition"%string,
                          {[ "agree"%string := 1; "disagree"%string := -1 ]})] |}.

(** A multiple-choice question one of whose option values is the string
    [constructor]. *)
Definition constructorQuestion : question :=
  {| q_id := Some "q3"%string;
     q_text := Some "Who builds the church?"%string;
     q_type := Some "multiple"%string;
     q_options := Some [OptObject "The reformers" (AStr "reform");
                        OptObject "Its constructor" (AStr "constructor")];
     q_correctAnswer := None;
     q_difficulty := None;
     q_council := None;
     q_heresyPoints := None;
     q_timeLimit := None;
     q_councils := Some [("protestant-reformation"%string,
                          {[ "reform"%string := -1 ]})] |}.

(** The Protestant Reformation council as [processCouncils] creates it. *)
Definition reformation (count : Z) : council :=
  {| id := "protestant-reformation";
     tolerance := Some 3;
     offendedCount := count;
     lastReaction := None;
     reactionHistory := [] |}.

End CouncilManager.

(** ** Outcomes of effectful code *)

(** The exceptions that occur: failures of [fetch] and [response.json()],
    the [Error] objects the loader throws itself, and [btoa]'s and [atob]'s
    [InvalidCharacterError]. *)
Inductive error : Type :=
| NetworkError
| HttpStatus (status : Z)
| SyntaxError
| TypeError
| InvalidFormat
| InvalidCharacterError.

(** What a call can do: return, throw, or leave the model.  [Stuck] marks an
    array access outside the array, where JavaScript would read [undefined]
    and grow the array; the properties below show it does not arise when
    [Math.random] honours its contract. *)
Inductive outcome (A : Type) : Type :=
| Returned (a : A)
| Thrown (e : error)
| Stuck.

Arguments Returned {A} a.
Arguments Thrown {A} e.
Arguments Stuck {A}.

Definition bind {A B : Type} (m : outcome A) (k : A -> outcome B) : outcome B :=
  match m with
  | Returned a => k a
  | Thrown e => Thrown e
  | Stuck => Stuck
  end.

(** [try { m } catch (e) { handler e }]. *)
Definition try_catch {A : Type} (m : outcome A) (handler : error -> outcome A)
    : outcome A :=
  match m with
  | Thrown e => handler e
  | other => other
  end.

#[global] Instance outcome_ret : MRet outcome := fun A a => Returned a.
#[global] Instance outcome_bind : MBind outcome := fun A B k m => bind m k.

(** ** Question manager *)

Module QuestionManager.

(** [Math.random()] as an oracle: the [n]-th call of the run returns
    [rand n].  Code that draws random numbers threads the call counter. *)
Definition random_source : Type := nat -> Q.

(** [Math.floor(Math.random() * (i + 1))] for the drawn value [r].  The
    product is taken exactly; the rounded double product of a value below 1
    stays below [i + 1] as well. *)
Definition random_index (r : Q) (i : nat) : Z :=
  Qfloor (r * inject_Z (Z.of_nat i + 1)).

(** [[array[i], array[j]] = [array[j], array[i]]]: both reads happen before
    both writes. *)
Definition swap {A : Type} (array : list A) (i j : nat) : option (list A) :=
  match array !! j, array !! i with
  | Some aj, Some ai => Some (<[j := ai]> (<[i := aj]> array))
  | _, _ => None
  end.

(** The loop [for (let i = ...; i > 0; i--)] of [shuffleArray], entered with
    counter [i] and having consumed [k] random numbers. *)
Fixpoint shuffle_loop {A : Type} (rand : random_source) (k i : nat)
    (array : list A) : outcome (list A * nat) :=
  match i with
  | O => Returned (array, k)
  | S i' =>
      let j := random_index (rand k) i in
      if (j <? 0)%Z then Stuck
      else match swap array i (Z.to_nat j) with
           | Some array' => shuffle_loop rand (S k) i' array'
           | None => Stuck
           end
  end.

(** [shuffleArray(array)]; the loop starts at [array.length - 1]. *)
Definition shuffleArray {A : Type} (rand : random_source) (k : nat)
    (array : list A) : outcome (list A * nat) :=
  shuffle_loop rand k (length array - 1) array.

(** The configuration fields the logic reads.  [maxQuestions] is whatever
    number the options carry. *)
Record config : Type := {
  dataPath : option string;
  enableCaching : bool;
  shuffleQuestions : bool;
  maxQuestions : option Z
}.

Inductive event : Type :=
| LoadingStarted
| LoadingCompleted (count : nat) (fallback : bool)
| LoadingError (e : error).

Record state : Type := {
  questions : list question;
  currentQuestionIndex : nat;
  answeredQuestions : list string;
  isLoading : bool;
  loadError : option error;
  emitted : list event;
  randomCalls : nat
}.

Definition binaryOptions : option (list qoption) :=
  Some [OptString "Yes"; OptString "No"].

Definition builtin (i t ty c d : string) (opts : option (list qoption))
    (pts lim : Q) : question :=
  {| q_id := Some i; q_text := Some t; q_type := Some ty; q_options := opts;
     q_correctAnswer := Some c; q_difficulty := Some d;
     q_council := None; q_heresyPoints := Some pts; q_timeLimit := Some lim;
     q_councils := None |}.

Definition with_council (c : string) (q : question) : question :=
  {| q_id := q_id q; q_text := q_text q; q_type := q_type q;
     q_options := q_options q; q_correctAnswer := q_correctAnswer q;
     q_difficulty := q_difficulty q; q_council := Some c;
     q_heresyPoints := q_heresyPoints q; q_timeLimit := q_timeLimit q;
     q_councils := q_councils q |}.

Definition builtin_001 : question :=
  with_council "Scientific Community"
    (builtin "builtin_001"
       "The Earth revolves around the Sun, not the other way around."
       "binary" "Yes" "easy" binaryOptions 1 30).

Definition builtin_002 : question :=
  with_council "Protestant Reformation"
    (builtin "builtin_002"
       "The Bible should be translated into common languages so everyone can read it."
       "binary" "Yes" "medium" binaryOptions 2 30).

Definition builtin_003 : question :=
  with_council "Political Authority"
    (builtin "builtin_003"
       "Kings derive their authority from the consent of the governed, not divine right."
       "binary" "Yes" "hard" binaryOptions 3 45).

Definition builtin_004 : question :=
  with_council "Academic Institution"
    (builtin "builtin_004"
       "Women should be allowed to receive higher education and hold academic positions."
       "binary" "Yes" "medium" binaryOptions 1.5 30).

Definition builtin_005 : question :=
  with_council "Scientific Community"
    (builtin "builtin_005"
       "Which method is most reliable for understanding the natural world?"
       "multiple-choice" "science" "medium"
       (Some [OptObject "Scriptural interpretation" (AStr "scripture");
              OptObject "Scientific observation" (AStr "science");
              OptObject "Philosophical reasoning" (AStr "philosophy");
              OptObject "Religious revelation" (AStr "revelation")])
       2 45).

(** [getBuiltInQuestions()]. *)
Definition getBuiltInQuestions : list question :=
  [builtin_001; builtin_002; builtin_003; builtin_004; builtin_005].

Definition validTypes : list string := ["binary"; "multiple-choice"; "multiple"].

(** The filter predicate of [processQuestions]: id and text are truthy, the
    type is one of [validTypes], and [options] is an array (required for
    every valid type). *)
Definition validQuestion (q : question) : bool :=
  truthy_str (q_id q) && truthy_str (q_text q) &&
  match q_type q with
  | Some ty => truthy_str (Some ty) && bool_decide (ty ∈ validTypes)
  | None => false
  end &&
  match q_options q with
  | Some _ => true
  | None => false
  end.

(** [array.slice(0, n)] for an integer [n]: a negative end counts from the
    back. *)
Definition slice0 {A : Type} (l : list A) (n : Z) : list A :=
  if (n <? 0)%Z then take (Z.to_nat (Z.max (Z.of_nat (length l) + n) 0)) l
  else take (Z.to_nat n) l.

(** [processQuestions(questions)]; besides the list it returns the advanced
    counter of random calls. *)
Definition processQuestions (cfg : config) (rand : random_source) (k : nat)
    (qs : list question) : outcome (list question * nat) :=
  let validQuestions := filter (fun q => validQuestion q = true) qs in
  shuffled ← (if shuffleQuestions cfg then shuffleArray rand k validQuestions
              else Returned (validQuestions, k));
  match maxQuestions cfg with
  | Some m =>
      if negb (m =? 0)%Z && (m <? Z.of_nat (length shuffled.1))%Z
      then Returned (slice0 shuffled.1 m, shuffled.2)
      else Returned shuffled
  | None => Returned shuffled
  end.

(** The value of [data.questions] in the fetched document. *)
Inductive questions_field : Type :=
| QsByDifficulty (groups : gmap string (list question))
    (* an object; [groups] lists its array-valued properties *)
| QsArray (qs : list question)
    (* the old format, a plain array *)
| QsOther.
    (* missing, null, or not an object *)

(** What [fetch] followed by [response.json()] yields. *)
Inductive fetch_result : Type :=
| FetchRejected
| NotOk (status : Z)
| BodyNotJson
| BodyNull
| Body (qs : questions_field).

Definition difficulties : list string := ["easy"; "medium"; "hard"; "expert"].

(** The inner [forEach] of [loadFromExternalSource]: each question is copied
    with its difficulty and, when its id is falsy, a generated id. *)
Definition pushGroup (difficulty : string) (allQuestions : list question)
    (group : list question) : list question :=
  fold_left
    (fun all q =>
       all ++
       [{| q_id := if truthy_str (q_id q) then q_id q
                   else Some (difficulty +:+ "_" +:+ pretty (length all + 1)%nat);
           q_text := q_text q; q_type := q_type q; q_options := q_options q;
           q_correctAnswer := q_correctAnswer q;
           q_difficulty := Some difficulty;
           q_council := q_council q; q_heresyPoints := q_heresyPoints q;
           q_timeLimit := q_timeLimit q; q_councils := q_councils q |}])
    group allQuestions.

Definition flatten (groups : gmap string (list question)) : list question :=
  fold_left
    (fun all difficulty =>
       match groups !! difficulty with
       | Some group => pushGroup difficulty all group
       | None => all
       end)
    difficulties [].

(** [loadFromExternalSource()].  An array is an object too, so the old
    format takes the first branch, where no difficulty property is found. *)
Definition loadFromExternalSource (resp : fetch_result) : outcome (list question) :=
  match resp with
  | FetchRejected => Thrown NetworkError
  | NotOk status => Thrown (HttpStatus status)
  | BodyNotJson => Thrown SyntaxError
  | BodyNull => Thrown TypeError
  | Body (QsByDifficulty groups) => Returned (flatten groups)
  | Body (QsArray _) => Returned (flatten ∅)
  | Body QsOther => Thrown InvalidFormat
  end.

Definition emit (e : event) (st : state) : state :=
  {| questions := questions st;
     currentQuestionIndex := currentQuestionIndex st;
     answeredQuestions := answeredQuestions st;
     isLoading := isLoading st;
     loadError := loadError st;
     emitted := emitted st ++ [e];
     randomCalls := randomCalls st |}.

Definition set_loading (b : bool) (st : state) : state :=
  {| questions := questions st;
     currentQuestionIndex := currentQuestionIndex st;
     answeredQuestions := answeredQuestions st;
     isLoading := b;
     loadError := loadError st;
     emitted := emitted st;
     randomCalls := randomCalls st |}.

Definition set_loadError (e : option error) (st : state) : state :=
  {| questions := questions st;
     currentQuestionIndex := currentQuestionIndex st;
     answeredQuestions := answeredQuestions st;
     isLoading := isLoading st;
     loadError := e;
     emitted := emitted st;
     randomCalls := randomCalls st |}.

(** The [try] block of [loadQuestions].  [saveToCache] only writes to
    local storage and catches its own errors. *)
Definition loadQuestions_try (cfg : config) (rand : random_source)
    (resp : fetch_result) (st : state) : outcome state :=
  let st := emit LoadingStarted st in
  qs ← (if truthy_str (dataPath cfg) then loadFromExternalSource resp
        else Returned getBuiltInQuestions);
  processed ← processQuestions cfg rand (randomCalls st) qs;
  Returned
    (emit (LoadingCompleted (length processed.1) false)
       {| questions := processed.1;
          currentQuestionIndex := 0;
          answeredQuestions := [];
          isLoading := isLoading st;
          loadError := loadError st;
          emitted := emitted st;
          randomCalls := processed.2 |}).

(** The [catch] block: the state is the one the [try] block had reached when
    it threw.  Every throwing step of the [try] block precedes its first
    assignment to a field, so that state is the entry state plus the
    [loadingStarted] event. *)
Definition loadQuestions_catch (cfg : config) (rand : random_source)
    (st : state) (e : error) : outcome state :=
  let st := emit (LoadingError e) (set_loadError (Some e) st) in
  processed ← processQuestions cfg rand (randomCalls st) getBuiltInQuestions;
  Returned
    (emit (LoadingCompleted (length processed.1) true)
       {| questions := processed.1;
          currentQuestionIndex := currentQuestionIndex st;
          answeredQuestions := answeredQuestions st;
          isLoading := isLoading st;
          loadError := loadError st;
          emitted := emitted st;
          randomCalls := processed.2 |}).

(** [finally { this.isLoading = false }] applies to every way out. *)
Definition loadQuestions (cfg : config) (rand : random_source)
    (resp : fetch_result) (st : state) : outcome state :=
  if isLoading st then Returned st
  else
    let st0 := set_loadError None (set_loading true st) in
    st1 ← try_catch (loadQuestions_try cfg rand resp st0)
            (loadQuestions_catch cfg rand (emit LoadingStarted st0));
    Returned (set_loading false st1).

(** Labels of the question manager's own [calculateSeverity]. *)
Inductive mood : Type :=
| Pleased | Neutral | Concerned | Offended | SeverelyOffended.

Definition calculateSeverity (score : Q) : mood :=
  if num_le 2 score then Pleased
  else if num_le 0 score then Neutral
  else if num_le (-1) score then Concerned
  else if num_le (-3) score then Offended
  else SeverelyOffended.

Record councilReaction : Type := {
  cr_score : Q;
  cr_offended : bool;
  cr_severity : mood;
  cr_isCorrect : bool
}.

(** The correctness test of [calculateCouncilReactions]. *)
Definition isCorrect (q : question) (a : answer) : bool :=
  match a with
  | AStr s => bool_decide (q_correctAnswer q = Some s)
  | ABool b => bool_decide (b = bool_decide (q_correctAnswer q = Some "Yes"%string))
  end.

(** [calculateCouncilReactions(question, answer)]: an object with at most
    one property, keyed by [question.council]. *)
Definition calculateCouncilReactions (q : question) (a : answer)
    : list (string * councilReaction) :=
  match q_council q with
  | Some c =>
      if truthy_str (Some c) then
        let baseScore : Q := if isCorrect q a then 1 else -1 in
        let heresyPoints := num_or (q_heresyPoints q) 1 in
        [(c, {| cr_score := baseScore * heresyPoints;
                cr_offended := num_lt baseScore 0;
                cr_severity := calculateSeverity (baseScore * heresyPoints);
                cr_isCorrect := isCorrect q a |})]
      else []
  | None => []
  end.

(** *** Vocabulary of the properties and sample data *)

(** The contract of [Math.random]: every value lies in [0, 1). *)
Definition unit_range (rand : random_source) : Prop :=
  forall n : nat, 0 <= rand n /\ rand n < 1.

(** The index map of a swap. *)
Definition transpose (i j k : nat) : nat :=
  if decide (k = i) then j else if decide (k = j) then i else k.

(** The usual configuration: shuffling on, no limit. *)
Definition defaultConfig : config :=
  {| dataPath := Some "/src/data/questions.json"%string;
     enableCaching := true;
     shuffleQuestions := true;
     maxQuestions := None |}.

Definition freshManager : state :=
  {| questions := [];
     currentQuestionIndex := 0;
     answeredQuestions := [];
     isLoading := false;
     loadError := None;
     emitted := [];
     randomCalls := 0 |}.



End QuestionManager.

(** ** Verdict calculator *)

Module VerdictCalculator.

(** A threshold bound: a finite number or one of the infinities. *)
Inductive bound : Type :=
| NegInfinity
| Finite (v : Q)
| PosInfinity.

Record range : Type := { min : bound; max : bound }.

Record thresholds : Type := {
  faithful : range;
  borderline : range;
  doomed : range
}.

(** The default of [this.config.thresholds]. *)
Definition defaultThresholds : thresholds :=
  {| faithful := {| min := Finite (-2); max := Finite 2 |};
     borderline := {| min := Finite (-5); max := Finite 5 |};
     doomed := {| min := NegInfinity; max := Finite (-5) |} |}.

Inductive verdictType : Type := Faithful | Borderline | Doomed.

(** [score >= b] and [score <= b] for a finite score. *)
Definition score_ge (score : Q) (b : bound) : bool :=
  match b with
  | NegInfinity => true
  | Finite v => num_le v score
  | PosInfinity => false
  end.

Definition score_le (score : Q) (b : bound) : bool :=
  match b with
  | NegInfinity => false
  | Finite v => num_le score v
  | PosInfinity => true
  end.

(** [determineVerdictType(score)]; the [doomed] range is destructured and
    not consulted. *)
Definition determineVerdictType (th : thresholds) (score : Q) : verdictType :=
  if score_ge score (min (faithful th)) && score_le score (max (faithful th))
  then Faithful
  else if score_ge score (min (borderline th)) && score_le score (max (borderline th))
  then Borderline
  else Doomed.

(** What [calculateCouncilScore] reads of an offended council:
    [council.lastReaction?.severity]. *)
Record reactionInfo : Type := { severity : option string }.

Record councilInfo : Type := {
  name : string;
  lastReaction : option reactionInfo
}.

Definition penaltyPerCouncil : Q := -2.

(** The read [severityMultipliers[key]] of the table
    [{ low: 1, medium: 1.5, high: 2, severe: 3 }]: one of its own four
    entries, or what the object literal inherits under [key], or
    [undefined]. *)
Definition severityMultipliers (key : string) : option scoreValue :=
  if String.eqb key "low" then Some (Number 1)
  else if String.eqb key "medium" then Some (Number 1.5)
  else if String.eqb key "high" then Some (Number 2)
  else if String.eqb key "severe" then Some (Number 3)
  else if inherited_name key then Some (Inherited key)
  else None.

(** [council.lastReaction?.severity || 'medium']. *)
Definition severityOf (c : councilInfo) : string :=
  match lastReaction c with
  | Some r => if truthy_str (severity r) then default "medium"%string (severity r)
              else "medium"%string
  | None => "medium"%string
  end.

(** [severityMultipliers[severity] || 1]: an inherited value is truthy and
    is kept. *)
Definition multiplier (c : councilInfo) : scoreValue :=
  match severityMultipliers (severityOf c) with
  | Some (Number v) => Number (if num_is_zero v then 1 else v)
  | Some (Inherited key) => Inherited key
  | None => Number 1
  end.

(** [calculateCouncilScore(councilsOffended)]. *)
Definition calculateCouncilScore (councilsOffended : list councilInfo) : jsnum :=
  let baseScore := Num 0 in
  let totalScore :=
    fold_left
      (fun total c => jsnum_plus total (jsnum_times penaltyPerCouncil (multiplier c)))
      councilsOffended baseScore in
  jsnum_max (-10) totalScore.

(** A council of the council manager as the verdict calculator sees it: the
    manager's [lastReaction] objects have no [severity] property. *)
Definition ofCouncil (c : CouncilManager.council) : councilInfo :=
  {| name := CouncilManager.id c;
     lastReaction :=
       match CouncilManager.lastReaction c with
       | Some _ => Some {| severity := None |}
       | None => None
       end |}.

(** *** Vocabulary of the properties and sample data *)

(** The multiplier that goes with a severity label: 1, 1.5, 2 and 3 for
    low, medium, high and severe, and 1 for any other label. *)
Definition labelMultiplier (label : string) : Q :=
  if String.eqb label "low" then 1
  else if String.eqb label "medium" then 1.5
  else if String.eqb label "high" then 2
  else if String.eqb label "severe" then 3
  else 1.

(** The penalties of a list of councils, summed: -2 times the multiplier of
    its severity label for each. *)
Definition penalties (cs : list councilInfo) : Q :=
  foldr (fun c acc => penaltyPerCouncil * labelMultiplier (severityOf c) + acc) 0 cs.

(** A council whose last reaction carries the severity [label]. *)
Definition labelled (label : string) : councilInfo :=
  {| name := "c"; lastReaction := Some {| severity := Some label |} |}.

(** The test [score >= lo && score <= hi] on finite bounds. *)
Definition band (lo hi score : Q) : bool :=
  score_ge score (Finite lo) && score_le score (Finite hi).

(** The reading of C1: two boundaries split the number line into a low
    range that is Doomed, a middle range that is Borderline and a high range
    that is Faithful (the boundary points may fall on either side). *)
Definition ordered_ranges (th : thresholds) : Prop :=
  exists lo hi : Q,
    lo <= hi /\
    forall score : Q,
      (score < lo -> determineVerdictType th score = Doomed) /\
      (lo < score -> score < hi -> determineVerdictType th score = Borderline) /\
      (hi < score -> determineVerdictType th score = Faithful).

End VerdictCalculator.

(** ** Question pool: used-question tracking across sessions

    The functions [getUsedQuestionIds], [getFreshQuestions] and
    [resetUsedQuestions] live in heretical-game.html.  The repository's notes
    give the computation of [wasReset] around them. *)

Module QuestionPool.

(** Modelled from the spec: the key under which a served question is
    recorded in the persisted used set, the difficulty and the question id
    joined by an underscore. *)
Definition usedKey (difficulty : string) (q : question) : string :=
  (difficulty +:+ "_") +:+ default "undefined"%string (q_id q).

Definition keyOfDifficulty (difficulty key : string) : bool :=
  String.prefix (difficulty +:+ "_") key.

(** Modelled from the spec: [getUsedQuestionIds(difficulty)], the recorded
    keys of one difficulty. *)
Definition getUsedQuestionIds (used : list string) (difficulty : string)
    : list string :=
  filter (fun key => keyOfDifficulty difficulty key = true) used.

(** Modelled from the spec: [resetUsedQuestions(difficulty)] clears the used
    set for that difficulty and keeps the keys of the others. *)
Definition resetUsedQuestions (used : list string) (difficulty : string)
    : list string :=
  filter (fun key => keyOfDifficulty difficulty key = false) used.

(** Modelled from the spec: the questions of the difficulty that are not in
    the used set. *)
Definition eligible (allQuestions : list question) (difficulty : string)
    (used : list string) : list question :=
  filter (fun q => usedKey difficulty q ∉ used) allQuestions.

(** Modelled from the spec: [getFreshQuestions(allQuestions, difficulty)].
    When the filtered list is empty and the unfiltered one is not, the used
    set of the difficulty is cleared and the questions are filtered again.
    Returns the fresh questions and the used set as stored afterwards. *)
Definition getFreshQuestions (allQuestions : list question)
    (difficulty : string) (used : list string)
    : list question * list string :=
  let fresh := eligible allQuestions difficulty used in
  if bool_decide (fresh = []) && negb (bool_decide (allQuestions = []))
  then
    let used' := resetUsedQuestions used difficulty in
    (eligible allQuestions difficulty used', used')
  else (fresh, used).

(** The reset detection as the repository's notes give it: a reset is
    reported when there were used questions before filtering, every question
    is fresh and the stored set of the difficulty is now empty. *)
Definition wasReset (usedBefore : nat) (freshQuestions allQuestions : list question)
    (usedAfter : list string) (difficulty : string) : bool :=
  (0 <? usedBefore)%nat &&
  (length freshQuestions =? length allQuestions)%nat &&
  (length (getUsedQuestionIds usedAfter difficulty) =? 0)%nat.

Record session : Type := {
  queue : list question;
  poolWasReset : bool;
  usedQuestions : list string;
  randomCalls : nat
}.

(** Modelled from the spec: [beginSession(difficulty)] takes the used count
    before filtering, fetches the fresh questions, shuffles them into the
    session queue and carries the reset flag. *)
Definition beginSession (rand : QuestionManager.random_source) (k : nat)
    (allQuestions : list question) (difficulty : string)
    (used : list string) : outcome session :=
  let usedBefore := length (getUsedQuestionIds used difficulty) in
  let '(freshQuestions, used') := getFreshQuestions allQuestions difficulty used in
  let flag := wasReset usedBefore freshQuestions allQuestions used' difficulty in
  shuffled ← QuestionManager.shuffleArray rand k freshQuestions;
  Returned {| queue := shuffled.1;
              poolWasReset := flag;
              usedQuestions := used';
              randomCalls := shuffled.2 |}.

(** Modelled from the spec: [next()] pops the front of the queue and
    records its key in the used set. *)
Definition next (difficulty : string) (s : session) : option question * session :=
  match queue s with
  | [] => (None, s)
  | q :: rest =>
      (Some q,
       {| queue := rest;
          poolWasReset := poolWasReset s;
          usedQuestions := usedQuestions s ++ [usedKey difficulty q];
          randomCalls := randomCalls s |})
  end.

(** *** Vocabulary of the properties and sample data *)

(** A pool of three easy questions. *)
Definition poolQuestion (i : string) : question :=
  {| q_id := Some i; q_text := Some "?"%string; q_type := Some "multiple-choice"%string;
     q_options := Some []; q_correctAnswer := None; q_difficulty := None;
     q_council := Some "Nicaea"%string; q_heresyPoints := Some 1;
     q_timeLimit := Some 30; q_councils := None |}.

Definition easyPool : list question :=
  [poolQuestion "1"; poolQuestion "2"; poolQuestion "3"].

End QuestionPool.

(** ** State manager: the persisted form of the state *)

Module StateManager.

#[local] Open Scope N_scope.

(** A JavaScript string: its UTF-16 code units. *)
Definition jsstring : Type := list N.

Definition ofString (s : string) : jsstring :=
  map Ascii.N_of_ascii (String.list_ascii_of_string s).

(** The values [JSON.stringify] takes here: the state is built from
    objects, arrays, strings, integers, booleans and [null]. *)
#[local] Unset Elimination Schemes.
Inductive json : Type :=
| JNull
| JBool (b : bool)
| JNumber (n : Z)
| JString (s : jsstring)
| JArray (items : list json)
| JObject (fields : list (jsstring * json)).
#[local] Set Elimination Schemes.

Definition isLeadingSurrogate (c : N) : bool := (55296 <=? c)%N && (c <=? 56319)%N.
Definition isTrailingSurrogate (c : N) : bool := (56320 <=? c)%N && (c <=? 57343)%N.

Definition hexDigit (n : N) : N :=
  if (n <? 10)%N then (48 + n)%N else (97 + (n - 10))%N.

(** [\uXXXX] with lower-case digits. *)
Definition unicodeEscape (c : N) : jsstring :=
  [92; 117; hexDigit (c / 4096 mod 16); hexDigit (c / 256 mod 16);
   hexDigit (c / 16 mod 16); hexDigit (c mod 16)]%N.

(** The escape of one code unit that is not part of a surrogate pair. *)
Definition quoteUnit (c : N) : jsstring :=
  if (c =? 8)%N then [92; 98]
  else if (c =? 9)%N then [92; 116]
  else if (c =? 10)%N then [92; 110]
  else if (c =? 12)%N then [92; 102]
  else if (c =? 13)%N then [92; 114]
  else if (c =? 34)%N then [92; 34]
  else if (c =? 92)%N then [92; 92]
  else if (c <? 32)%N || isLeadingSurrogate c || isTrailingSurrogate c
  then unicodeEscape c
  else [c].

(** The body of [QuoteJSONString]: well-formed surrogate pairs pass, lone
    surrogates and control characters are escaped. *)
Fixpoint quoteUnits (s : jsstring) : jsstring :=
  match s with
  | [] => []
  | c :: rest =>
      if isLeadingSurrogate c then
        match rest with
        | d :: rest' =>
            if isTrailingSurrogate d then c :: d :: quoteUnits rest'
            else quoteUnit c ++ quoteUnits rest
        | [] => quoteUnit c
        end
      else quoteUnit c ++ quoteUnits rest
  end.

Definition quoteJSONString (s : jsstring) : jsstring :=
  [34%N] ++ quoteUnits s ++ [34%N].

(** [JSON.stringify(value)] without indentation. *)
Fixpoint JSON_stringify (value : json) : jsstring :=
  match value with
  | JNull => ofString "null"
  | JBool true => ofString "true"
  | JBool false => ofString "false"
  | JNumber n => ofString (pretty n)
  | JString s => quoteJSONString s
  | JArray items =>
      [91%N] ++
      (fix elements (l : list json) : jsstring :=
         match l with
         | [] => []
         | [x] => JSON_stringify x
         | x :: rest => JSON_stringify x ++ [44%N] ++ elements rest
         end) items ++
      [93%N]
  | JObject fields =>
      [123%N] ++
      (fix members (l : list (jsstring * json)) : jsstring :=
         match l with
         | [] => []
         | [(k, v)] => quoteJSONString k ++ [58%N] ++ JSON_stringify v
         | (k, v) :: rest =>
             quoteJSONString k ++ [58%N] ++ JSON_stringify v ++ [44%N] ++ members rest
         end) fields ++
      [125%N]
  end.

(** [s.charCodeAt(i)]; out of range it is [NaN], which [^] reads as 0. *)
Definition charCodeAt (s : jsstring) (i : nat) : N := nth i s 0%N.

(** [String.fromCharCode(n)] keeps the low 16 bits. *)
Definition fromCharCode (n : N) : N := (n mod 65536)%N.

(** The loop shared by [encrypt] and [decrypt]: each code unit is combined
    with the key's code unit at [i % key.length]. *)
Definition xorWithKey (key s : jsstring) : jsstring :=
  imap (fun i c => fromCharCode (N.lxor c (charCodeAt key (i mod length key)))) s.

(** The base64 alphabet. *)
Definition encodeSextet (n : N) : N :=
  if (n <? 26)%N then (65 + n)%N
  else if (n <? 52)%N then (97 + (n - 26))%N
  else if (n <? 62)%N then (48 + (n - 52))%N
  else if (n =? 62)%N then 43%N
  else 47%N.

Definition decodeSextet (c : N) : option N :=
  if (65 <=? c)%N && (c <=? 90)%N then Some (c - 65)%N
  else if (97 <=? c)%N && (c <=? 122)%N then Some (c - 97 + 26)%N
  else if (48 <=? c)%N && (c <=? 57)%N then Some (c - 48 + 52)%N
  else if (c =? 43)%N then Some 62%N
  else if (c =? 47)%N then Some 63%N
  else None.

(** Three bytes become four alphabet characters; a last group of one or two
    bytes is padded with [=] (61). *)
Fixpoint base64Encode (bytes : list N) : jsstring :=
  match bytes with
  | [] => []
  | [a] =>
      [encodeSextet (a / 4); encodeSextet (a mod 4 * 16); 61; 61]%N
  | [a; b] =>
      [encodeSextet (a / 4); encodeSextet (a mod 4 * 16 + b / 16);
       encodeSextet (b mod 16 * 4); 61]%N
  | a :: b :: c :: rest =>
      [encodeSextet (a / 4); encodeSextet (a mod 4 * 16 + b / 16);
       encodeSextet (b mod 16 * 4 + c / 64); encodeSextet (c mod 64)]%N
      ++ base64Encode rest
  end.

(** [btoa(s)]: a code unit above 255 raises [InvalidCharacterError]. *)
Definition btoa (s : jsstring) : outcome jsstring :=
  if forallb (fun c => (c <=? 255)%N) s then Returned (base64Encode s)
  else Thrown InvalidCharacterError.

Definition isAsciiWhitespace (c : N) : bool :=
  (c =? 9)%N || (c =? 10)%N || (c =? 12)%N || (c =? 13)%N || (c =? 32)%N.

(** Removal of one or two trailing [=] when the length is a multiple of 4. *)
Definition stripPadding (s : jsstring) : jsstring :=
  if (length s mod 4 =? 0)%nat then
    match reverse s with
    | c :: r =>
        if c =? 61 then
          match r with
          | d :: r' => if d =? 61 then reverse r' else reverse r
          | [] => reverse r
          end
        else s
    | [] => s
    end
  else s.

(** Sextets back to bytes; leftover bits of a last group are dropped. *)
Fixpoint base64Decode (sextets : list N) : list N :=
  match sextets with
  | a :: b :: c :: d :: rest =>
      [a * 4 + b / 16; b mod 16 * 16 + c / 4; c mod 4 * 64 + d]%N
      ++ base64Decode rest
  | [a; b; c] => [a * 4 + b / 16; b mod 16 * 16 + c / 4]%N
  | [a; b] => [a * 4 + b / 16]%N
  | _ => []
  end.

(** [atob(s)], the forgiving base64 decoder: whitespace is dropped, padding
    removed, and a length of 1 modulo 4 or a character outside the alphabet
    raises [InvalidCharacterError]. *)
Definition atob (s : jsstring) : outcome jsstring :=
  let data := stripPadding (filter (fun c => isAsciiWhitespace c = false) s) in
  if (length data mod 4 =? 1)%nat then Thrown InvalidCharacterError
  else match mapM decodeSextet data with
       | Some sextets => Returned (base64Decode sextets)
       | None => Thrown InvalidCharacterError
       end.

(** What [save] hands to storage and [load] reads back: the data itself, or
    the wrapper [{ encrypted: true, data }] around base64 text. *)
Inductive stored : Type :=
| Plain (data : json)
| Encrypted (data : jsstring).

Section Encryption.

(** [JSON.parse], a platform function. *)
Variable JSON_parse : jsstring -> outcome json.

(** [encrypt(data)] under [config.encryptionKey]; the empty key stands for
    every falsy setting ([null], [''], absent). *)
Definition encrypt (key : jsstring) (data : json) : outcome stored :=
  match key with
  | [] => Returned (Plain data)
  | _ =>
      let serialized := JSON_stringify data in
      let encrypted := xorWithKey key serialized in
      b64 ← btoa encrypted;
      Returned (Encrypted b64)
  end.

(** [decrypt(data)]. *)
Definition decrypt (key : jsstring) (data : stored) : outcome stored :=
  match data with
  | Plain d => Returned (Plain d)
  | Encrypted b64 =>
      match key with
      | [] => Returned (Encrypted b64)
      | _ =>
          encrypted ← atob b64;
          let decrypted := xorWithKey key encrypted in
          parsed ← JSON_parse decrypted;
          Returned (Plain parsed)
      end
  end.

End Encryption.

(** *** Vocabulary of the properties and sample data *)

(** The alphabet positions [base64Encode] emits, without the padding. *)
Fixpoint sextetsOf (bytes : list N) : list N :=
  match bytes with
  | [] => []
  | [a] => [a / 4; a mod 4 * 16]
  | [a; b] => [a / 4; a mod 4 * 16 + b / 16; b mod 16 * 4]
  | a :: b :: c :: rest =>
      [a / 4; a mod 4 * 16 + b / 16; b mod 16 * 4 + c / 64; c mod 64]
      ++ sextetsOf rest
  end.

Fixpoint paddingOf (bytes : list N) : jsstring :=
  match bytes with
  | [] => []
  | [_] => [61; 61]
  | [_; _] => [61]
  | _ :: _ :: _ :: rest => paddingOf rest
  end.

(** The state after a verdict has been stored: the faithful verdict carries
    the sparkles icon, code unit U+2728. *)
Definition verdictState : json :=
  JObject
    [(ofString "phase", JString (ofString "verdict"));
     (ofString "score", JNumber 0);
     (ofString "verdict",
      JObject [(ofString "type", JString (ofString "faithful"));
               (ofString "icon", JString [10024])])].

Definition sampleKey : jsstring := ofString "secret".

(** A state whose serialization is plain ASCII. *)
Definition startState : json :=
  JObject
    [(ofString "phase", JString (ofString "start"));
     (ofString "score", JNumber 0);
     (ofString "verdict", JNull)].

(** A parser that knows one text: it reads the serialization of [data] back
    as [data] and rejects everything else. *)
Definition parseOnly (data : json) (text : jsstring) : outcome json :=
  if bool_decide (text = JSON_stringify data) then Returned data
  else Thrown SyntaxError.

End StateManager.

(** ** Council manager: views, statistics and notifications *)

Module CouncilViews.
Import CouncilManager.

(** The councils of the map as [Array.from(this.councils.values())] lists
    them.  The map of the model is extensional and does not record insertion
    order; the properties below speak of membership and counts only. *)
Definition getAllCouncils (st : state) : list council :=
  (map_to_list (councils st)).*2.

(** [getCouncil(id)]. *)
Definition getCouncil (st : state) (k : string) : option council :=
  councils st !! k.

(** [getActiveCouncils()]: the councils whose [id] is not in the offended
    set. *)
Definition getActiveCouncils (st : state) : list council :=
  filter (fun c => set_has (id c) (offendedCouncils st) = false) (getAllCouncils st).

Inductive standing : Type := Excellent | Good | Fair | Poor | Critical.

(** [getCurrentStanding()]. *)
Definition getCurrentStanding (st : state) : standing :=
  let offended := length (offendedCouncils st) in
  if (offended =? 0)%nat then Excellent
  else if (offended <=? 1)%nat then Good
  else if (offended <=? 2)%nat then Fair
  else if (offended <=? 3)%nat then Poor
  else Critical.

(** How bad a standing is, from [Excellent] (0) to [Critical] (4). *)
Definition standing_rank (s : standing) : nat :=
  match s with
  | Excellent => 0
  | Good => 1
  | Fair => 2
  | Poor => 3
  | Critical => 4
  end.

(** A counter of [stats.bySeverity]; [++] on a missing property stores
    [NaN]. *)
Inductive counter : Type :=
| Count (n : nat)
| NotANumber.

Definition increment (c : option counter) : counter :=
  match c with
  | Some (Count n) => Count (S n)
  | _ => NotANumber
  end.

Record councilStats : Type := {
  total : nat;
  offended : nat;
  active : Z;
  bySeverity : gmap string counter
}.

(** The property key [council.lastReaction.severity] evaluates to: the
    [lastReaction] objects that [processCouncilReaction] stores carry
    [score], [offended] and [timestamp], so the lookup yields [undefined]. *)
Definition lastReactionSeverityKey (r : reactionSummary) : string := "undefined".

(** [getCouncilStats()]. *)
Definition getCouncilStats (st : state) : councilStats :=
  {| total := size (councils st);
     offended := length (offendedCouncils st);
     active := (Z.of_nat (size (councils st)) - Z.of_nat (length (offendedCouncils st)))%Z;
     bySeverity :=
       fold_left
         (fun by_sev k =>
            match councils st !! k with
            | Some c =>
                match lastReaction c with
                | Some r =>
                    let key := lastReactionSeverityKey r in
                    <[key := increment (by_sev !! key)]> by_sev
                | None => by_sev
                end
            | None => by_sev
            end)
         (offendedCouncils st)
         {[ "low"%string := Count 0; "medium"%string := Count 0;
            "high"%string := Count 0; "severe"%string := Count 0 ]} |}.

(** The notification settings of the configuration. *)
Record notificationConfig : Type := {
  enableNotifications : bool;
  maxConcurrentNotifications : Z
}.

Record notification : Type := {
  n_council : string;
  n_severity : string;
  n_timestamp : Z;
  n_id : string
}.

(** [showCouncilNotification(council, severity)]; [now] and [later] are what
    its two calls of [Date.now()] return.  The timer it starts calls
    [removeNotification] with the notification's id afterwards. *)
Definition showCouncilNotification (cfg : notificationConfig)
    (activeNotifications : list notification) (c : council) (sev : string)
    (now later : Z) : list notification :=
  if negb (enableNotifications cfg) then activeNotifications
  else if (maxConcurrentNotifications cfg <=? Z.of_nat (length activeNotifications))%Z
  then activeNotifications
  else activeNotifications ++
       [{| n_council := id c;
           n_severity := sev;
           n_timestamp := now;
           n_id := "notification-" +:+ id c +:+ "-" +:+ pretty later |}].

(** [removeNotification(notificationId)]: the first notification with that
    id is spliced out. *)
Fixpoint removeNotification (activeNotifications : list notification)
    (notificationId : string) : list notification :=
  match activeNotifications with
  | [] => []
  | n :: rest =>
      if String.eqb (n_id n) notificationId then rest
      else n :: removeNotification rest notificationId
  end.

(** *** Vocabulary of the properties and sample data *)

(** An operation on the notification list. *)
Inductive notificationOp : Type :=
| Show (c : council) (sev : string) (now later : Z)
| Remove (notificationId : string).

Definition applyOp (cfg : notificationConfig) (activeNotifications : list notification)
    (op : notificationOp) : list notification :=
  match op with
  | Show c sev now later =>
      showCouncilNotification cfg activeNotifications c sev now later
  | Remove i => removeNotification activeNotifications i
  end.

(** The manager is well formed: every council is stored under its own id,
    and the offended set names known councils, each once. *)
Definition well_formed (st : state) : Prop :=
  map_Forall (fun k c => id c = k) (councils st) /\
  NoDup (offendedCouncils st) /\
  (forall k, k ∈ offendedCouncils st -> is_Some (councils st !! k)).

(** What [processCouncils] stores under [k]: a fresh council made from a
    valid entry of the data with that id. *)
Definition stored_from (data : list councilData) (k : string) (c : council) : Prop :=
  id c = k /\ offendedCount c = 0%Z /\ lastReaction c = None /\
  reactionHistory c = [] /\
  exists d, d ∈ data /\ validateCouncil d = true /\ cd_id d = Some k /\
            tolerance c = cd_tolerance d.

(** One entry of the data handled by [processCouncils]. *)
Definition processCouncils_step (m : gmap string council) (d : councilData)
    : gmap string council :=
  if validateCouncil d then
    match cd_id d with
    | Some i => <[i := {| id := i;
                          tolerance := cd_tolerance d;
                          offendedCount := 0;
                          lastReaction := None;
                          reactionHistory := [] |}]> m
    | None => m
    end
  else m.

(** From [m] to [m'] no council appears or disappears, ids and tolerances
    stay, and councils outside [named] are unchanged. *)
Definition councils_kept (m m' : gmap string council) (named : list string) : Prop :=
  forall k,
    match m !! k with
    | Some c => exists c', m' !! k = Some c' /\ id c' = id c /\
                           tolerance c' = tolerance c /\ (k ∉ named -> c' = c)
    | None => m' !! k = None
    end.

(** The standing for [n] offended councils. *)
Definition standing_of (n : nat) : standing :=
  if (n =? 0)%nat then Excellent
  else if (n <=? 1)%nat then Good
  else if (n <=? 2)%nat then Fair
  else if (n <=? 3)%nat then Poor
  else Critical.

End CouncilViews.

(** ** Question manager: serving and answering questions *)

Module QuestionFlow.
Import QuestionManager.

(** [this.answeredQuestions.has(question.id)]; the set of the model holds
    string ids, and [undefined] is never in it. *)
Definition isAnswered (answered : list string) (q : question) : bool :=
  match q_id q with
  | Some i => bool_decide (i ∈ answered)
  | None => false
  end.

(** The [while] loop of [getNextQuestion] over the questions from the
    current index on: the first unanswered question and the index reached. *)
Fixpoint scan (answered : list string) (rest : list question) (idx : nat)
    : option question * nat :=
  match rest with
  | [] => (None, idx)
  | q :: rest' =>
      if isAnswered answered q then scan answered rest' (S idx)
      else (Some q, idx)
  end.

Definition set_index (idx : nat) (st : state) : state :=
  {| questions := questions st;
     currentQuestionIndex := idx;
     answeredQuestions := answeredQuestions st;
     isLoading := isLoading st;
     loadError := loadError st;
     emitted := emitted st;
     randomCalls := randomCalls st |}.

(** [getNextQuestion()]: the question returned and the manager with the
    index advanced.  The [questionSelected] event carries the question
    returned; [emitted] logs the loading events only. *)
Definition getNextQuestion (st : state) : option question * state :=
  if (length (questions st) =? 0)%nat then (None, st)
  else
    let found := scan (answeredQuestions st)
                   (drop (currentQuestionIndex st) (questions st))
                   (currentQuestionIndex st) in
    (found.1, set_index found.2 st).

(** [getCurrentQuestion()]. *)
Definition getCurrentQuestion (st : state) : option question :=
  questions st !! currentQuestionIndex st.

(** The object [processAnswer] returns and emits as [questionAnswered]. *)
Record answerResult : Type := {
  ar_question : question;
  ar_answer : answer;
  ar_councilReactions : list (string * councilReaction);
  ar_responseTime : Z
}.

(** What [processAnswer] does: it records the answer, throws
    [Error('Question and answer are required')], or is handed a question
    without an id, whose [undefined] the set of the model cannot hold. *)
Inductive answered : Type :=
| Recorded (r : answerResult) (st : state)
| Rejected
| Unidentified.

(** [calculateResponseTime()]: a placeholder drawing 1 to 11 seconds. *)
Definition calculateResponseTime (r : Q) : Z := (Qfloor (r * 10000) + 1000)%Z.

(** [processAnswer(question, answer)]; [None] is an [undefined] answer. *)
Definition processAnswer (rand : random_source) (st : state) (q : question)
    (a : option answer) : answered :=
  match a with
  | None => Rejected
  | Some ans =>
      match q_id q with
      | None => Unidentified
      | Some i =>
          Recorded
            {| ar_question := q;
               ar_answer := ans;
               ar_councilReactions := calculateCouncilReactions q ans;
               ar_responseTime := calculateResponseTime (rand (randomCalls st)) |}
            {| questions := questions st;
               currentQuestionIndex := currentQuestionIndex st;
               answeredQuestions :=
                 if bool_decide (i ∈ answeredQuestions st) then answeredQuestions st
                 else answeredQuestions st ++ [i];
               isLoading := isLoading st;
               loadError := loadError st;
               emitted := emitted st;
               randomCalls := S (randomCalls st) |}
      end
  end.

(** *** Vocabulary of the properties and sample data *)

(** A run of the quiz: for each answer the next question is fetched and
    answered; the questions served, in order. *)
Fixpoint play (rand : random_source) (answers : list answer) (st : state)
    : list question :=
  match answers with
  | [] => []
  | a :: rest =>
      match getNextQuestion st with
      | (Some q, st1) =>
          match processAnswer rand st1 q (Some a) with
          | Recorded _ st2 => q :: play rand rest st2
          | _ => [q]
          end
      | (None, _) => []
      end
  end.

(** The questions [processQuestions] keeps. *)
Definition validOnes (qs : list question) : list question :=
  filter (fun q => validQuestion q = true) qs.

(** How many questions [processQuestions] returns of [n] valid ones. *)
Definition limited (cfg : config) (n : nat) : nat :=
  match maxQuestions cfg with
  | None => n
  | Some m =>
      if (m =? 0)%Z then n
      else if (m <? 0)%Z then Z.to_nat (Z.of_nat n + m)
      else Nat.min (Z.to_nat m) n
  end.



(** A manager holding the built-in questions in their written order. *)
Definition loadedManager : state :=
  {| questions := getBuiltInQuestions;
     currentQuestionIndex := 0;
     answeredQuestions := [];
     isLoading := false;
     loadError := None;
     emitted := [];
     randomCalls := 0 |}.

End QuestionFlow.

(** ** Verdict calculator: the remaining score terms and the analysis *)

Module VerdictScores.
Import VerdictCalculator.

(** [question.councils?.[key]] as a condition: the entries of [councils] are
    objects, so the test asks whether the key is present. *)
Definition hasCouncil (q : question) (key : string) : bool :=
  match q_councils q with
  | Some entries => bool_decide (key ∈ entries.*1)
  | None => false
  end.

(** [userAnswer === true ? 1 : -1]. *)
Definition vote (a : answer) : Z := if strict_eq a (ABool true) then 1 else -1.

Record stances : Type := {
  theologicalStance : Z;
  scientificStance : Z;
  politicalStance : Z
}.

(** The body of the [forEach] of [calculateConsistencyScore]. *)
Definition addStance (s : stances) (entry : question * answer) : stances :=
  let (q, userAnswer) := entry in
  {| theologicalStance :=
       if hasCouncil q "Catholic Church" || hasCouncil q "Protestant Reformation"
       then theologicalStance s + vote userAnswer else theologicalStance s;
     scientificStance :=
       if hasCouncil q "Scientific Community"
       then scientificStance s + vote userAnswer else scientificStance s;
     politicalStance :=
       if hasCouncil q "Political Authority"
       then politicalStance s + vote userAnswer else politicalStance s |}%Z.

(** [Math.abs(stance) / Math.max(1, Math.abs(stance))]. *)
Definition consistency (stance : Z) : Q :=
  Qabs (inject_Z stance) / Math_max 1 (Qabs (inject_Z stance)).

(** [Math.round]: the nearest integer, halves upwards. *)
Definition Math_round (x : Q) : Z := Qfloor (x + (1 # 2)).

(** [calculateConsistencyScore(questionsAnswered)] on entries that each have
    a question. *)
Definition calculateConsistencyScore (questionsAnswered : list (question * answer))
    : Z :=
  if (length questionsAnswered <? 3)%nat then 0%Z
  else
    let s := fold_left addStance questionsAnswered
               {| theologicalStance := 0; scientificStance := 0;
                  politicalStance := 0 |} in
    let averageConsistency :=
      (consistency (theologicalStance s) + consistency (scientificStance s)
       + consistency (politicalStance s)) / 3 in
    Math_round (averageConsistency * 2).

(** What the analysis reads of [gameData]. *)
Record gameData : Type := {
  questionsAnswered : list (question * answer);
  councilsOffended : list councilInfo;
  averageResponseTime : option Q
}.

Definition averageBelow (g : gameData) (limit : Q) : bool :=
  match averageResponseTime g with
  | Some t => num_lt t limit
  | None => false
  end.

Definition averageAbove (g : gameData) (limit : Q) : bool :=
  match averageResponseTime g with
  | Some t => num_lt limit t
  | None => false
  end.

(** [identifyStrengths(gameData)]. *)
Definition identifyStrengths (g : gameData) : list string :=
  (if (length (councilsOffended g) =? 0)%nat
   then ["Excellent diplomatic skills"%string] else [])
  ++ (if averageBelow g 5000 then ["Quick decision making"%string] else [])
  ++ (if (5 <? length (questionsAnswered g))%nat
      then ["Good question completion rate"%string] else []).

(** [identifyWeaknesses(gameData)]. *)
Definition identifyWeaknesses (g : gameData) : list string :=
  (if (3 <=? length (councilsOffended g))%nat
   then ["Poor council relations"%string] else [])
  ++ (if averageAbove g 15000 then ["Slow decision making"%string] else [])
  ++ (if (length (questionsAnswered g) <? 3)%nat
      then ["Low question completion rate"%string] else []).

(** *** Vocabulary of the properties and sample data *)

(** How many of the three stances are not zero. *)
Definition stancesTaken (s : stances) : nat :=
  ((if (theologicalStance s =? 0)%Z then 0 else 1)
   + (if (scientificStance s =? 0)%Z then 0 else 1)
   + (if (politicalStance s =? 0)%Z then 0 else 1))%nat.

(** Strengths and weaknesses that speak of the same matter. *)
Definition opposites : list (string * string) :=
  [("Excellent diplomatic skills", "Poor council relations");
   ("Quick decision making", "Slow decision making");
   ("Good question completion rate", "Low question completion rate")]%string.

End VerdictScores.

(** ** State manager: the state tree and its history *)

Module StateStore.
Import StateManager.

(** The values the state holds.  The state is a tree: no object is
    reachable along two paths, so that the in-place updates of [set] are
    updates of the tree. *)
#[local] Unset Elimination Schemes.
Inductive value : Type :=
| VNull
| VBool (b : bool)
| VNumber (n : Z)
| VString (s : jsstring)
| VArray (items : list value)
| VObject (fields : gmap jsstring value).
#[local] Set Elimination Schemes.

(** [typeof v === 'object']. *)
Definition isObjectType (v : value) : bool :=
  match v with
  | VNull | VArray _ | VObject _ => true
  | _ => false
  end.

(** The property names every object inherits from [Object.prototype]; for
    them [k in current] holds without an own property. *)
Definition inheritedNames : list jsstring :=
  ofString <$>
    ["constructor"; "__proto__"; "hasOwnProperty"; "isPrototypeOf";
     "propertyIsEnumerable"; "toLocaleString"; "toString"; "valueOf";
     "__defineGetter__"; "__defineSetter__"; "__lookupGetter__";
     "__lookupSetter__"]%string.

Definition inherited (k : jsstring) : bool := bool_decide (k ∈ inheritedNames).

(** [s.split(sep)] for a separator of one code unit. *)
Fixpoint split (sep : N) (s : jsstring) : list jsstring :=
  match s with
  | [] => [[]]
  | c :: rest =>
      if (c =? sep)%N then [] :: split sep rest
      else match split sep rest with
           | segment :: segments => (c :: segment) :: segments
           | [] => [[c]]
           end
  end.

(** What [get] answers: a value, [undefined], or a step that leaves the
    model: into an array or through an inherited property name. *)
Inductive lookup : Type :=
| Found (v : value)
| Undefined
| Outside.

(** The [for] loop of [get]. *)
Fixpoint walk (keys : list jsstring) (current : value) : lookup :=
  match keys with
  | [] => Found current
  | k :: rest =>
      match current with
      | VObject fields =>
          if inherited k then Outside
          else match fields !! k with
               | Some v => walk rest v
               | None => Undefined
               end
      | VArray _ => Outside
      | _ => Undefined
      end
  end.

(** [get(key)]; the empty string stands for every falsy key. *)
Definition get (key : jsstring) (state : value) : lookup :=
  match key with
  | [] => Found state
  | _ => walk (split 46 key) state
  end.

(** The update of [set]: the loop over all keys but the last, which
    replaces what is missing or not of type object by [{}] ([descend] is
    [current[k]] after that replacement), and the final assignment.  [null] is of type object and is descended into, where
    [in] or the assignment throws [TypeError]; [Stuck] marks the steps that
    leave the model. *)
Definition descend (fields : gmap jsstring value) (k : jsstring) : value :=
  match fields !! k with
  | Some v => if isObjectType v then v else VObject ∅
  | None => VObject ∅
  end.

Fixpoint assign (keys : list jsstring) (newValue current : value) : outcome value :=
  match current with
  | VObject fields =>
      match keys with
      | [] => Stuck
      | [lastKey] =>
          if inherited lastKey then Stuck
          else Returned (VObject (<[lastKey := newValue]> fields))
      | k :: rest =>
          if inherited k then Stuck
          else
            child' ← assign rest newValue (descend fields k);
            Returned (VObject (<[k := child']> fields))
      end
  | VArray _ => Stuck
  | _ => Thrown TypeError
  end.

(** A history entry without its timestamp.  It holds the values as they are
    when the entry is made. *)
Record entry : Type := {
  e_key : jsstring;
  e_oldValue : lookup;
  e_newValue : value
}.

Record manager : Type := {
  state : value;
  history : list entry;
  hasUnsavedChanges : bool;
  maxHistory : nat
}.

(** [addToHistory(key, oldValue, newValue)]: [push], then one [shift] when
    the history has grown beyond [config.maxHistory]. *)
Definition addToHistory (limit : nat) (history : list entry) (e : entry)
    : list entry :=
  let pushed := history ++ [e] in
  if (limit <? length pushed)%nat then tail pushed else pushed.

(** [set(key, value, { addToHistory })]; the events go to listeners. *)
Definition set (key : jsstring) (newValue : value) (record : bool) (m : manager)
    : outcome manager :=
  match key with
  | [] => Returned m
  | _ =>
      match get key (state m) with
      | Outside => Stuck
      | oldValue =>
          state' ← assign (split 46 key) newValue (state m);
          Returned
            {| state := state';
               history :=
                 if record
                 then addToHistory (maxHistory m) (history m)
                        {| e_key := key; e_oldValue := oldValue;
                           e_newValue := newValue |}
                 else history m;
               hasUnsavedChanges := true;
               maxHistory := maxHistory m |}
      end
  end.

(** [createInitialState()]. *)
Definition initialFields : gmap jsstring value :=
  list_to_map
    [(ofString "version", VString (ofString "1.0.0"));
     (ofString "phase", VString (ofString "start"));
     (ofString "difficulty", VString (ofString "normal"));
     (ofString "startTime", VNull);
     (ofString "endTime", VNull);
     (ofString "questionsAnswered", VArray []);
     (ofString "councilsOffended", VArray []);
     (ofString "currentQuestion", VNull);
     (ofString "questionIndex", VNumber 0);
     (ofString "score", VNumber 0);
     (ofString "verdict", VNull);
     (ofString "settings",
      VObject (list_to_map
        [(ofString "soundEnabled", VBool true);
         (ofString "animationsEnabled", VBool true);
         (ofString "autoSaveEnabled", VBool true);
         (ofString "difficulty", VString (ofString "normal"))]));
     (ofString "statistics",
      VObject (list_to_map
        [(ofString "totalGamesPlayed", VNumber 0);
         (ofString "totalQuestionsAnswered", VNumber 0);
         (ofString "totalCouncilsOffended", VNumber 0);
         (ofString "averageGameTime", VNumber 0);
         (ofString "bestScore", VNumber 0);
         (ofString "favoriteCouncil", VNull)]))].

Definition createInitialState : value := VObject initialFields.

Definition requiredKeys : list jsstring :=
  ofString <$> ["version"; "phase"; "difficulty"; "questionsAnswered"]%string.

(** [Array.isArray] of a property read. *)
Definition isArray (v : option value) : bool :=
  match v with
  | Some (VArray _) => true
  | _ => false
  end.

(** [if (!Array.isArray(validatedState[key])) validatedState[key] = []]. *)
Definition ensureArray (key : jsstring) (fields : gmap jsstring value)
    : gmap jsstring value :=
  if isArray (fields !! key) then fields else <[key := VArray []]> fields.

(** [validateState(state)]: an array is of type object and has none of the
    required keys. *)
Definition validateState (state : value) : value :=
  match state with
  | VObject fields =>
      if forallb (fun key => bool_decide (is_Some (fields !! key))) requiredKeys
      then
        let validatedState := fields ∪ initialFields in
        VObject
          (ensureArray (ofString "councilsOffended")
             (ensureArray (ofString "questionsAnswered") validatedState))
      else createInitialState
  | _ => createInitialState
  end.

(** *** Vocabulary of the properties and sample data *)

(** Two paths part ways: at the first position where they differ both have
    a key. *)
Fixpoint diverge (keys keys' : list jsstring) : bool :=
  match keys, keys' with
  | k :: rest, k' :: rest' =>
      if bool_decide (k = k') then diverge rest rest' else true
  | _, _ => false
  end.

(** What [validateState] establishes: an object with every key of the
    initial state and arrays under the two list keys. *)
Definition wellShaped (state : value) : Prop :=
  exists fields,
    state = VObject fields /\
    (forall key, is_Some (initialFields !! key) -> is_Some (fields !! key)) /\
    isArray (fields !! ofString "questionsAnswered") = true /\
    isArray (fields !! ofString "councilsOffended") = true.

(** A series of recorded [set] calls; a call that throws is caught by the
    caller and has changed nothing.  [None] when a call leaves the model. *)
Fixpoint setEach (calls : list (jsstring * value)) (m : manager) : option manager :=
  match calls with
  | [] => Some m
  | (key, newValue) :: rest =>
      match set key newValue true m with
      | Returned m' => setEach rest m'
      | Thrown _ => setEach rest m
      | Stuck => None
      end
  end.

(** A manager on the initial state with room for [limit] history entries. *)
Definition freshStore (limit : nat) : manager :=
  {| state := createInitialState; history := [];
     hasUnsavedChanges := false; maxHistory := limit |}.

End StateStore.

(** ** State manager: the state as objects held by reference

    [set] stores the caller's value as it is and [get] hands out what the
    state holds: for an object that is a reference, and an object stored
    under two keys is one object.  [StateStore] takes the state as a tree,
    which it is as long as no object is held in two places; here the
    objects live in a heap, so that it can be said what sharing does. *)

Module StateHeap.
Import StateManager StateStore.

(** A value as the state holds it: a primitive, or a reference to an object
    or to an array, which is the address of the object in the heap.  Arrays
    are not looked into, as in [StateStore]; their addresses only tell them
    apart. *)
Inductive ref : Type :=
| RNull
| RBool (b : bool)
| RNumber (n : Z)
| RString (s : jsstring)
| RArray (address : nat)
| RObject (address : nat).

(** The objects in existence, each with its own properties. *)
Abbreviation heap := (gmap nat (gmap jsstring ref)).

(** What [get] answers: a value, [undefined], or a step that leaves the
    model: into an array, through an inherited property name, or to an
    address that holds no object. *)
Inductive reading : Type :=
| Found (v : ref)
| Undefined
| Outside.

(** The [for] loop of [get]. *)
Fixpoint walk (h : heap) (keys : list jsstring) (current : ref) : reading :=
  match keys with
  | [] => Found current
  | k :: rest =>
      match current with
      | RObject a =>
          match h !! a with
          | Some fields =>
              if inherited k then Outside
              else match fields !! k with
                   | Some v => walk h rest v
                   | None => Undefined
                   end
          | None => Outside
          end
      | RArray _ => Outside
      | _ => Undefined
      end
  end.

(** [get(key)] on the state object at address [root]; the empty string
    stands for every falsy key. *)
Definition get (key : jsstring) (root : nat) (h : heap) : reading :=
  match key with
  | [] => Found (RObject root)
  | _ => walk h (split 46 key) (RObject root)
  end.

(** [typeof v === 'object']. *)
Definition isObjectType (v : ref) : bool :=
  match v with
  | RNull | RArray _ | RObject _ => true
  | _ => false
  end.

(** [!(k in current) || typeof current[k] !== 'object'], for a key that is
    no inherited name. *)
Definition replaced (fields : gmap jsstring ref) (k : jsstring) : bool :=
  match fields !! k with
  | Some v => negb (isObjectType v)
  | None => true
  end.

(** The update of [set]: the loop over all keys but the last, which stores
    a new empty object where the key is missing or holds nothing of type
    object and goes on at what the key holds, and the final assignment.
    The new object takes an address not in use.  [null] is of type object
    and is gone on at, where [in] or the assignment throws [TypeError]. *)
Fixpoint assign (keys : list jsstring) (newValue : ref) (h : heap)
    (current : ref) : outcome heap :=
  match current with
  | RObject a =>
      match h !! a with
      | None => Stuck
      | Some fields =>
          match keys with
          | [] => Stuck
          | [lastKey] =>
              if inherited lastKey then Stuck
              else Returned (<[a := <[lastKey := newValue]> fields]> h)
          | k :: rest =>
              if inherited k then Stuck
              else if replaced fields k then
                let a' := fresh (dom h) in
                assign rest newValue
                  (<[a' := ∅]> (<[a := <[k := RObject a']> fields]> h))
                  (RObject a')
              else assign rest newValue h (default RNull (fields !! k))
          end
      end
  | RArray _ => Stuck
  | _ => Thrown TypeError
  end.

(** What [set(key, value)] does to the objects; the history entry, the
    flag and the event are those of [StateStore.set]. *)
Definition set (key : jsstring) (newValue : ref) (root : nat) (h : heap)
    : outcome heap :=
  match key with
  | [] => Returned h
  | _ =>
      match get key root h with
      | Outside => Stuck
      | _ => assign (split 46 key) newValue h (RObject root)
      end
  end.

(** *** Vocabulary of the properties and sample data *)

(** [a] holds the object [c] under the key [k]. *)
Definition edge (h : heap) (a : nat) (k : jsstring) (c : nat) : Prop :=
  exists fields, h !! a = Some fields /\ fields !! k = Some (RObject c).

(** The object reached from [a] along a path of keys. *)
Inductive reach (h : heap) : nat -> list jsstring -> nat -> Prop :=
| reach_nil a : reach h a [] a
| reach_cons a k c rest x :
    edge h a k c -> reach h c rest x -> reach h a (k :: rest) x.

(** Every object held somewhere exists. *)
Definition closed (h : heap) : Prop :=
  forall a k c, edge h a k c -> c ∈ dom h.

(** No object below [a] is reached along two paths. *)
Definition tree (h : heap) (a : nat) : Prop :=
  forall p q x, reach h a p x -> reach h a q x -> p = q.

(** The places where objects are held: the holder, the key, the object
    held. *)
Definition edges (h : heap) : list (nat * jsstring * nat) :=
  '(a, fields) ← map_to_list h;
  omap (fun '(k, v) => match v with
                       | RObject c => Some (a, k, c)
                       | _ => None
                       end) (map_to_list fields).

(** The objects held somewhere, once for each place. *)
Definition held (h : heap) : list nat := (edges h).*2.

(** The root exists, no object is held in two places, the root is held
    nowhere, and every object held exists. *)
Definition unshared (h : heap) (root : nat) : Prop :=
  root ∈ dom h /\
  (forall a k a' k' c, edge h a k c -> edge h a' k' c -> a = a' /\ k = k') /\
  (forall a k, ~ edge h a k root) /\
  closed h.

(** The same, computed. *)
Definition unsharedCheck (h : heap) (root : nat) : bool :=
  bool_decide (root ∈ dom h) &&
  bool_decide (NoDup (held h)) &&
  bool_decide (root ∉ held h) &&
  bool_decide (Forall (fun c => c ∈ dom h) (held h)).

(** A value that is no object and no array: it is stored by value. *)
Definition primitive (v : ref) : bool :=
  match v with
  | RArray _ | RObject _ => false
  | _ => true
  end.

(** The initial state, its three objects at the addresses 0, 1 and 2. *)
Definition initialHeap : heap :=
  {[ 0%nat := list_to_map
        [(ofString "version", RString (ofString "1.0.0"));
         (ofString "phase", RString (ofString "start"));
         (ofString "difficulty", RString (ofString "normal"));
         (ofString "startTime", RNull);
         (ofString "endTime", RNull);
         (ofString "questionsAnswered", RArray 0);
         (ofString "councilsOffended", RArray 1);
         (ofString "currentQuestion", RNull);
         (ofString "questionIndex", RNumber 0);
         (ofString "score", RNumber 0);
         (ofString "verdict", RNull);
         (ofString "settings", RObject 1);
         (ofString "statistics", RObject 2)];
     1%nat := list_to_map
        [(ofString "soundEnabled", RBool true);
         (ofString "animationsEnabled", RBool true);
         (ofString "autoSaveEnabled", RBool true);
         (ofString "difficulty", RString (ofString "normal"))];
     2%nat := list_to_map
        [(ofString "totalGamesPlayed", RNumber 0);
         (ofString "totalQuestionsAnswered", RNumber 0);
         (ofString "totalCouncilsOffended", RNumber 0);
         (ofString "averageGameTime", RNumber 0);
         (ofString "bestScore", RNumber 0);
         (ofString "favoriteCouncil", RNull)] ]}.

(** The heap a call leaves that returns. *)
Definition after (call : outcome heap) : heap :=
  match call with
  | Returned h => h
  | _ => ∅
  end.

(** Whether a call returns. *)
Definition returns (call : outcome heap) : bool :=
  match call with
  | Returned _ => true
  | _ => false
  end.

(** [set('a', get('settings'))] on the initial state: the settings object
    is now held in two places. *)
Definition sharedHeap : heap :=
  after (set (ofString "a") (RObject 1) 0 initialHeap).

End StateHeap.

(** ** Event emitter *)

Module EventEmitter.

#[global] Instance error_eq_dec : EqDecision error.
Proof. solve_decision. Defined.

(** The functions an emitter holds.  A [Callback] is a function of the
    caller: it returns or throws and does not touch the emitter.  An
    [OnceWrapper] is the arrow function [once] registers: it unsubscribes
    itself and then calls the caller's function.  [name] stands for the
    identity of the function object. *)
Inductive listener : Type :=
| Callback (name : nat) (raises : option error)
| OnceWrapper (name : nat) (raises : option error).

#[global] Instance listener_eq_dec : EqDecision listener.
Proof. solve_decision. Defined.

Definition isOnce (l : listener) : bool :=
  match l with
  | OnceWrapper _ _ => true
  | Callback _ _ => false
  end.

Definition raisesOf (l : listener) : option error :=
  match l with
  | Callback _ r | OnceWrapper _ r => r
  end.

(** [this.events]. *)
Abbreviation registry := (gmap string (list listener)).

(** [on(event, callback)]. *)
Definition on (event : string) (callback : listener) (events : registry)
    : registry :=
  <[event := default [] (events !! event) ++ [callback]]> events.

(** [callbacks.indexOf(callback)] followed by [splice(index, 1)]. *)
Fixpoint removeFirst (callback : listener) (callbacks : list listener)
    : list listener :=
  match callbacks with
  | [] => []
  | c :: rest =>
      if decide (c = callback) then rest else c :: removeFirst callback rest
  end.

(** The unsubscribe function [on] returns. *)
Definition unsubscribe (event : string) (callback : listener)
    (events : registry) : registry :=
  match events !! event with
  | Some callbacks => <[event := removeFirst callback callbacks]> events
  | None => events
  end.

(** [once(event, callback)]; [name] is the identity of the new wrapper. *)
Definition once (event : string) (name : nat) (raises : option error)
    (events : registry) : registry :=
  on event (OnceWrapper name raises) events.

(** A call of a listener during [emit(event)]: the registry it leaves and
    the exception that reaches the [catch] of [emit]. *)
Definition invoke (event : string) (l : listener) (events : registry)
    : registry * option error :=
  match l with
  | Callback _ raises => (events, raises)
  | OnceWrapper _ raises => (unsubscribe event l events, raises)
  end.

(** What an [emit] did: the listeners it called, the errors it logged, and
    the registry afterwards. *)
Record emission : Type := {
  called : list listener;
  logged : list error;
  after : registry
}.

(** [callbacks.forEach] from index [k] on, for the [fuel] indices left of
    the length the array had when [forEach] began; an index the array no
    longer has is passed over. *)
Fixpoint forEach (fuel : nat) (event : string) (k : nat) (acc : emission)
    : emission :=
  match fuel with
  | O => acc
  | S fuel' =>
      match default [] (after acc !! event) !! k with
      | Some l =>
          let result := invoke event l (after acc) in
          forEach fuel' event (S k)
            {| called := called acc ++ [l];
               logged := logged acc ++ option_list result.2;
               after := result.1 |}
      | None => forEach fuel' event (S k) acc
      end
  end.

(** [emit(event, ...args)]. *)
Definition emit (event : string) (events : registry) : emission :=
  let idle := {| called := []; logged := []; after := events |} in
  match events !! event with
  | Some callbacks =>
      if (0 <? length callbacks)%nat
      then forEach (length callbacks) event 0 idle
      else idle
  | None => idle
  end.

(** [listeners(event)], [eventNames()] as a set, [listenerCount(event)]. *)
Definition listeners (event : string) (events : registry) : list listener :=
  default [] (events !! event).

Definition eventNames (events : registry) : gset string := dom events.

Definition listenerCount (event : string) (events : registry) : nat :=
  match events !! event with
  | Some callbacks => length callbacks
  | None => 0%nat
  end.

(** *** Vocabulary of the properties and sample data *)

(** The listeners one pass over [callbacks] calls: after a once-wrapper has
    removed itself, the listener that followed it is passed over. *)
Fixpoint sweep (skip : bool) (callbacks : list listener) : list listener :=
  match callbacks with
  | [] => []
  | l :: rest =>
      if skip then sweep false rest else l :: sweep (isOnce l) rest
  end.

(** The listeners still registered after the pass. *)
Fixpoint leftover (skip : bool) (callbacks : list listener) : list listener :=
  match callbacks with
  | [] => []
  | l :: rest =>
      if skip then l :: leftover false rest
      else if isOnce l then leftover true rest
      else l :: leftover false rest
  end.

(** Every once-wrapper is a function of its own, registered once. *)
Definition wrappersDistinct (callbacks : list listener) : Prop :=
  NoDup (filter (fun l => isOnce l = true) callbacks).

End EventEmitter.

(** * Properties *)

Lemma num_lt_spec (x y : Q) : num_lt x y = true <-> x < y.
Proof.
  unfold num_lt. rewrite negb_true_iff.
  split.
  - intros H. apply Qnot_le_lt. intros Hle.
    apply Qle_bool_iff in Hle. congruence.
  - intros H. destruct (Qle_bool y x) eqn:E; [|reflexivity].
    apply Qle_bool_iff in E. exfalso. exact (Qlt_not_le _ _ H E).
Qed.

Lemma num_lt_false (x y : Q) : num_lt x y = false <-> y <= x.
Proof.
  unfold num_lt. rewrite negb_false_iff. apply Qle_bool_iff.
Qed.

Lemma num_le_spec (x y : Q) : num_le x y = true <-> x <= y.
Proof. apply Qle_bool_iff. Qed.

Lemma num_le_false (x y : Q) : num_le x y = false <-> y < x.
Proof.
  unfold num_le. split.
  - intros H. apply Qnot_le_lt. intros Hle.
    apply Qle_bool_iff in Hle. congruence.
  - intros H. destruct (Qle_bool x y) eqn:E; [|reflexivity].
    apply Qle_bool_iff in E. exfalso. exact (Qlt_not_le _ _ H E).
Qed.

(** ** Council manager: how answers move the offense count *)

Module CouncilManagerProps.
Import CouncilManager.

Lemma set_has_true (x : string) (s : list string) : set_has x s = true <-> x ∈ s.
Proof. unfold set_has. apply bool_decide_eq_true. Qed.

Lemma set_has_false (x : string) (s : list string) : set_has x s = false <-> x ∉ s.
Proof. unfold set_has. apply bool_decide_eq_false. Qed.

Lemma next_count_negative (count : Z) (score : Q) :
  score < 0 -> next_count count (Number score) = (count + 1)%Z.
Proof.
  intros H. unfold next_count.
  apply num_lt_spec in H. by rewrite H.
Qed.

Lemma next_count_positive (count : Z) (score : Q) :
  0 < score -> (0 < count)%Z -> next_count count (Number score) = (count - 1)%Z.
Proof.
  intros Hs Hc. unfold next_count.
  assert (Hn : num_lt score 0 = false).
  { apply num_lt_false. by apply Qlt_le_weak. }
  apply num_lt_spec in Hs. rewrite Hn, Hs.
  assert (Hb : (0 <? count)%Z = true) by (apply Z.ltb_lt; lia).
  rewrite Hb. simpl. lia.
Qed.

Lemma next_count_positive_floor (count : Z) (score : Q) :
  0 < score -> (count <= 0)%Z -> next_count count (Number score) = count.
Proof.
  intros Hs Hc. unfold next_count.
  assert (Hn : num_lt score 0 = false).
  { apply num_lt_false. by apply Qlt_le_weak. }
  assert (Hb : (0 <? count)%Z = false) by (apply Z.ltb_ge; lia).
  rewrite Hn, Hb. by rewrite andb_false_r.
Qed.

Lemma next_count_zero (count : Z) (score : Q) :
  score == 0 -> next_count count (Number score) = count.
Proof.
  intros Hs. unfold next_count.
  assert (Hn : num_lt score 0 = false).
  { apply num_lt_false. rewrite Hs. apply Qle_refl. }
  assert (Hp : num_lt 0 score = false).
  { apply num_lt_false. rewrite Hs. apply Qle_refl. }
  by rewrite Hn, Hp.
Qed.

Lemma next_count_nonneg (count : Z) (score : scoreValue) :
  (0 <= count)%Z -> (0 <= next_count count score)%Z.
Proof.
  intros H. unfold next_count. destruct score as [v|key]; [|done].
  destruct (num_lt v 0); [lia|].
  destruct (num_lt 0 v && (0 <? count)%Z); lia.
Qed.

Lemma processCouncilReaction_count (offended : list string) (c : council)
    (score : scoreValue) :
  offendedCount (processCouncilReaction offended c score).1
  = next_count (offendedCount c) score.
Proof. reflexivity. Qed.

Lemma processCouncilReaction_offended (offended : list string) (c : council)
    (score : scoreValue) :
  r_offended (processCouncilReaction offended c score).2
  = reached_tolerance (next_count (offendedCount c) score) (tolerance c).
Proof. reflexivity. Qed.

Lemma reached_tolerance_at (count : Z) (t : Q) :
  inject_Z count == t -> reached_tolerance count (Some t) = true.
Proof.
  intros Heq. simpl. apply num_le_spec. rewrite Heq. apply Qle_refl.
Qed.

(** *** The offended set across [processAnswer] *)

Lemma processEntry_extends (q : question) (a : answer) (acc : loop_acc)
    (entry : string * gmap string Q) :
  exists new, extends_by acc (processEntry q a acc entry) new.
Proof.
  destruct entry as [cid rm]. unfold processEntry.
  destruct (acc_councils acc !! cid) as [c|] eqn:Hc.
  - destruct (processCouncilReaction (acc_offended acc) c (reaction_score q a rm))
      as [c1 r] eqn:Hr.
    destruct (r_offended r && negb (set_has cid (acc_offended acc))) eqn:Hf; simpl.
    + apply andb_true_iff in Hf as [_ Hn].
      apply negb_true_iff in Hn.
      exists [cid]. unfold extends_by; simpl.
      unfold set_add. rewrite Hn.
      repeat split; [apply NoDup_singleton|].
      intros x Hx. apply list_elem_of_singleton in Hx. subst x.
      by apply set_has_false.
    + exists []. unfold extends_by; simpl.
      rewrite !app_nil_r. repeat split; [apply NoDup_nil_2|].
      intros x Hx. by apply not_elem_of_nil in Hx.
  - exists []. unfold extends_by.
    rewrite !app_nil_r. repeat split; [apply NoDup_nil_2|].
    intros x Hx. by apply not_elem_of_nil in Hx.
Qed.

Lemma extends_by_trans (a1 a2 a3 : loop_acc) (n1 n2 : list string) :
  extends_by a1 a2 n1 -> extends_by a2 a3 n2 -> extends_by a1 a3 (n1 ++ n2).
Proof.
  intros (Ho1 & Hn1 & Hd1 & Hf1) (Ho2 & Hn2 & Hd2 & Hf2).
  unfold extends_by.
  rewrite Ho2, Ho1, Hn2, Hn1, !app_assoc.
  repeat split.
  - apply NoDup_app. repeat split; [done| |done].
    intros x Hx1 Hx2. apply (Hf2 x Hx2). rewrite Ho1.
    apply elem_of_app. by right.
  - intros x Hx. apply elem_of_app in Hx as [Hx|Hx]; [by apply Hf1|].
    intros Hin. apply (Hf2 x Hx). rewrite Ho1. apply elem_of_app. by left.
Qed.

Lemma fold_processEntry_extends (q : question) (a : answer)
    (entries : list (string * gmap string Q)) (acc : loop_acc) :
  exists new, extends_by acc (fold_left (processEntry q a) entries acc) new.
Proof.
  revert acc. induction entries as [|e entries IH]; intros acc; simpl.
  - exists []. unfold extends_by. rewrite !app_nil_r.
    repeat split; [apply NoDup_nil_2|].
    intros x Hx. by apply not_elem_of_nil in Hx.
  - destruct (processEntry_extends q a acc e) as [n1 H1].
    destruct (IH (processEntry q a acc e)) as [n2 H2].
    exists (n1 ++ n2). by eapply extends_by_trans.
Qed.

(** [processAnswer] appends exactly the ids it returns to the offended set;
    the returned ids are pairwise distinct and were not offended before. *)
Lemma processAnswer_appends (st : state) (q : question) (a : answer) :
  offendedCouncils (processAnswer st q a).2
    = offendedCouncils st ++ (processAnswer st q a).1 /\
  NoDup (processAnswer st q a).1 /\
  (forall x, x ∈ (processAnswer st q a).1 -> x ∉ offendedCouncils st).
Proof.
  unfold processAnswer. destruct (q_councils q) as [entries|]; simpl.
  - destruct (fold_processEntry_extends q a entries
                {| acc_councils := councils st;
                   acc_offended := offendedCouncils st;
                   acc_reactions := [];
                   acc_newly := [] |}) as [new (Ho & Hn & Hd & Hf)].
    simpl in *. rewrite Hn, Ho. auto.
  - rewrite app_nil_r. repeat split; [apply NoDup_nil_2|].
    intros x Hx. by apply not_elem_of_nil in Hx.
Qed.

Lemma runAnswers_cons (st : state) (q : question) (a : answer)
    (rest : list (question * answer)) :
  runAnswers st ((q, a) :: rest)
  = ((processAnswer st q a).1 :: (runAnswers (processAnswer st q a).2 rest).1,
     (runAnswers (processAnswer st q a).2 rest).2).
Proof.
  simpl. destruct (processAnswer st q a) as [newly st1]. simpl.
  by destruct (runAnswers st1 rest).
Qed.

(** Over a whole session the offended set is the initial one followed by
    everything the calls reported, in order. *)
Lemma runAnswers_appends (calls : list (question * answer)) (st : state) :
  offendedCouncils (runAnswers st calls).2
    = offendedCouncils st ++ concat (runAnswers st calls).1 /\
  NoDup (concat (runAnswers st calls).1) /\
  (forall x, x ∈ concat (runAnswers st calls).1 -> x ∉ offendedCouncils st).
Proof.
  revert st. induction calls as [|[q a] rest IH]; intros st.
  - simpl. rewrite app_nil_r. repeat split; [apply NoDup_nil_2|].
    intros x Hx. by apply not_elem_of_nil in Hx.
  - rewrite runAnswers_cons. simpl.
    destruct (processAnswer_appends st q a) as (Ho & Hd & Hf).
    destruct (IH (processAnswer st q a).2) as (Ho' & Hd' & Hf').
    rewrite Ho', Ho, app_assoc. repeat split.
    + apply NoDup_app. repeat split; [done| |done].
      intros x Hx1 Hx2. apply (Hf' x Hx2). rewrite Ho.
      apply elem_of_app. by right.
    + intros x Hx. apply elem_of_app in Hx as [Hx|Hx]; [by apply Hf|].
      intros Hin. apply (Hf' x Hx). rewrite Ho. apply elem_of_app. by left.
Qed.

(** *** The offended set and the tolerance test *)

Lemma processEntry_found (q : question) (a : answer) (acc : loop_acc)
    (cid : string) (rm : gmap string Q) (c : council) :
  acc_councils acc !! cid = Some c ->
  let count' := next_count (offendedCount c) (reaction_score q a rm) in
  let now := reached_tolerance count' (tolerance c) in
  let fresh := now && negb (set_has cid (acc_offended acc)) in
  (exists c', acc_councils (processEntry q a acc (cid, rm))
              = <[cid := c']> (acc_councils acc) /\
              offendedCount c' = count' /\ tolerance c' = tolerance c) /\
  acc_offended (processEntry q a acc (cid, rm))
    = (if fresh then acc_offended acc ++ [cid] else acc_offended acc) /\
  acc_newly (processEntry q a acc (cid, rm))
    = (if fresh then acc_newly acc ++ [cid] else acc_newly acc).
Proof.
  intros Hc. unfold processEntry. rewrite Hc. simpl.
  destruct (reached_tolerance (next_count (offendedCount c) (reaction_score q a rm))
              (tolerance c) && negb (set_has cid (acc_offended acc))) eqn:Hf; simpl.
  - split; [by eexists|].
    apply andb_true_iff in Hf as [_ Hn]. apply negb_true_iff in Hn.
    unfold set_add. by rewrite Hn.
  - split; [by eexists|done].
Qed.

Lemma processEntry_keeps_recorded (q : question) (a : answer) (acc : loop_acc)
    (entry : string * gmap string Q) :
  tolerance_recorded (acc_councils acc) (acc_offended acc) ->
  tolerance_recorded (acc_councils (processEntry q a acc entry))
    (acc_offended (processEntry q a acc entry)).
Proof.
  intros Hinv. destruct entry as [cid rm].
  destruct (acc_councils acc !! cid) as [c|] eqn:Hc.
  - destruct (processEntry_found q a acc cid rm c Hc)
      as ((c' & Hm & Hcount & Htol) & Ho & _).
    rewrite Hm, Ho. intros k d Hk Hr.
    destruct (decide (cid = k)) as [<-|Hne].
    + rewrite lookup_insert_eq in Hk. injection Hk as <-.
      rewrite Hcount, Htol in Hr. rewrite Hr. simpl.
      destruct (set_has cid (acc_offended acc)) eqn:Hs; simpl.
      * by apply set_has_true.
      * apply elem_of_app. right. by apply list_elem_of_singleton.
    + rewrite lookup_insert_ne in Hk by done.
      specialize (Hinv k d Hk Hr).
      destruct (_ && _); [|done]. apply elem_of_app. by left.
  - unfold processEntry. by rewrite Hc.
Qed.

(** A council that an iteration adds to [newlyOffended] had not reached its
    tolerance before the iteration and has reached it after. *)
Lemma processEntry_reports_crossing (q : question) (a : answer) (acc : loop_acc)
    (cid : string) (rm : gmap string Q) :
  tolerance_recorded (acc_councils acc) (acc_offended acc) ->
  acc_newly (processEntry q a acc (cid, rm)) ≠ acc_newly acc ->
  exists c c',
    acc_councils acc !! cid = Some c /\
    acc_councils (processEntry q a acc (cid, rm)) !! cid = Some c' /\
    reached_tolerance (offendedCount c) (tolerance c) = false /\
    reached_tolerance (offendedCount c') (tolerance c') = true /\
    acc_newly (processEntry q a acc (cid, rm)) = acc_newly acc ++ [cid].
Proof.
  intros Hinv Hchange.
  destruct (acc_councils acc !! cid) as [c|] eqn:Hc.
  - destruct (processEntry_found q a acc cid rm c Hc)
      as ((c' & Hm & Hcount & Htol) & _ & Hn).
    rewrite Hn in Hchange |- *.
    destruct (reached_tolerance _ _ && _) eqn:Hf; [|done].
    apply andb_true_iff in Hf as [Hnow Hnot].
    apply negb_true_iff, set_has_false in Hnot.
    exists c, c'. rewrite Hm, lookup_insert_eq, Hcount, Htol.
    repeat split; try done.
    destruct (reached_tolerance (offendedCount c) (tolerance c)) eqn:Hb; [|done].
    by specialize (Hinv cid c Hc Hb).
  - exfalso. apply Hchange. unfold processEntry. by rewrite Hc.
Qed.

Lemma processAnswer_keeps_recorded (st : state) (q : question) (a : answer) :
  tolerance_recorded (councils st) (offendedCouncils st) ->
  tolerance_recorded (councils (processAnswer st q a).2)
    (offendedCouncils (processAnswer st q a).2).
Proof.
  unfold processAnswer. destruct (q_councils q) as [entries|]; [|done]. simpl.
  set (acc0 := {| acc_councils := councils st;
                  acc_offended := offendedCouncils st;
                  acc_reactions := [];
                  acc_newly := [] |}).
  change (councils st) with (acc_councils acc0).
  change (offendedCouncils st) with (acc_offended acc0).
  generalize acc0. clear acc0.
  induction entries as [|e entries IH]; intros acc Hinv; [done|].
  simpl. apply IH. by apply processEntry_keeps_recorded.
Qed.

(** The built-in councils start below their tolerances. *)
Lemma initial_recorded : tolerance_recorded (councils initial) (offendedCouncils initial).
Proof. apply (bool_decide_unpack _). vm_compute. exact I. Qed.

(** *** One council across a call *)

Lemma processEntry_other (q : question) (a : answer) (acc : loop_acc)
    (cid : string) (rm : gmap string Q) (k : string) :
  k <> cid ->
  acc_councils (processEntry q a acc (cid, rm)) !! k = acc_councils acc !! k /\
  (k ∈ acc_offended (processEntry q a acc (cid, rm)) <-> k ∈ acc_offended acc) /\
  (k ∈ acc_newly (processEntry q a acc (cid, rm)) <-> k ∈ acc_newly acc).
Proof.
  intros Hne.
  destruct (acc_councils acc !! cid) as [c|] eqn:Hc.
  - destruct (processEntry_found q a acc cid rm c Hc)
      as ((c' & Hm & _) & Ho & Hn).
    rewrite Hm, Ho, Hn, lookup_insert_ne by done.
    split; [done|].
    destruct (_ && _); [|done].
    rewrite !elem_of_app, !list_elem_of_singleton. tauto.
  - unfold processEntry. by rewrite Hc.
Qed.

Lemma fold_processEntry_other (q : question) (a : answer) (k : string)
    (entries : list (string * gmap string Q)) :
  k ∉ entries.*1 ->
  forall acc,
    acc_councils (fold_left (processEntry q a) entries acc) !! k
      = acc_councils acc !! k /\
    (k ∈ acc_offended (fold_left (processEntry q a) entries acc)
       <-> k ∈ acc_offended acc) /\
    (k ∈ acc_newly (fold_left (processEntry q a) entries acc)
       <-> k ∈ acc_newly acc).
Proof.
  induction entries as [|[cid rm] entries IH]; intros Hk acc; [done|].
  rewrite fmap_cons in Hk. cbn [fold_left fst] in *.
  apply not_elem_of_cons in Hk as [Hne Hk].
  destruct (IH Hk (processEntry q a acc (cid, rm))) as (Hc & Ho & Hn).
  destruct (processEntry_other q a acc cid rm k Hne) as (Hc' & Ho' & Hn').
  rewrite Hc, Ho, Hn. done.
Qed.

Lemma fold_processEntry_unknown (q : question) (a : answer) (k : string)
    (entries : list (string * gmap string Q)) :
  forall acc,
    acc_councils acc !! k = None ->
    (k ∈ acc_newly (fold_left (processEntry q a) entries acc)
       <-> k ∈ acc_newly acc).
Proof.
  induction entries as [|[cid rm] entries IH]; intros acc Hnone; [done|].
  cbn [fold_left]. destruct (decide (k = cid)) as [->|Hne].
  - assert (Hsame : processEntry q a acc (cid, rm) = acc)
      by (unfold processEntry; by rewrite Hnone).
    rewrite Hsame. by apply IH.
  - destruct (processEntry_other q a acc cid rm k Hne) as (Hc & _ & Hn).
    rewrite IH by (by rewrite Hc). done.
Qed.

(** With the keys of the question's [councils] object distinct, as the keys
    of an object are, a known council that the question names goes through
    one iteration: its count is updated once from the score of its reaction
    map, and it is reported exactly when the updated count has reached its
    tolerance and it was not in the offended set. *)
Lemma fold_processEntry_named (q : question) (a : answer) (k : string)
    (rm : gmap string Q) (entries : list (string * gmap string Q)) :
  NoDup entries.*1 ->
  (k, rm) ∈ entries ->
  forall acc c,
    acc_councils acc !! k = Some c ->
    k ∉ acc_newly acc ->
    (exists c',
       acc_councils (fold_left (processEntry q a) entries acc) !! k = Some c' /\
       offendedCount c' = next_count (offendedCount c) (reaction_score q a rm) /\
       tolerance c' = tolerance c) /\
    (k ∈ acc_newly (fold_left (processEntry q a) entries acc) <->
     reached_tolerance (next_count (offendedCount c) (reaction_score q a rm))
       (tolerance c) = true /\ (k ∉ acc_offended acc)).
Proof.
  induction entries as [|[cid rm'] entries IH]; intros Hnd Hin acc c Hc Hfresh.
  { by apply elem_of_nil in Hin. }
  rewrite fmap_cons in Hnd. cbn [fst] in Hnd.
  apply NoDup_cons in Hnd as [Hhead Hnd]. cbn [fold_left].
  destruct (decide (k = cid)) as [->|Hne].
  - assert (rm' = rm) as ->.
    { apply elem_of_cons in Hin as [[= ->]|Hin]; [done|].
      exfalso. apply Hhead. apply list_elem_of_fmap. by exists (cid, rm). }
    destruct (fold_processEntry_other q a cid entries Hhead
                (processEntry q a acc (cid, rm))) as (Hc' & _ & Hn').
    destruct (processEntry_found q a acc cid rm c Hc)
      as ((c' & Hm & Hcount & Htol) & _ & Hn).
    rewrite Hc', Hn', Hm, lookup_insert_eq, Hn. split; [by exists c'|].
    destruct (reached_tolerance _ _) eqn:Hr; simpl.
    + destruct (set_has cid (acc_offended acc)) eqn:Hs; simpl.
      * apply set_has_true in Hs. split; [done|]. by intros [_ ?].
      * apply set_has_false in Hs. split; [done|].
        intros _. apply elem_of_app. right. by apply list_elem_of_singleton.
    + split; [done|]. by intros [? _].
  - assert (Hin' : (k, rm) ∈ entries).
    { apply elem_of_cons in Hin as [[= -> ->]|Hin]; done. }
    destruct (processEntry_other q a acc cid rm' k Hne) as (Hc' & Ho' & Hn').
    destruct (IH Hnd Hin' (processEntry q a acc (cid, rm')) c) as [Hcount Hrep].
    + by rewrite Hc'.
    + by rewrite Hn'.
    + split; [done|]. by rewrite Hrep, Ho'.
Qed.

(** The same for a whole call. *)
Lemma processAnswer_reports (st : state) (q : question) (a : answer) (k : string) :
  NoDup (default [] (q_councils q)).*1 ->
  k ∈ (processAnswer st q a).1 <->
  (k ∉ offendedCouncils st) /\
  exists rm c,
    (k, rm) ∈ default [] (q_councils q) /\
    councils st !! k = Some c /\
    reached_tolerance (next_count (offendedCount c) (reaction_score q a rm))
      (tolerance c) = true.
Proof.
  intros Hnd. unfold processAnswer.
  destruct (q_councils q) as [entries|]; simpl in *.
  2:{ split; [by intros ?%elem_of_nil|]. by intros (_ & rm & c & ?%elem_of_nil & _). }
  set (acc0 := {| acc_councils := councils st;
                  acc_offended := offendedCouncils st;
                  acc_reactions := [];
                  acc_newly := [] |}).
  destruct (decide (k ∈ entries.*1)) as [Hk|Hk].
  - apply list_elem_of_fmap in Hk as ([k' rm] & -> & Hin). simpl.
    destruct (councils st !! k') as [c|] eqn:Hc.
    + destruct (fold_processEntry_named q a k' rm entries Hnd Hin acc0 c Hc)
        as [_ Hrep]; [by intros ?%elem_of_nil|].
      rewrite Hrep. simpl. split.
      * intros [Hr Hn]. split; [done|]. by exists rm, c.
      * intros (Hn & rm2 & c2 & Hin2 & [= <-] & Hr). split; [|done].
        assert (rm2 = rm) as ->; [|done].
        clear -Hnd Hin Hin2. induction entries as [|[x y] entries IH].
        { by apply elem_of_nil in Hin. }
        simpl in Hnd. apply NoDup_cons in Hnd as [Hh Hnd].
        apply elem_of_cons in Hin as [[= <- <-]|Hin];
          apply elem_of_cons in Hin2 as [[= ->]|Hin2]; try done.
        -- exfalso. apply Hh, list_elem_of_fmap. by exists (k', rm2).
        -- exfalso. apply Hh, list_elem_of_fmap. subst. by exists (x, rm).
        -- by apply IH.
    + rewrite (fold_processEntry_unknown q a k' entries acc0 Hc). simpl.
      split; [by intros ?%elem_of_nil|]. by intros (_ & rm2 & c2 & _ & ? & _).
  - destruct (fold_processEntry_other q a k entries Hk acc0) as (_ & _ & Hn).
    rewrite Hn. simpl. split; [by intros ?%elem_of_nil|].
    intros (_ & rm & c & Hin & _). exfalso. apply Hk.
    apply list_elem_of_fmap. by exists (k, rm).
Qed.

(** The council a question names, after the call. *)
Lemma processAnswer_named (st : state) (q : question) (a : answer) (k : string)
    (rm : gmap string Q) (c : council) :
  NoDup (default [] (q_councils q)).*1 ->
  (k, rm) ∈ default [] (q_councils q) ->
  councils st !! k = Some c ->
  exists c',
    councils (processAnswer st q a).2 !! k = Some c' /\
    offendedCount c' = next_count (offendedCount c) (reaction_score q a rm) /\
    tolerance c' = tolerance c.
Proof.
  intros Hnd Hin Hc. unfold processAnswer.
  destruct (q_councils q) as [entries|]; simpl in *;
    [|by apply elem_of_nil in Hin].
  destruct (fold_processEntry_named q a k rm entries Hnd Hin
              {| acc_councils := councils st;
                 acc_offended := offendedCouncils st;
                 acc_reactions := [];
                 acc_newly := [] |} c Hc) as [Hcount _]; [|done].
  by intros ?%elem_of_nil.
Qed.

(** A council the question does not name, after the call. *)
Lemma processAnswer_unnamed (st : state) (q : question) (a : answer) (k : string) :
  k ∉ (default [] (q_councils q)).*1 ->
  councils (processAnswer st q a).2 !! k = councils st !! k.
Proof.
  intros Hk. unfold processAnswer.
  destruct (q_councils q) as [entries|]; simpl in *; [|done].
  by destruct (fold_processEntry_other q a k entries Hk
                 {| acc_councils := councils st;
                    acc_offended := offendedCouncils st;
                    acc_reactions := [];
                    acc_newly := [] |}) as (Hc & _).
Qed.

End CouncilManagerProps.

(** ** Council manager: reporting and thresholds *)

Module CouncilManagerSpec.
Import CouncilManager CouncilManagerProps.

(** The question manager scores an answer by its correctness: an incorrect
    answer to a question with a council gets minus the question's points (1
    when they are missing or 0), a negative score when the points are not
    negative. *)
Lemma incorrect_answer_scores_negative (q : question) (a : answer) (c : string) :
  q_council q = Some c -> truthy_str (Some c) = true ->
  QuestionManager.isCorrect q a = false ->
  (forall p, q_heresyPoints q = Some p -> 0 <= p) ->
  exists r,
    QuestionManager.calculateCouncilReactions q a = [(c, r)] /\
    QuestionManager.cr_score r == - num_or (q_heresyPoints q) 1 /\
    QuestionManager.cr_score r < 0.
Proof.
  intros Hc Ht Hi Hp. unfold QuestionManager.calculateCouncilReactions.
  rewrite Hc, Ht, Hi. eexists. split; [reflexivity|]. simpl.
  assert (Hpos : 0 < num_or (q_heresyPoints q) 1).
  { unfold num_or. destruct (q_heresyPoints q) as [p|]; [|reflexivity].
    specialize (Hp p eq_refl).
    destruct (num_is_zero p) eqn:Ez; [reflexivity|].
    unfold num_is_zero in Ez.
    apply Qle_lteq in Hp as [Hlt|Heq]; [done|].
    symmetry in Heq. apply Qeq_bool_iff in Heq. congruence. }
  split; [ring|]. lra.
Qed.

(** C2, as stated, fails.  The built-in question [builtin_002] carries 2
    heresy points and names its council in [council]; it has no [councils]
    map, so the wrong answer to it leaves the council manager as it was.  For
    a question that has the map ([scienceQuestion 2], 2 points, the wrong
    answer costing 2), the wrong answer moves the council's count from 0 to
    1, not to 2, and the right answer then moves it back from 1 to 0: the
    credit has the size of the penalty, not a smaller one. *)
Lemma offense_points_counterexample :
  (q_heresyPoints QuestionManager.builtin_002 = Some 2 /\
   QuestionManager.isCorrect QuestionManager.builtin_002 (AStr "No") = false /\
   processAnswer initial QuestionManager.builtin_002 (AStr "No") = ([], initial)) /\
  (q_heresyPoints (scienceQuestion 2) = Some 2 /\
   QuestionManager.isCorrect (scienceQuestion 2) (ABool false) = false /\
   offendedCount <$> (councils initial !! "scientific-community"%string)
     = Some 0%Z /\
   offendedCount <$>
     (councils (processAnswer initial (scienceQuestion 2) (ABool false)).2
        !! "scientific-community"%string) = Some 1%Z /\
   (1 <> 0 + 2)%Z) /\
  (QuestionManager.isCorrect (scienceQuestion 2) (ABool true) = true /\
   offendedCount <$>
     (councils (runAnswers initial
                  [(scienceQuestion 2, ABool false);
                   (scienceQuestion 2, ABool true)]).2
        !! "scientific-community"%string) = Some 0%Z).
Proof.
  split; [|split].
  - split; [reflexivity|]. split; [|reflexivity].
    apply (bool_decide_unpack _). vm_compute. exact I.
  - split; [reflexivity|]. split.
    { apply (bool_decide_unpack _). vm_compute. exact I. }
    split; [vm_compute; reflexivity|]. split; [vm_compute; reflexivity|lia].
  - split; vm_compute; reflexivity.
Qed.

(** C2, amended: a negative reaction score raises the council's
    [offendedCount] by exactly 1 whatever the size of the score, a positive
    score lowers a positive count by exactly 1 and leaves a count of 0 (or
    below) alone, a zero score and a score that is not a number change
    nothing, and a count that is not negative stays so. *)
Theorem offense_count_moves_by_one (offended : list string) (c : council)
    (score : Q) (key : string) :
  (score < 0 ->
     offendedCount (processCouncilReaction offended c (Number score)).1
     = (offendedCount c + 1)%Z) /\
  (0 < score -> (0 < offendedCount c)%Z ->
     offendedCount (processCouncilReaction offended c (Number score)).1
     = (offendedCount c - 1)%Z) /\
  (0 < score -> (offendedCount c <= 0)%Z ->
     offendedCount (processCouncilReaction offended c (Number score)).1
     = offendedCount c) /\
  (score == 0 ->
     offendedCount (processCouncilReaction offended c (Number score)).1
     = offendedCount c) /\
  offendedCount (processCouncilReaction offended c (Inherited key)).1
    = offendedCount c /\
  ((0 <= offendedCount c)%Z ->
     forall any : scoreValue,
       (0 <= offendedCount (processCouncilReaction offended c any).1)%Z).
Proof.
  rewrite !processCouncilReaction_count.
  split; [apply next_count_negative|].
  split; [apply next_count_positive|].
  split; [apply next_count_positive_floor|].
  split; [apply next_count_zero|].
  split; [reflexivity|].
  intros Hc any. rewrite processCouncilReaction_count.
  by apply next_count_nonneg.
Qed.

Lemma offense_count_moves_by_one_witness :
  offendedCount (processCouncilReaction [] (reformation 2) (Number (-3))).1 = 3%Z /\
  offendedCount (processCouncilReaction [] (reformation 2) (Number 3)).1 = 1%Z /\
  offendedCount (processCouncilReaction [] (reformation 0) (Number 3)).1 = 0%Z /\
  (0 <= offendedCount
          (processCouncilReaction [] (reformation 0) (Inherited "toString")).1)%Z.
Proof.
  destruct (offense_count_moves_by_one [] (reformation 2) (-3) "toString")
    as (Hneg & _).
  destruct (offense_count_moves_by_one [] (reformation 2) 3 "toString")
    as (_ & Hpos & _).
  destruct (offense_count_moves_by_one [] (reformation 0) 3 "toString")
    as (_ & _ & Hfloor & _ & _ & Hnonneg).
  split; [|split; [|split]].
  - apply Hneg. reflexivity.
  - apply Hpos; reflexivity.
  - apply Hfloor; [reflexivity|simpl; lia].
  - apply Hnonneg. simpl. lia.
Defined.

(** What [processAnswer] does to the count of a council the question names:
    the step of [processCouncilReaction] at the score the council's reaction
    map gives for the answer. *)
Lemma processAnswer_count (st : state) (q : question) (a : answer) (k : string)
    (rm : gmap string Q) (c : council) (offended : list string) :
  NoDup (default [] (q_councils q)).*1 ->
  (k, rm) ∈ default [] (q_councils q) ->
  councils st !! k = Some c ->
  offendedCount <$> (councils (processAnswer st q a).2 !! k)
  = Some (offendedCount
            (processCouncilReaction offended c (reaction_score q a rm)).1).
Proof.
  intros Hnd Hin Hc.
  destruct (processAnswer_named st q a k rm c Hnd Hin Hc)
    as (c' & Hc' & Hcount & _).
  rewrite Hc', processCouncilReaction_count. simpl. by rewrite Hcount.
Qed.

(** C4, as stated, fails: the only council of [intolerantManager] has
    tolerance 0, so its count of 0 has reached the tolerance before any
    answer; the agreeing answer leaves the count at 0, and the call returns
    the council all the same, because it was not in the offended set.  The
    status does not go from not offended to offended on that call. *)
Lemma reported_without_crossing :
  exists c c',
    councils intolerantManager !! "inquisition"%string = Some c /\
    reached_tolerance (offendedCount c) (tolerance c) = true /\
    (processAnswer intolerantManager intolerantQuestion (ABool true)).1
      = ["inquisition"%string] /\
    councils (processAnswer intolerantManager intolerantQuestion (ABool true)).2
      !! "inquisition"%string = Some c' /\
    offendedCount c' = offendedCount c.
Proof.
  eexists. eexists. split; [vm_compute; reflexivity|].
  split; [reflexivity|]. split; [vm_compute; reflexivity|].
  split; [vm_compute; reflexivity|reflexivity].
Qed.

(** C4, amended.  Take a manager in which every council whose count has
    reached its tolerance is in the offended set (so it is from construction
    when every tolerance is positive, and every call keeps it so), and a
    question whose [councils] object has distinct keys, as the keys of an
    object are.  Then a council is in the list the call returns exactly
    when it was not in the offended set and its count goes from below its
    tolerance before the call to at or above it after the call; that is
    exactly when the call adds it to the offended set; the list names no
    council twice; and a council that is in the offended set after the call,
    or whose count has reached its tolerance then, is in no list returned by
    any sequence of later calls, whatever those calls do to its count. *)
Theorem offended_reported_once (st : state) (q : question) (a : answer)
    (later : list (question * answer)) (k : string) :
  tolerance_recorded (councils st) (offendedCouncils st) ->
  NoDup (default [] (q_councils q)).*1 ->
  (k ∈ (processAnswer st q a).1 <->
     (k ∉ offendedCouncils st) /\
     exists c c',
       councils st !! k = Some c /\
       councils (processAnswer st q a).2 !! k = Some c' /\
       reached_tolerance (offendedCount c) (tolerance c) = false /\
       reached_tolerance (offendedCount c') (tolerance c') = true) /\
  (k ∈ (processAnswer st q a).1 <->
     ((k ∉ offendedCouncils st) /\ k ∈ offendedCouncils (processAnswer st q a).2)) /\
  NoDup (processAnswer st q a).1 /\
  tolerance_recorded (councils (processAnswer st q a).2)
    (offendedCouncils (processAnswer st q a).2) /\
  (k ∈ offendedCouncils (processAnswer st q a).2 ->
     k ∉ concat (runAnswers (processAnswer st q a).2 later).1) /\
  (forall c',
     councils (processAnswer st q a).2 !! k = Some c' ->
     reached_tolerance (offendedCount c') (tolerance c') = true ->
     k ∉ concat (runAnswers (processAnswer st q a).2 later).1).
Proof.
  intros Hinv Hnd.
  destruct (processAnswer_appends st q a) as (Ho & Hd & Hf).
  destruct (runAnswers_appends later (processAnswer st q a).2) as (_ & _ & Hl).
  pose proof (processAnswer_keeps_recorded st q a Hinv) as Hinv'.
  split; [|split; [|split; [done|split; [done|split]]]].
  - rewrite (processAnswer_reports st q a k Hnd). split.
    + intros (Hn & rm & c & Hin & Hc & Hr). split; [done|].
      destruct (processAnswer_named st q a k rm c Hnd Hin Hc)
        as (c' & Hc' & Hcount & Htol).
      exists c, c'. rewrite Hcount, Htol. repeat split; try done.
      destruct (reached_tolerance (offendedCount c) (tolerance c)) eqn:Hb; [|done].
      by specialize (Hinv k c Hc Hb).
    + intros (Hn & c & c' & Hc & Hc' & Hb & Hb'). split; [done|].
      destruct (decide (k ∈ (default [] (q_councils q)).*1)) as [Hk|Hk].
      * apply list_elem_of_fmap in Hk as ([k' rm] & -> & Hin). simpl in *.
        exists rm, c. split; [done|]. split; [done|].
        destruct (processAnswer_named st q a k' rm c Hnd Hin Hc)
          as (c2 & Hc2 & Hcount & Htol).
        rewrite Hc' in Hc2. injection Hc2 as <-.
        by rewrite <- Hcount, <- Htol.
      * rewrite (processAnswer_unnamed st q a k Hk), Hc in Hc'.
        injection Hc' as <-. congruence.
  - rewrite Ho. split.
    + intros Hx. split; [by apply Hf|]. apply elem_of_app. by right.
    + intros [Hn Hx]. apply elem_of_app in Hx as [Hx|Hx]; [done|done].
  - intros Hx Hin. exact (Hl k Hin Hx).
  - intros c' Hc' Hb Hin. exact (Hl k Hin (Hinv' k c' Hc' Hb)).
Qed.

Lemma offended_reported_once_witness :
  "scientific-community"%string ∈ (processAnswer initial (scienceQuestion 3) (ABool false)).1 /\
  "scientific-community"%string ∉
    concat (runAnswers (processAnswer initial (scienceQuestion 3) (ABool false)).2
              [(scienceQuestion 3, ABool true); (scienceQuestion 3, ABool false)]).1.
Proof.
  destruct (offended_reported_once initial (scienceQuestion 3) (ABool false)
              [(scienceQuestion 3, ABool true); (scienceQuestion 3, ABool false)]
              "scientific-community"%string) as (_ & H1 & _ & _ & H2 & _).
  - apply (bool_decide_unpack _). vm_compute. exact I.
  - apply (bool_decide_unpack _). vm_compute. exact I.
  - split.
    + apply H1. split.
      * apply (bool_decide_unpack _). vm_compute. exact I.
      * apply (bool_decide_unpack _). vm_compute. exact I.
    + apply H2. apply (bool_decide_unpack _). vm_compute. exact I.
Defined.

(** The session of the witness in full: the Scientific Community (tolerance
    1) is reported by the first wrong answer; the right answer brings its
    count back to 0, the next wrong answer crosses the tolerance again, and
    neither later call reports it. *)
Example second_crossing_is_silent :
  (runAnswers initial
     [(scienceQuestion 3, ABool false);
      (scienceQuestion 3, ABool true);
      (scienceQuestion 3, ABool false)]).1
  = [["scientific-community"%string]; []; []] /\
  offendedCount <$>
    (councils (runAnswers initial
                 [(scienceQuestion 3, ABool false);
                  (scienceQuestion 3, ABool true)]).2
       !! "scientific-community"%string) = Some 0%Z.
Proof. split; vm_compute; reflexivity. Qed.



(** The same at the level of [processAnswer]'s loop: a council whose count
    reaches its tolerance exactly is in the offended set after the
    iteration. *)
Lemma processEntry_inclusive (q : question) (a : answer) (acc : loop_acc)
    (cid : string) (rm : gmap string Q) (c : council) (t : Q) :
  acc_councils acc !! cid = Some c ->
  tolerance c = Some t ->
  inject_Z (next_count (offendedCount c) (reaction_score q a rm)) == t ->
  cid ∈ acc_offended (processEntry q a acc (cid, rm)).
Proof.
  intros Hc Ht Heq. unfold processEntry. rewrite Hc.
  destruct (processCouncilReaction (acc_offended acc) c (reaction_score q a rm))
    as [c1 r] eqn:Hr.
  assert (Hoff : r_offended r = true).
  { replace r with (processCouncilReaction (acc_offended acc) c
                      (reaction_score q a rm)).2 by (by rewrite Hr).
    rewrite processCouncilReaction_offended, Ht.
    by apply reached_tolerance_at. }
  rewrite Hoff. simpl.
  destruct (set_has cid (acc_offended acc)) eqn:Hs; simpl.
  - by apply set_has_true.
  - unfold set_add. rewrite Hs. apply elem_of_app. right.
    by apply list_elem_of_singleton.
Qed.

(** C8: the offended set after a [processAnswer] call, and after any
    sequence of calls, starts with the offended set before it, so no council
    ever leaves it, whatever happens to the counts; [reset] empties it. *)
Theorem offended_set_only_grows (st : state) (q : question) (a : answer)
    (calls : list (question * answer)) :
  offendedCouncils st `prefix_of` offendedCouncils (processAnswer st q a).2 /\
  offendedCouncils st `prefix_of` offendedCouncils (runAnswers st calls).2 /\
  offendedCouncils (reset st) = [].
Proof.
  split; [|split; [|reflexivity]].
  - destruct (processAnswer_appends st q a) as (Ho & _ & _).
    rewrite Ho. by eexists.
  - destruct (runAnswers_appends calls st) as (Ho & _ & _).
    rewrite Ho. by eexists.
Qed.

(** Membership form: an offended council stays offended across any calls,
    even when its count has dropped below its tolerance. *)
Lemma offended_stays_offended (st : state) (calls : list (question * answer))
    (x : string) :
  x ∈ offendedCouncils st -> x ∈ offendedCouncils (runAnswers st calls).2.
Proof.
  intros Hx.
  destruct (runAnswers_appends calls st) as (Ho & _ & _).
  rewrite Ho. apply elem_of_app. by left.
Qed.

End CouncilManagerSpec.

(** ** Verdict calculator *)

Module VerdictCalculatorProps.
Import VerdictCalculator.



Lemma Math_max_compat (x y y' : Q) : y == y' -> Math_max x y == Math_max x y'.
Proof.
  intros H. unfold Math_max.
  destruct (Qle_bool x y) eqn:E, (Qle_bool x y') eqn:E'; try done.
  - apply Qle_bool_iff in E. rewrite H in E. apply Qle_bool_iff in E. congruence.
  - apply Qle_bool_iff in E'. rewrite <- H in E'. apply Qle_bool_iff in E'. congruence.
Qed.

(** The multiplier goes by the severity label, unless the label is a name
    every object inherits. *)
Lemma multiplier_by_severity (c : councilInfo) :
  inherited_name (severityOf c) = false ->
  multiplier c = Number (labelMultiplier (severityOf c)).
Proof.
  intros Hown. unfold multiplier, severityMultipliers, labelMultiplier.
  destruct (String.eqb (severityOf c) "low"); [reflexivity|].
  destruct (String.eqb (severityOf c) "medium"); [reflexivity|].
  destruct (String.eqb (severityOf c) "high"); [reflexivity|].
  destruct (String.eqb (severityOf c) "severe"); [reflexivity|].
  by rewrite Hown.
Qed.

Lemma multiplier_inherited (c : councilInfo) :
  inherited_name (severityOf c) = true ->
  multiplier c = Inherited (severityOf c).
Proof.
  intros Hin. unfold multiplier, severityMultipliers.
  destruct (String.eqb (severityOf c) "low") eqn:E1.
  { apply String.eqb_eq in E1. rewrite E1 in Hin. discriminate Hin. }
  destruct (String.eqb (severityOf c) "medium") eqn:E2.
  { apply String.eqb_eq in E2. rewrite E2 in Hin. discriminate Hin. }
  destruct (String.eqb (severityOf c) "high") eqn:E3.
  { apply String.eqb_eq in E3. rewrite E3 in Hin. discriminate Hin. }
  destruct (String.eqb (severityOf c) "severe") eqn:E4.
  { apply String.eqb_eq in E4. rewrite E4 in Hin. discriminate Hin. }
  by rewrite Hin.
Qed.



(** The loop of [calculateCouncilScore] over councils with ordinary labels
    adds up their penalties. *)
Lemma fold_penalties (cs : list councilInfo) (start : Q) :
  Forall (fun c => inherited_name (severityOf c) = false) cs ->
  exists total,
    fold_left
      (fun total c => jsnum_plus total (jsnum_times penaltyPerCouncil (multiplier c)))
      cs (Num start) = Num total /\
    total == start + penalties cs.
Proof.
  revert start. induction cs as [|c cs IH]; intros start Hcs.
  - exists start. split; [reflexivity|]. simpl. by rewrite Qplus_0_r.
  - apply Forall_cons in Hcs as [Hc Hcs]. cbn [fold_left].
    rewrite (multiplier_by_severity c Hc). cbn [jsnum_times jsnum_plus].
    destruct (IH (start + penaltyPerCouncil * labelMultiplier (severityOf c)) Hcs)
      as (total & -> & Heq).
    exists total. split; [reflexivity|].
    rewrite Heq. cbn [penalties foldr]. fold (penalties cs). ring.
Qed.

(** Once a council with an inherited label has been added, the total is
    [NaN] and stays so. *)
Lemma fold_NaN (cs : list councilInfo) :
  fold_left
    (fun total c => jsnum_plus total (jsnum_times penaltyPerCouncil (multiplier c)))
    cs NaN = NaN.
Proof. induction cs as [|c cs IH]; [reflexivity|]. exact IH. Qed.


(** A council with an inherited label anywhere in the list makes the
    council term [NaN]. *)
Lemma council_score_inherited (before after : list councilInfo) (c : councilInfo) :
  Forall (fun c => inherited_name (severityOf c) = false) before ->
  inherited_name (severityOf c) = true ->
  calculateCouncilScore (before ++ c :: after) = NaN.
Proof.
  intros Hb Hc. unfold calculateCouncilScore.
  rewrite fold_left_app. cbn [fold_left].
  destruct (fold_penalties before 0 Hb) as (total & -> & _).
  rewrite (multiplier_inherited c Hc). cbn [jsnum_times jsnum_plus].
  by rewrite fold_NaN.
Qed.

Lemma band_inside (lo hi score : Q) :
  lo <= score -> score <= hi -> band lo hi score = true.
Proof.
  intros H1 H2. unfold band. simpl.
  apply andb_true_iff. by rewrite !num_le_spec.
Qed.

Lemma band_outside (lo hi score : Q) :
  score < lo \/ hi < score -> band lo hi score = false.
Proof.
  intros H. unfold band. simpl.
  apply andb_false_iff. rewrite !num_le_false. tauto.
Qed.

Lemma band_dec (lo hi score : Q) :
  (band lo hi score = true /\ (lo <= score /\ score <= hi)) \/
  (band lo hi score = false /\ ~ (lo <= score /\ score <= hi)).
Proof.
  destruct (Qlt_le_dec score lo) as [H1|H1].
  - right. split; [apply band_outside; by left|]. lra.
  - destruct (Qlt_le_dec hi score) as [H2|H2].
    + right. split; [apply band_outside; by right|]. lra.
    + left. split; [by apply band_inside|done].
Qed.

Lemma determineVerdictType_default (score : Q) :
  determineVerdictType defaultThresholds score
  = if band (-2) 2 score then Faithful
    else if band (-5) 5 score then Borderline
    else Doomed.
Proof. reflexivity. Qed.

(** With the default thresholds a score above 5 falls through both tests. *)
Lemma above_five_is_doomed (score : Q) :
  5 < score -> determineVerdictType defaultThresholds score = Doomed.
Proof.
  intros H. rewrite determineVerdictType_default.
  rewrite (band_outside (-2) 2 score) by (right; lra).
  by rewrite (band_outside (-5) 5 score) by (right; exact H).
Qed.

(** C1, as stated, fails: with the thresholds of the code the score 0 is
    Faithful, the higher score 3 is Borderline and the still higher score 6
    is Doomed, so Faithful is not the range of high scores and no pair of
    boundaries orders the three categories. *)
Lemma high_scores_counterexample :
  determineVerdictType defaultThresholds 0 = Faithful /\
  determineVerdictType defaultThresholds 3 = Borderline /\
  determineVerdictType defaultThresholds 6 = Doomed /\
  ~ ordered_ranges defaultThresholds.
Proof.
  split; [reflexivity|]. split; [reflexivity|]. split; [reflexivity|].
  intros (lo & hi & _ & H).
  destruct (Qlt_le_dec hi 5) as [Hlt|Hge].
  - destruct (H 6) as (_ & _ & Hf).
    assert (H6 : hi < 6) by (eapply Qlt_trans; [exact Hlt|reflexivity]).
    specialize (Hf H6). discriminate Hf.
  - destruct (H (hi + 1)) as (_ & _ & Hf).
    assert (Hs : hi < hi + 1).
    { rewrite <- (Qplus_0_r hi) at 1. apply Qplus_lt_r. reflexivity. }
    specialize (Hf Hs).
    rewrite above_five_is_doomed in Hf; [discriminate Hf|].
    eapply Qle_lt_trans; [exact Hge|exact Hs].
Qed.

(** C1, amended: [determineVerdictType] gives every score exactly one
    category; with the default thresholds Faithful is exactly the closed
    band from -2 to 2 (so it is bounded above), the scores of the closed
    band from -5 to 5 outside that band are Borderline, and every score
    below -5 is Doomed. *)
Theorem verdict_bands (score : Q) :
  (exists! v, determineVerdictType defaultThresholds score = v) /\
  (determineVerdictType defaultThresholds score = Faithful
     <-> -2 <= score /\ score <= 2) /\
  (-5 <= score -> score < -2 ->
     determineVerdictType defaultThresholds score = Borderline) /\
  (2 < score -> score <= 5 ->
     determineVerdictType defaultThresholds score = Borderline) /\
  (score < -5 -> determineVerdictType defaultThresholds score = Doomed).
Proof.
  split.
  { exists (determineVerdictType defaultThresholds score).
    split; [reflexivity|]. by intros v <-. }
  rewrite determineVerdictType_default.
  split; [|split; [|split]].
  - destruct (band_dec (-2) 2 score) as [[Hb Hr]|[Hb Hr]]; rewrite Hb.
    + tauto.
    + split; [|tauto]. by destruct (band (-5) 5 score).
  - intros H1 H2.
    rewrite (band_outside (-2) 2 score) by (left; exact H2).
    rewrite (band_inside (-5) 5 score); [done|exact H1|lra].
  - intros H1 H2.
    rewrite (band_outside (-2) 2 score) by (right; exact H1).
    rewrite (band_inside (-5) 5 score); [done|lra|exact H2].
  - intros H.
    rewrite (band_outside (-2) 2 score) by (left; lra).
    by rewrite (band_outside (-5) 5 score) by (left; exact H).
Qed.

Lemma verdict_bands_witness :
  determineVerdictType defaultThresholds 1 = Faithful /\
  determineVerdictType defaultThresholds (-4) = Borderline /\
  determineVerdictType defaultThresholds 3 = Borderline /\
  determineVerdictType defaultThresholds (-7) = Doomed.
Proof.
  destruct (verdict_bands 1) as (_ & Hf & _).
  destruct (verdict_bands (-4)) as (_ & _ & Hlow & _).
  destruct (verdict_bands 3) as (_ & _ & _ & Hhigh & _).
  destruct (verdict_bands (-7)) as (_ & _ & _ & _ & Hd).
  split; [|split; [|split]].
  - apply Hf. split; discriminate.
  - apply Hlow; [discriminate|reflexivity].
  - apply Hhigh; [reflexivity|discriminate].
  - apply Hd. reflexivity.
Defined.




(** The multipliers of the labels, read off the table. *)
Example multipliers_by_label :
  multiplier (labelled "low") = Number 1 /\
  multiplier (labelled "medium") = Number 1.5 /\
  multiplier (labelled "high") = Number 2 /\
  multiplier (labelled "severe") = Number 3 /\
  multiplier {| name := "c"; lastReaction := None |} = Number 1.5 /\
  multiplier {| name := "c"; lastReaction := Some {| severity := None |} |}
    = Number 1.5.
Proof. repeat split; reflexivity. Qed.

(** Four councils offended at the highest severity sum to -24; the score is
    -10.  Councils taken from the council manager carry no severity and
    count as medium: two of them give -6. *)
Example council_score_is_capped :
  calculateCouncilScore (replicate 4 (labelled "severe")) = Num (-10) /\
  (exists score,
     calculateCouncilScore
       (map ofCouncil
          [ (CouncilManager.processCouncilReaction []
               (CouncilManager.reformation 2) (Number (-1))).1;
            (CouncilManager.processCouncilReaction []
               (CouncilManager.reformation 3) (Number (-1))).1 ])
     = Num score /\ score == -6).
Proof. split; [reflexivity|]. eexists. split; reflexivity. Qed.

End VerdictCalculatorProps.

(** ** Question manager: the shuffle *)

Module ShuffleProps.
Import QuestionManager.

(** The index drawn for position [i] lies in [0, i]. *)
Lemma random_index_range (r : Q) (i : nat) :
  0 <= r -> r < 1 ->
  (0 <= random_index r i <= Z.of_nat i)%Z.
Proof.
  intros H0 H1. unfold random_index.
  set (n := (Z.of_nat i + 1)%Z).
  assert (Hn : 0 < inject_Z n).
  { unfold n, Qlt. simpl. lia. }
  split.
  - change 0%Z with (Qfloor 0). apply Qfloor_resp_le.
    by apply Qmult_le_0_compat; [|apply Qlt_le_weak].
  - assert (Hlt : inject_Z (Qfloor (r * inject_Z n)) < inject_Z n).
    { eapply Qle_lt_trans; [apply Qfloor_le|].
      rewrite <- (Qmult_1_l (inject_Z n)) at 2.
      by apply Qmult_lt_compat_r. }
    rewrite <- Zlt_Qlt in Hlt. lia.
Qed.

(** Every index of [0, i] is drawn for some value of [0, 1). *)
Lemma random_index_onto (i j : nat) :
  (j <= i)%nat ->
  exists r : Q, 0 <= r /\ r < 1 /\ random_index r i = Z.of_nat j.
Proof.
  intros Hj.
  exists (inject_Z (Z.of_nat j) / inject_Z (Z.of_nat i + 1)).
  assert (Hn : 0 < inject_Z (Z.of_nat i + 1)).
  { unfold Qlt. simpl. lia. }
  assert (Hne : ~ inject_Z (Z.of_nat i + 1) == 0).
  { intros E. rewrite E in Hn. discriminate Hn. }
  split; [|split].
  - apply Qle_shift_div_l; [done|]. rewrite Qmult_0_l.
    unfold Qle. simpl. lia.
  - apply Qlt_shift_div_r; [done|]. rewrite Qmult_1_l.
    unfold Qlt. simpl. lia.
  - unfold random_index.
    rewrite <- (Qfloor_Z (Z.of_nat j)) at 2.
    apply Z.le_antisymm; apply Qfloor_resp_le; apply Qle_lteq; right.
    + unfold Qdiv. rewrite <- Qmult_assoc, (Qmult_comm (/ _)).
      by rewrite Qmult_inv_r, Qmult_1_r.
    + unfold Qdiv. rewrite <- Qmult_assoc, (Qmult_comm (/ _)).
      by rewrite Qmult_inv_r, Qmult_1_r.
Qed.

Section Swap.
Context {A : Type}.
Implicit Types (array : list A) (i j k : nat).

Lemma transpose_inj i j : Inj (=) (=) (transpose i j).
Proof.
  intros a b. unfold transpose.
  repeat case_decide; intros; subst; congruence.
Qed.

Lemma swap_lookup array i j array' k :
  swap array i j = Some array' -> array' !! k = array !! transpose i j k.
Proof.
  unfold swap.
  destruct (array !! j) as [aj|] eqn:Hj; [|done].
  destruct (array !! i) as [ai|] eqn:Hi; [|done].
  intros [= <-].
  pose proof (lookup_lt_Some _ _ _ Hi) as Li.
  pose proof (lookup_lt_Some _ _ _ Hj) as Lj.
  unfold transpose.
  destruct (decide (k = j)) as [->|Nj].
  - rewrite list_lookup_insert_eq by (by rewrite length_insert).
    case_decide; [by subst|done].
  - rewrite list_lookup_insert_ne by done.
    destruct (decide (k = i)) as [->|Ni].
    + by rewrite list_lookup_insert_eq.
    + by rewrite list_lookup_insert_ne.
Qed.

Lemma swap_length array i j array' :
  swap array i j = Some array' -> length array' = length array.
Proof.
  unfold swap.
  destruct (array !! j); [|done]. destruct (array !! i); [|done].
  intros [= <-]. by rewrite !length_insert.
Qed.

Lemma swap_permutation array i j array' :
  swap array i j = Some array' -> array' ≡ₚ array.
Proof.
  intros H. apply Permutation_inj. split.
  - by eapply swap_length.
  - exists (transpose i j). split; [apply transpose_inj|].
    intros k. by eapply swap_lookup.
Qed.

Lemma swap_defined array i j :
  (i < length array)%nat -> (j < length array)%nat ->
  is_Some (swap array i j).
Proof.
  intros Hi Hj. unfold swap.
  destruct (lookup_lt_is_Some_2 array i Hi) as [ai ->].
  destruct (lookup_lt_is_Some_2 array j Hj) as [aj ->].
  by eexists.
Qed.

(** Whatever the loop returns is a rearrangement of what it was given, and
    it has drawn one random number per position. *)
Lemma shuffle_loop_permutation rand i : forall k array result k',
  shuffle_loop rand k i array = Returned (result, k') ->
  result ≡ₚ array /\ k' = (k + i)%nat.
Proof.
  induction i as [|i IH]; intros k array result k'; simpl.
  - intros [= <- <-]. split; [done|lia].
  - destruct (random_index (rand k) (S i) <? 0)%Z; [done|].
    destruct (swap array (S i) (Z.to_nat (random_index (rand k) (S i))))
      as [array'|] eqn:Hs; [|done].
    intros H. apply IH in H as [Hp ->].
    split; [|lia]. rewrite Hp. by eapply swap_permutation.
Qed.

(** With [Math.random] in range the loop runs to its end. *)
Lemma shuffle_loop_returns rand i : forall k array,
  unit_range rand ->
  (i < length array)%nat \/ i = 0%nat ->
  exists result, shuffle_loop rand k i array = Returned (result, (k + i)%nat).
Proof.
  induction i as [|i IH]; intros k array Hr Hi; simpl.
  - exists array. do 2 f_equal. lia.
  - destruct Hi as [Hi|Hi]; [|done].
    destruct (Hr k) as [H0 H1].
    pose proof (random_index_range (rand k) (S i) H0 H1) as [Hj0 Hj1].
    destruct (Z.ltb_spec (random_index (rand k) (S i)) 0); [lia|].
    destruct (swap_defined array (S i) (Z.to_nat (random_index (rand k) (S i))))
      as [array' Hs]; [done|lia|].
    rewrite Hs.
    destruct (IH (S k) array' Hr) as [result Hres].
    { left. rewrite (swap_length _ _ _ _ Hs). lia. }
    exists result. rewrite Hres. do 2 f_equal. lia.
Qed.

(** The loop consults the oracle from call [k] on only. *)
Lemma shuffle_loop_ext rand rand' i : forall k array,
  (forall n, (k <= n)%nat -> rand n = rand' n) ->
  shuffle_loop rand k i array = shuffle_loop rand' k i array.
Proof.
  induction i as [|i IH]; intros k array Hext; simpl; [done|].
  rewrite (Hext k) by lia.
  destruct (random_index (rand' k) (S i) <? 0)%Z; [done|].
  destruct (swap array (S i) (Z.to_nat (random_index (rand' k) (S i)))); [|done].
  apply IH. intros n Hn. apply Hext. lia.
Qed.

(** Two arrangements of the same elements that agree beyond position [n]
    hold the same elements up to [n]. *)
Lemma agreeing_suffix_prefix (array target : list A) (n : nat) :
  array ≡ₚ target ->
  (forall m, (n <= m)%nat -> array !! m = target !! m) ->
  take n array ≡ₚ take n target.
Proof.
  intros Hp Hs.
  assert (Hd : drop n array = drop n target).
  { apply list_eq. intros m. rewrite !lookup_drop. apply Hs. lia. }
  apply (Permutation_app_inv_r (drop n array)).
  rewrite Hd at 2. by rewrite !take_drop.
Qed.

(** Every arrangement that agrees with the array beyond position [i] is
    produced by the loop for some random numbers. *)
Lemma shuffle_loop_reaches (target : list A) i : forall k array,
  array ≡ₚ target ->
  (i < length array)%nat \/ i = 0%nat ->
  (forall m, (i < m)%nat -> array !! m = target !! m) ->
  exists rand, unit_range rand /\
    shuffle_loop rand k i array = Returned (target, (k + i)%nat).
Proof.
  induction i as [|i IH]; intros k array Hp Hi Hs.
  - exists (fun _ => 0). split; [intros n; split; [discriminate|reflexivity]|].
    simpl. do 2 f_equal; [|lia].
    pose proof (agreeing_suffix_prefix array target 1 Hp) as H1.
    assert (Hd : drop 1 array = drop 1 target).
    { apply list_eq. intros m. rewrite !lookup_drop. apply Hs. lia. }
    destruct array as [|x ra], target as [|y rt]; try done;
      try (by apply Permutation_nil_cons in Hp);
      try (by symmetry in Hp; apply Permutation_nil_cons in Hp).
    simpl in Hd. rewrite ?drop_0 in Hd. subst rt. f_equal.
    assert (H2 : take 1 (x :: ra) ≡ₚ take 1 (y :: ra)).
    { apply H1. intros m Hm. apply Hs. lia. }
    simpl in H2. rewrite ?take_0 in H2.
    by apply Permutation_singleton_inj.
  - destruct Hi as [Hi|Hi]; [|done].
    assert (Hlen : length target = length array) by (by rewrite Hp).
    destruct (lookup_lt_is_Some_2 target (S i)) as [x Hx]; [lia|].
    assert (Hin : x ∈ take (S (S i)) array).
    { rewrite (agreeing_suffix_prefix array target (S (S i)) Hp).
      - apply elem_of_take. exists (S i). split; [done|lia].
      - intros m Hm. apply Hs. lia. }
    apply elem_of_take in Hin as (j & Hj & Hlt).
    destruct (random_index_onto (S i) j) as (r & Hr0 & Hr1 & Hrj); [lia|].
    destruct (swap_defined array (S i) j) as [array' Hsw];
      [done|by eapply lookup_lt_Some|].
    destruct (IH (S k) array') as (rand' & Hrange & Hloop).
    + rewrite <- Hp. by eapply swap_permutation.
    + left. rewrite (swap_length _ _ _ _ Hsw). lia.
    + intros m Hm. rewrite (swap_lookup _ _ _ _ m Hsw). unfold transpose.
      destruct (decide (m = S i)) as [->|Hne]; [by rewrite Hj, Hx|].
      rewrite decide_False by lia. apply Hs. lia.
    + exists (fun n => if decide (n = k) then r else rand' n). split.
      * intros n. case_decide; [done|apply Hrange].
      * simpl. rewrite decide_True by done. rewrite Hrj.
        destruct (Z.ltb_spec (Z.of_nat j) 0); [lia|].
        rewrite Nat2Z.id, Hsw.
        rewrite (shuffle_loop_ext _ rand' i (S k) array').
        -- rewrite Hloop. do 2 f_equal. lia.
        -- intros n Hn. rewrite decide_False by lia. done.
Qed.

End Swap.

(** Every permutation of the input is a possible result of [shuffleArray]. *)
Lemma shuffleArray_reaches {A : Type} (array target : list A) (k : nat) :
  target ≡ₚ array ->
  exists rand, unit_range rand /\
    shuffleArray rand k array = Returned (target, (k + (length array - 1))%nat).
Proof.
  intros Hp. apply shuffle_loop_reaches; [done|lia|].
  intros m Hm.
  rewrite !lookup_ge_None_2; [done| |lia].
  rewrite Hp. lia.
Qed.

(** [shuffleArray] as a whole, for reuse by its callers. *)
Lemma shuffleArray_returns {A : Type} (rand : random_source) (k : nat)
    (array : list A) :
  unit_range rand ->
  exists shuffled k',
    shuffleArray rand k array = Returned (shuffled, k') /\
    shuffled ≡ₚ array.
Proof.
  intros Hr.
  destruct (shuffle_loop_returns rand (length array - 1) k array Hr)
    as [shuffled Hs]; [lia|].
  exists shuffled, (k + (length array - 1))%nat. split; [exact Hs|].
  by apply shuffle_loop_permutation in Hs as [Hp _].
Qed.

(** One round of the loop at position [i >= 1], for reuse: the index drawn
    with the round's random number lies in [0, i], the elements at the two
    positions change places and no other element moves, and the loop goes on
    at position [i - 1] with the next random number. *)
Lemma shuffle_loop_round {A : Type} (rand : random_source) (n i : nat)
    (arr : list A) :
  unit_range rand ->
  (S i < length arr)%nat ->
  exists j arr',
    random_index (rand n) (S i) = Z.of_nat j /\
    (j <= S i)%nat /\
    swap arr (S i) j = Some arr' /\
    arr' !! S i = arr !! j /\
    arr' !! j = arr !! S i /\
    (forall m, m <> S i -> m <> j -> arr' !! m = arr !! m) /\
    shuffle_loop rand n (S i) arr = shuffle_loop rand (S n) i arr'.
Proof.
  intros Hr Hi. destruct (Hr n) as [H0 H1].
  pose proof (random_index_range (rand n) (S i) H0 H1) as [Hj0 Hj1].
  set (j := Z.to_nat (random_index (rand n) (S i))).
  assert (Hj : random_index (rand n) (S i) = Z.of_nat j) by (unfold j; lia).
  destruct (swap_defined arr (S i) j) as [arr' Hs]; [done|lia|].
  exists j, arr'. split; [done|]. split; [lia|]. split; [done|].
  split; [|split; [|split]].
  - rewrite (swap_lookup _ _ _ _ (S i) Hs). unfold transpose.
    by rewrite decide_True.
  - rewrite (swap_lookup _ _ _ _ j Hs). unfold transpose.
    destruct (decide (j = S i)) as [->|Hne]; [done|].
    by rewrite decide_True.
  - intros m Hm1 Hm2. rewrite (swap_lookup _ _ _ _ m Hs). unfold transpose.
    by rewrite !decide_False.
  - cbn [shuffle_loop]. rewrite Hj.
    destruct (Z.ltb_spec (Z.of_nat j) 0); [lia|].
    by rewrite Nat2Z.id, Hs.
Qed.

(** C6: given random numbers in [0, 1), [shuffleArray] returns, and what it
    returns is a permutation of its input of the same length.  It is the
    loop entered at the last index; at position [i >= 1] the loop draws one
    random number, swaps position [i] with the index [floor(r * (i + 1))],
    which lies in [0, i], moves nothing else, and goes on at [i - 1]; at
    position 0 it stops, having drawn one number per index from the last
    down to 1.  Each index of [0, i] is drawn for some random number, and
    every permutation of the input is the result for some random numbers. *)
Theorem shuffle_is_permutation {A : Type} (rand : random_source) (k : nat)
    (array : list A) :
  unit_range rand ->
  (exists shuffled,
     shuffleArray rand k array = Returned (shuffled, (k + (length array - 1))%nat) /\
     shuffled ≡ₚ array /\
     length shuffled = length array) /\
  shuffleArray rand k array = shuffle_loop rand k (length array - 1) array /\
  (forall n (arr : list A), shuffle_loop rand n 0 arr = Returned (arr, n)) /\
  (forall i n (arr : list A),
     (S i < length arr)%nat ->
     exists j arr',
       random_index (rand n) (S i) = Z.of_nat j /\
       (j <= S i)%nat /\
       swap arr (S i) j = Some arr' /\
       arr' !! S i = arr !! j /\
       arr' !! j = arr !! S i /\
       (forall m, m <> S i -> m <> j -> arr' !! m = arr !! m) /\
       shuffle_loop rand n (S i) arr = shuffle_loop rand (S n) i arr') /\
  (forall i n, (0 <= random_index (rand n) i <= Z.of_nat i)%Z) /\
  (forall i j, (j <= i)%nat ->
     exists r, 0 <= r /\ r < 1 /\ random_index r i = Z.of_nat j) /\
  (forall target, target ≡ₚ array ->
     exists rand', unit_range rand' /\
       shuffleArray rand' k array
       = Returned (target, (k + (length array - 1))%nat)).
Proof.
  intros Hr. split; [|split; [done|split; [done|split; [|split; [|split]]]]].
  - destruct (shuffle_loop_returns rand (length array - 1) k array Hr)
      as [shuffled Hs]; [lia|].
    exists shuffled. split; [exact Hs|].
    apply shuffle_loop_permutation in Hs as [Hp _].
    split; [done|]. by rewrite Hp.
  - intros i n arr Hi. by apply shuffle_loop_round.
  - intros i n. destruct (Hr n). by apply random_index_range.
  - apply random_index_onto.
  - intros target Hp. by apply shuffleArray_reaches.
Qed.

Lemma shuffle_is_permutation_witness :
  (exists shuffled,
     shuffleArray (fun _ => 1 # 2) 0 [1; 2; 3; 4; 5]%nat = Returned (shuffled, 4%nat) /\
     shuffled ≡ₚ [1; 2; 3; 4; 5]%nat /\
     length shuffled = 5%nat) /\
  (exists j arr',
     random_index (1 # 2) 4 = Z.of_nat j /\
     (j <= 4)%nat /\
     swap [1; 2; 3; 4; 5]%nat 4 j = Some arr' /\
     shuffle_loop (fun _ => 1 # 2) 0 4 [1; 2; 3; 4; 5]%nat
     = shuffle_loop (fun _ => 1 # 2) 1 3 arr').
Proof.
  assert (Hr : unit_range (fun _ => 1 # 2)).
  { intros n. split; [discriminate|reflexivity]. }
  destruct (shuffle_is_permutation (fun _ => 1 # 2) 0 [1; 2; 3; 4; 5]%nat Hr)
    as (H & _ & _ & Hround & _).
  split; [exact H|].
  destruct (Hround 3%nat 0%nat [1; 2; 3; 4; 5]%nat) as (j & arr' & Hj & Hle & Hs & _ & _ & _ & Hl).
  { simpl. lia. }
  by exists j, arr'.
Defined.

(** The loop unfolded: at position [i >= 1] the element is swapped with the
    one at the drawn index and the loop continues at [i - 1]; at 0 it stops. *)
Lemma shuffle_loop_step {A : Type} (rand : random_source) (k i : nat)
    (array array' : list A) :
  (0 <= random_index (rand k) (S i))%Z ->
  swap array (S i) (Z.to_nat (random_index (rand k) (S i))) = Some array' ->
  shuffle_loop rand k (S i) array = shuffle_loop rand (S k) i array'.
Proof.
  intros Hj Hs. simpl.
  destruct (Z.ltb_spec (random_index (rand k) (S i)) 0); [lia|].
  by rewrite Hs.
Qed.

Example shuffle_run :
  shuffleArray (fun n => if decide (n = 0%nat) then 0 else 1 # 2) 0
    ["a"; "b"; "c"; "d"]%string
  = Returned (["d"; "c"; "b"; "a"]%string, 3%nat).
Proof. vm_compute. reflexivity. Qed.

End ShuffleProps.

(** ** Question manager: loading with fallback *)

Module LoadProps.
Import QuestionManager ShuffleProps.








(** A run of the fallback: the fetch is rejected and the five built-in
    questions are loaded in shuffled order. *)
Example fallback_run :
  (fun o => match o with
            | Returned st' => (q_id <$> questions st', emitted st')
            | _ => ([], [])
            end)
    (loadQuestions defaultConfig (fun _ => 1 # 2) FetchRejected freshManager)
  = ([Some "builtin_001"; Some "builtin_004"; Some "builtin_002";
      Some "builtin_005"; Some "builtin_003"]%string,
     [LoadingStarted; LoadingError NetworkError; LoadingCompleted 5 true]).
Proof. vm_compute. reflexivity. Qed.

(** A document in the old format (a plain array) does not throw: it loads
    as an empty list, and no fallback takes place. *)
Example old_format_loads_nothing (qs : list question) :
  loadFromExternalSource (Body (QsArray qs)) = Returned [].
Proof. reflexivity. Qed.

End LoadProps.

(** ** Question pool: exhaustion and reset *)

Module QuestionPoolProps.
Import QuestionPool ShuffleProps.

Lemma prefix_app (s t : string) : String.prefix s (s +:+ t) = true.
Proof.
  induction s as [|a s IH]; simpl; [by destruct t|].
  by destruct (Ascii.ascii_dec a a).
Qed.

Lemma usedKey_ofDifficulty (difficulty : string) (q : question) :
  keyOfDifficulty difficulty (usedKey difficulty q) = true.
Proof.
  unfold keyOfDifficulty, usedKey. apply prefix_app.
Qed.

(** After a reset no key of the difficulty is left. *)
Lemma reset_clears (used : list string) (difficulty : string) :
  getUsedQuestionIds (resetUsedQuestions used difficulty) difficulty = [].
Proof.
  unfold getUsedQuestionIds, resetUsedQuestions.
  induction used as [|key used IH]; [done|].
  rewrite (filter_cons _ key used).
  destruct (decide (keyOfDifficulty difficulty key = false)) as [E|E].
  - rewrite filter_cons. rewrite decide_False by congruence. exact IH.
  - exact IH.
Qed.

(** After a reset every question of the difficulty is eligible. *)
Lemma reset_makes_all_eligible (allQuestions : list question)
    (difficulty : string) (used : list string) :
  eligible allQuestions difficulty (resetUsedQuestions used difficulty)
  = allQuestions.
Proof.
  unfold eligible.
  induction allQuestions as [|q qs IH]; [done|].
  rewrite filter_cons. rewrite decide_True.
  - by rewrite IH.
  - unfold resetUsedQuestions. intros Hin.
    apply list_elem_of_filter in Hin as [Hf _].
    rewrite usedKey_ofDifficulty in Hf. discriminate Hf.
Qed.

(** Exhaustion of a non-empty pool means some key of the difficulty is
    recorded. *)
Lemma exhausted_has_used (allQuestions : list question) (difficulty : string)
    (used : list string) :
  allQuestions ≠ [] ->
  eligible allQuestions difficulty used = [] ->
  (0 < length (getUsedQuestionIds used difficulty))%nat.
Proof.
  intros Hne He. destruct allQuestions as [|q qs]; [done|].
  unfold eligible in He. rewrite filter_cons in He.
  destruct (decide (usedKey difficulty q ∉ used)) as [Hn|Hin]; [done|].
  apply dec_stable in Hin.
  assert (Hk : usedKey difficulty q ∈ getUsedQuestionIds used difficulty).
  { apply list_elem_of_filter. split; [apply usedKey_ofDifficulty|done]. }
  destruct (getUsedQuestionIds used difficulty); [by apply not_elem_of_nil in Hk|].
  simpl. lia.
Qed.

Lemma getFreshQuestions_exhausted (allQuestions : list question)
    (difficulty : string) (used : list string) :
  allQuestions ≠ [] ->
  eligible allQuestions difficulty used = [] ->
  getFreshQuestions allQuestions difficulty used
  = (allQuestions, resetUsedQuestions used difficulty).
Proof.
  intros Hne He. unfold getFreshQuestions. rewrite He.
  rewrite bool_decide_eq_true_2 by done.
  rewrite (bool_decide_eq_false_2 (allQuestions = [])) by done. simpl.
  by rewrite reset_makes_all_eligible.
Qed.

Lemma getFreshQuestions_first_session (allQuestions : list question)
    (difficulty : string) (used : list string) :
  getUsedQuestionIds used difficulty = [] ->
  getFreshQuestions allQuestions difficulty used = (allQuestions, used).
Proof.
  intros Hu.
  assert (He : eligible allQuestions difficulty used = allQuestions).
  { unfold eligible. induction allQuestions as [|q qs IH]; [done|].
    rewrite filter_cons. rewrite decide_True; [by rewrite IH|].
    intros Hin.
    assert (Hk : usedKey difficulty q ∈ getUsedQuestionIds used difficulty).
    { apply list_elem_of_filter. split; [apply usedKey_ofDifficulty|done]. }
    rewrite Hu in Hk. by apply not_elem_of_nil in Hk. }
  unfold getFreshQuestions. rewrite He.
  destruct allQuestions as [|q qs]; [done|].
  by rewrite bool_decide_eq_false_2.
Qed.

(** Without exhaustion nothing is reported: the flag is false and the used
    set is left alone. *)
Lemma beginSession_not_exhausted (rand : QuestionManager.random_source) (k : nat)
    (allQuestions : list question) (difficulty : string) (used : list string)
    (s : session) :
  eligible allQuestions difficulty used ≠ [] ->
  beginSession rand k allQuestions difficulty used = Returned s ->
  poolWasReset s = false /\ usedQuestions s = used.
Proof.
  intros He. unfold beginSession, getFreshQuestions.
  rewrite (bool_decide_eq_false_2 (eligible allQuestions difficulty used = [])) by done.
  simpl.
  destruct (QuestionManager.shuffleArray rand k _) as [[sh k']| |]; simpl; try done.
  intros [= <-]. simpl. split; [|done].
  unfold wasReset.
  destruct (length (getUsedQuestionIds used difficulty)) as [|n]; [done|].
  simpl. by rewrite andb_false_r.
Qed.

(** C3: when no question of a non-empty pool is eligible, [beginSession]
    clears the used set of the difficulty, returns a queue that is a
    rearrangement of the whole pool (so of full size) and sets
    [poolWasReset]; when no key of the difficulty is recorded, as on a first
    session, the flag stays false and the used set is left as it is; and the
    flag is set on exhaustion only. *)
Theorem pool_exhaustion_resets (rand : QuestionManager.random_source) (k : nat)
    (allQuestions : list question) (difficulty : string) (used : list string) :
  QuestionManager.unit_range rand ->
  allQuestions ≠ [] ->
  (eligible allQuestions difficulty used = [] ->
   exists s, beginSession rand k allQuestions difficulty used = Returned s /\
     poolWasReset s = true /\
     getUsedQuestionIds (usedQuestions s) difficulty = [] /\
     usedQuestions s = resetUsedQuestions used difficulty /\
     queue s ≡ₚ allQuestions /\
     length (queue s) = length allQuestions) /\
  (getUsedQuestionIds used difficulty = [] ->
   exists s, beginSession rand k allQuestions difficulty used = Returned s /\
     poolWasReset s = false /\
     usedQuestions s = used /\
     length (queue s) = length allQuestions) /\
  (forall s, beginSession rand k allQuestions difficulty used = Returned s ->
     poolWasReset s = true -> eligible allQuestions difficulty used = []).
Proof.
  intros Hr Hne. split; [|split].
  - intros He.
    pose proof (exhausted_has_used _ _ _ Hne He) as Hused.
    unfold beginSession, wasReset.
    rewrite (getFreshQuestions_exhausted _ _ _ Hne He).
    destruct (shuffleArray_returns rand k allQuestions Hr) as (sh & k' & Hs & Hp).
    rewrite Hs. simpl. eexists. split; [reflexivity|]. simpl.
    rewrite reset_clears. simpl.
    rewrite Nat.eqb_refl, !andb_true_r.
    apply Nat.ltb_lt in Hused. rewrite Hused.
    repeat split; [done|by rewrite Hp].
  - intros Hu.
    unfold beginSession, wasReset.
    rewrite (getFreshQuestions_first_session _ _ _ Hu), Hu.
    destruct (shuffleArray_returns rand k allQuestions Hr) as (sh & k' & Hs & Hp).
    rewrite Hs. simpl. eexists. split; [reflexivity|]. simpl.
    repeat split. by rewrite Hp.
  - intros s Hs Hflag.
    destruct (decide (eligible allQuestions difficulty used = [])) as [He|He]; [done|].
    destruct (beginSession_not_exhausted _ _ _ _ _ _ He Hs) as [Hf _].
    congruence.
Qed.

Lemma pool_exhaustion_resets_witness :
  (exists s,
     beginSession (fun _ => 1 # 2) 0 easyPool "easy"
       ["easy_1"; "easy_3"; "hard_7"; "easy_2"]%string = Returned s /\
     poolWasReset s = true /\
     usedQuestions s = ["hard_7"%string] /\
     length (queue s) = 3%nat) /\
  (exists s,
     beginSession (fun _ => 1 # 2) 0 easyPool "easy" ["hard_7"%string] = Returned s /\
     poolWasReset s = false /\
     length (queue s) = 3%nat).
Proof.
  assert (Hr : QuestionManager.unit_range (fun _ => 1 # 2)).
  { intros n. split; [discriminate|reflexivity]. }
  assert (Hne : easyPool ≠ []) by discriminate.
  split.
  - destruct (pool_exhaustion_resets (fun _ => 1 # 2) 0 easyPool "easy"
                ["easy_1"; "easy_3"; "hard_7"; "easy_2"]%string Hr Hne) as [H _].
    destruct (H eq_refl) as (s & Hs & Hf & _ & Hu & _ & Hl).
    exists s. repeat split; done.
  - destruct (pool_exhaustion_resets (fun _ => 1 # 2) 0 easyPool "easy"
                ["hard_7"%string] Hr Hne) as (_ & H & _).
    destruct (H eq_refl) as (s & Hs & Hf & _ & Hl).
    exists s. repeat split; done.
Defined.

(** A session that starts on a partly used pool: only the unused question
    is queued and nothing is reset. *)
Example partly_used_pool :
  (fun o => match o with
            | Returned s => (q_id <$> queue s, poolWasReset s, usedQuestions s)
            | _ => ([], false, [])
            end)
    (beginSession (fun _ => 1 # 2) 0 easyPool "easy" ["easy_1"; "easy_3"]%string)
  = ([Some "2"%string], false, ["easy_1"; "easy_3"]%string).
Proof. vm_compute. reflexivity. Qed.

End QuestionPoolProps.

(** ** State manager: base64 *)

Module Base64Props.
Import StateManager.
#[local] Open Scope N_scope.

Ltac nlia := zify; Z.to_euclidean_division_equations; lia.

Ltac case_tests :=
  repeat match goal with
  | |- context [N.ltb ?a ?b] => destruct (N.ltb_spec a b)
  | |- context [N.leb ?a ?b] => destruct (N.leb_spec a b)
  | |- context [N.eqb ?a ?b] => destruct (N.eqb_spec a b)
  end.

(** Induction over a list three elements at a time. *)
Lemma list_ind3 {A : Type} (P : list A -> Prop) :
  P [] -> (forall a, P [a]) -> (forall a b, P [a; b]) ->
  (forall a b c l, P l -> P (a :: b :: c :: l)) ->
  forall l, P l.
Proof.
  intros H0 H1 H2 H3.
  assert (H : forall l, P l /\ (forall a, P (a :: l)) /\ (forall a b, P (a :: b :: l))).
  { induction l as [|x l (IH0 & IH1 & IH2)]; [auto|].
    split; [apply IH1|]. split; [intros a; apply IH2|].
    intros a b. by apply H3. }
  intros l. apply H.
Qed.

Lemma base64Encode_split (bytes : list N) :
  base64Encode bytes = map encodeSextet (sextetsOf bytes) ++ paddingOf bytes.
Proof.
  induction bytes as [| a | a b | a b c rest IH] using list_ind3; try reflexivity.
  simpl. by rewrite IH.
Qed.

Lemma sextetsOf_bound (bytes : list N) :
  Forall (fun b => b <= 255) bytes -> Forall (fun s => s < 64) (sextetsOf bytes).
Proof.
  induction bytes as [| a | a b | a b c rest IH] using list_ind3; intros H.
  - constructor.
  - inversion_clear H. simpl. repeat constructor; nlia.
  - inversion_clear H as [|? ? Ha H']. inversion_clear H'. simpl.
    repeat constructor; nlia.
  - inversion_clear H as [|? ? Ha H']. inversion_clear H' as [|? ? Hb H''].
    inversion_clear H'' as [|? ? Hc Hrest]. simpl.
    repeat (constructor; [nlia|]). by apply IH.
Qed.

(** The shape of an encoding: no padding after full groups, one [=] after
    three sextets, two after two. *)
Lemma encoding_shape (bytes : list N) :
  exists k : nat,
    (paddingOf bytes = [] /\ length (sextetsOf bytes) = (4 * k)%nat) \/
    (paddingOf bytes = [61] /\ length (sextetsOf bytes) = (4 * k + 3)%nat) \/
    (paddingOf bytes = [61; 61] /\ length (sextetsOf bytes) = (4 * k + 2)%nat).
Proof.
  induction bytes as [| a | a b | a b c rest IH] using list_ind3.
  - exists 0%nat. by left.
  - exists 0%nat. right. by right.
  - exists 0%nat. right. by left.
  - destruct IH as [k [[Hp Hl]|[[Hp Hl]|[Hp Hl]]]]; exists (S k); simpl; rewrite Hp, Hl.
    + left. split; [done|lia].
    + right. left. split; [done|lia].
    + right. right. split; [done|lia].
Qed.

Lemma decode_encode_sextet (n : N) :
  n < 64 -> decodeSextet (encodeSextet n) = Some n.
Proof.
  intros H. unfold encodeSextet.
  destruct (N.ltb_spec n 26); [|destruct (N.ltb_spec n 52);
    [|destruct (N.ltb_spec n 62); [|destruct (N.eqb_spec n 62)]]];
    unfold decodeSextet; case_tests; simpl; try lia; f_equal; lia.
Qed.

Lemma mapM_decode_encode (sextets : list N) :
  Forall (fun s => s < 64) sextets ->
  mapM decodeSextet (map encodeSextet sextets) = Some sextets.
Proof.
  induction 1 as [|n l Hn _ IH]; [done|].
  simpl. rewrite (decode_encode_sextet n Hn). simpl.
  change (fmap encodeSextet l) with (map encodeSextet l) in *.
  by rewrite IH.
Qed.

Lemma encodeSextet_plain (n : N) :
  (encodeSextet n =? 61) = false /\ isAsciiWhitespace (encodeSextet n) = false.
Proof.
  unfold encodeSextet, isAsciiWhitespace.
  destruct (N.ltb_spec n 26); [|destruct (N.ltb_spec n 52);
    [|destruct (N.ltb_spec n 62); [|destruct (N.eqb_spec n 62)]]];
    case_tests; simpl; try lia; done.
Qed.

Lemma paddingOf_cases (bytes : list N) :
  paddingOf bytes = [] \/ paddingOf bytes = [61] \/ paddingOf bytes = [61; 61].
Proof.
  destruct (encoding_shape bytes) as [k [[H _]|[[H _]|[H _]]]]; auto.
Qed.

Lemma filter_all {A : Type} (P : A -> Prop) `{!forall x, Decision (P x)} (l : list A) :
  Forall P l -> filter P l = l.
Proof.
  induction 1 as [|x l Hx _ IH]; [done|].
  rewrite filter_cons, decide_True by done. by rewrite IH.
Qed.

Lemma base64Encode_no_whitespace (bytes : list N) :
  filter (fun c => isAsciiWhitespace c = false) (base64Encode bytes)
  = base64Encode bytes.
Proof.
  apply filter_all. rewrite base64Encode_split.
  apply Forall_app. split.
  - apply Forall_forall. intros c Hc.
    apply list_elem_of_fmap in Hc as (n & -> & _). apply encodeSextet_plain.
  - destruct (paddingOf_cases bytes) as [->|[->| ->]]; repeat constructor.
Qed.

Lemma stripPadding_encode (bytes : list N) :
  stripPadding (base64Encode bytes) = map encodeSextet (sextetsOf bytes).
Proof.
  rewrite base64Encode_split. unfold stripPadding.
  rewrite length_app, length_map.
  destruct (encoding_shape bytes) as [k [[Hp Hl]|[[Hp Hl]|[Hp Hl]]]];
    rewrite Hp, Hl; simpl length.
  - rewrite app_nil_r.
    replace (4 * k + 0)%nat with (k * 4)%nat by lia.
    rewrite Nat.Div0.mod_mul. simpl.
    destruct (sextetsOf bytes) as [|x l _] using rev_ind; [done|].
    rewrite map_app, reverse_app. simpl.
    by rewrite (proj1 (encodeSextet_plain x)).
  - replace (4 * k + 3 + 1)%nat with ((k + 1) * 4)%nat by lia.
    rewrite Nat.Div0.mod_mul. simpl.
    rewrite reverse_app. simpl.
    destruct (reverse (map encodeSextet (sextetsOf bytes))) as [|d r] eqn:E.
    + rewrite <- (reverse_involutive (map _ _)), E. done.
    + assert (Hd : (d =? 61) = false).
      { assert (Hin : d ∈ map encodeSextet (sextetsOf bytes)).
        { apply elem_of_reverse. rewrite E. by left. }
        apply list_elem_of_fmap in Hin as (n & -> & _). apply encodeSextet_plain. }
      rewrite Hd. by rewrite <- E, reverse_involutive.
  - replace (4 * k + 2 + 2)%nat with ((k + 1) * 4)%nat by lia.
    rewrite Nat.Div0.mod_mul. simpl.
    rewrite reverse_app. simpl. by rewrite reverse_involutive.
Qed.

Lemma base64Decode_sextetsOf (bytes : list N) :
  Forall (fun b => b <= 255) bytes -> base64Decode (sextetsOf bytes) = bytes.
Proof.
  induction bytes as [| a | a b | a b c rest IH] using list_ind3; intros H.
  - done.
  - inversion_clear H. simpl. f_equal. nlia.
  - inversion_clear H as [|? ? Ha H']. inversion_clear H'. simpl.
    f_equal; [nlia|]. f_equal. nlia.
  - inversion_clear H as [|? ? Ha H']. inversion_clear H' as [|? ? Hb H''].
    inversion_clear H'' as [|? ? Hc Hrest]. simpl.
    rewrite (IH Hrest).
    f_equal; [nlia|]. f_equal; [nlia|]. f_equal. nlia.
Qed.

(** [atob] undoes [btoa] on every string [btoa] accepts. *)
Lemma atob_btoa (s encoded : jsstring) :
  btoa s = Returned encoded -> atob encoded = Returned s.
Proof.
  unfold btoa. destruct (forallb (fun c => c <=? 255) s) eqn:E; [|done].
  intros [= <-].
  assert (Hs : Forall (fun b => b <= 255) s).
  { apply Forall_forall. intros c Hc.
    rewrite forallb_forall in E. apply N.leb_le, E.
    by apply list_elem_of_In. }
  unfold atob.
  rewrite base64Encode_no_whitespace, stripPadding_encode, length_map.
  assert (Hl : (length (sextetsOf s) mod 4 =? 1)%nat = false).
  { apply Nat.eqb_neq.
    destruct (encoding_shape s) as [k [[_ Hl]|[[_ Hl]|[_ Hl]]]]; rewrite Hl.
    - replace (4 * k)%nat with (0 + k * 4)%nat by lia.
      by rewrite Nat.Div0.mod_add.
    - replace (4 * k + 3)%nat with (3 + k * 4)%nat by lia.
      by rewrite Nat.Div0.mod_add.
    - replace (4 * k + 2)%nat with (2 + k * 4)%nat by lia.
      by rewrite Nat.Div0.mod_add. }
  rewrite Hl, (mapM_decode_encode _ (sextetsOf_bound s Hs)).
  by rewrite base64Decode_sextetsOf.
Qed.

End Base64Props.

(** ** State manager: encryption of the persisted state *)

Module EncryptionProps.
Import StateManager Base64Props.
#[local] Open Scope N_scope.

Lemma lxor_mod_pow2 (a b n : N) :
  N.lxor a b mod 2 ^ n = N.lxor (a mod 2 ^ n) (b mod 2 ^ n).
Proof.
  apply N.bits_inj. intros m.
  destruct (N.lt_ge_cases m n) as [Hlt|Hge].
  - rewrite N.mod_pow2_bits_low, !N.lxor_spec by done.
    by rewrite !N.mod_pow2_bits_low.
  - rewrite N.mod_pow2_bits_high, N.lxor_spec by done.
    by rewrite !N.mod_pow2_bits_high.
Qed.

(** Combining twice with the same key unit gives the code unit back. *)
Lemma xor_twice (c k : N) :
  c < 65536 -> fromCharCode (N.lxor (fromCharCode (N.lxor c k)) k) = c.
Proof.
  intros Hc. unfold fromCharCode.
  change 65536 with (2 ^ 16) in *.
  rewrite (lxor_mod_pow2 (N.lxor c k mod 2 ^ 16) k 16).
  rewrite N.Div0.mod_mod, <- lxor_mod_pow2.
  rewrite N.lxor_assoc, N.lxor_nilpotent, N.lxor_0_r.
  by apply N.mod_small.
Qed.

Lemma xorWithKey_involutive (key s : jsstring) :
  Forall (fun c => c < 65536) s -> xorWithKey key (xorWithKey key s) = s.
Proof.
  unfold jsstring in *.
  intros Hs. apply list_eq. intros i. unfold xorWithKey.
  rewrite !list_lookup_imap.
  destruct (s !! i) as [c|] eqn:E; simpl; [|reflexivity]. f_equal.
  apply xor_twice. exact (Forall_lookup_1 _ s i c Hs E).
Qed.

Lemma btoa_accepts (s : jsstring) :
  Forall (fun c => c <= 255) s -> btoa s = Returned (base64Encode s).
Proof.
  intros H. unfold btoa.
  assert (E : forallb (fun c => c <=? 255) s = true).
  { apply forallb_forall. intros c Hc. apply N.leb_le.
    rewrite Forall_forall in H. by apply H, list_elem_of_In. }
  by rewrite E.
Qed.

Lemma btoa_rejects (s : jsstring) (c : N) :
  c ∈ s -> 255 < c -> btoa s = Thrown InvalidCharacterError.
Proof.
  intros Hin Hc. unfold btoa.
  destruct (forallb (fun c => c <=? 255) s) eqn:E; [|done].
  rewrite forallb_forall in E.
  specialize (E c (proj1 (list_elem_of_In _ _) Hin)).
  apply N.leb_le in E. lia.
Qed.

(** [encrypt] throws as soon as one combined code unit exceeds 255. *)
Lemma encrypt_rejects (key : jsstring) (data : json) (c : N) :
  key ≠ [] ->
  c ∈ xorWithKey key (JSON_stringify data) -> 255 < c ->
  encrypt key data = Thrown InvalidCharacterError.
Proof.
  intros Hk Hin Hc. unfold encrypt.
  destruct key as [|k0 key]; [done|].
  by rewrite (btoa_rejects _ c Hin Hc).
Qed.

Section RoundTrip.

Variable JSON_parse : jsstring -> outcome json.

(** The contract of the platform's parser on serialized values. *)
Hypothesis parse_stringify :
  forall data, JSON_parse (JSON_stringify data) = Returned data.

(** Where every combined code unit fits [btoa], [decrypt] gives back what
    [encrypt] was given. *)
Lemma decrypt_encrypt_within_latin1 (key : jsstring) (data : json) :
  Forall (fun c => c < 65536) (JSON_stringify data) ->
  Forall (fun c => c <= 255) (xorWithKey key (JSON_stringify data)) ->
  (stored ← encrypt key data; decrypt JSON_parse key stored)
  = Returned (Plain data).
Proof.
  intros Hw Hl. unfold encrypt.
  destruct key as [|k0 key]; [done|].
  rewrite (btoa_accepts _ Hl). simpl.
  rewrite (atob_btoa _ _ (btoa_accepts _ Hl)). simpl.
  rewrite (xorWithKey_involutive _ _ Hw).
  by rewrite parse_stringify.
Qed.

End RoundTrip.

(** C9 at the failing input: with the key ["secret"] the stored verdict
    state cannot be encrypted.  Its serialization contains the icon U+2728;
    combined with the key it exceeds 255, [btoa] raises
    [InvalidCharacterError], and the composition of [encrypt] and [decrypt]
    throws instead of returning the state, whatever [JSON.parse] does. *)
Theorem encrypt_fails_on_icon (JSON_parse : jsstring -> outcome json) :
  encrypt sampleKey verdictState = Thrown InvalidCharacterError /\
  (stored ← encrypt sampleKey verdictState; decrypt JSON_parse sampleKey stored)
  = Thrown InvalidCharacterError /\
  (stored ← encrypt sampleKey verdictState; decrypt JSON_parse sampleKey stored)
  ≠ Returned (Plain verdictState).
Proof.
  assert (H : encrypt sampleKey verdictState = Thrown InvalidCharacterError)
    by (vm_compute; reflexivity).
  rewrite H. simpl. repeat split. discriminate.
Qed.

(** An all-ASCII state and key stay within [btoa]'s range. *)
Example encrypt_ascii :
  encrypt (ofString "k") (JString (ofString "abc"))
  = Returned (Encrypted (ofString "SQoJCEk=")).
Proof. vm_compute. reflexivity. Qed.

End EncryptionProps.

(** ** Council manager: loading, views and resets *)

Module CouncilViewsProps.
Import CouncilManager CouncilManagerProps CouncilViews.

(** *** What [processCouncils] stores *)

Lemma processCouncils_fold (data : list councilData) :
  processCouncils data = fold_left processCouncils_step data ∅.
Proof. reflexivity. Qed.

Lemma fold_step_stored (data l : list councilData) (m : gmap string council) :
  (forall d, d ∈ l -> d ∈ data) ->
  map_Forall (stored_from data) m ->
  map_Forall (stored_from data) (fold_left processCouncils_step l m).
Proof.
  revert m. induction l as [|d l IH]; intros m Hsub Hm; [done|].
  simpl. apply IH.
  - intros d' Hd'. apply Hsub. by right.
  - unfold processCouncils_step.
    destruct (validateCouncil d) eqn:Hv; [|done].
    destruct (cd_id d) as [i|] eqn:Hi; [|done].
    apply map_Forall_insert_2; [|done].
    repeat split; try done.
    exists d. repeat split; try done. apply Hsub. by left.
Qed.

Lemma fold_step_keeps_keys (l : list councilData) (m : gmap string council) (k : string) :
  is_Some (m !! k) -> is_Some (fold_left processCouncils_step l m !! k).
Proof.
  revert m. induction l as [|d l IH]; intros m Hk; [done|].
  simpl. apply IH. unfold processCouncils_step.
  destruct (validateCouncil d); [|done].
  destruct (cd_id d) as [i|]; [|done].
  destruct (decide (i = k)) as [->|Hne].
  - rewrite lookup_insert_eq. by eexists.
  - by rewrite lookup_insert_ne.
Qed.

Lemma fold_step_adds_valid (l : list councilData) (m : gmap string council)
    (d : councilData) (k : string) :
  d ∈ l -> validateCouncil d = true -> cd_id d = Some k ->
  is_Some (fold_left processCouncils_step l m !! k).
Proof.
  revert m. induction l as [|d' l IH]; intros m Hin Hv Hk.
  - by apply not_elem_of_nil in Hin.
  - simpl. apply elem_of_cons in Hin as [<-|Hin].
    + apply fold_step_keeps_keys. unfold processCouncils_step.
      rewrite Hv, Hk, lookup_insert_eq. by eexists.
    + by apply IH.
Qed.

(** X1: [processCouncils] keeps exactly the entries that pass validation: a
    stored council sits under its own id, starts with count 0, no last
    reaction and an empty history, and comes from a valid entry of the data
    with that id and tolerance; every valid entry's id is stored; an id that
    no valid entry carries is not. *)
Theorem processCouncils_keeps_valid_entries (data : list councilData) (k : string) :
  (forall c, processCouncils data !! k = Some c -> stored_from data k c) /\
  (forall d, d ∈ data -> validateCouncil d = true -> cd_id d = Some k ->
     is_Some (processCouncils data !! k)) /\
  ((forall d, d ∈ data -> cd_id d = Some k -> validateCouncil d = false) ->
     processCouncils data !! k = None).
Proof.
  rewrite processCouncils_fold.
  assert (Hall : map_Forall (stored_from data) (fold_left processCouncils_step data ∅)).
  { apply fold_step_stored; [done|]. apply map_Forall_empty. }
  split; [|split].
  - intros c Hc. by apply (Hall k c).
  - intros d Hin Hv Hk. by eapply fold_step_adds_valid.
  - intros Hinv.
    destruct (fold_left processCouncils_step data ∅ !! k) as [c|] eqn:Hc; [|done].
    destruct (Hall k c Hc) as (_ & _ & _ & _ & d & Hin & Hv & Hk & _).
    rewrite (Hinv d Hin Hk) in Hv. discriminate Hv.
Qed.

Lemma processCouncils_keeps_valid_entries_witness :
  is_Some (processCouncils builtInCouncils !! "religious-order"%string) /\
  processCouncils
    [{| cd_id := Some "nameless"%string; cd_name := None; cd_icon := Some "x"%string;
        cd_description := Some "no name"%string; cd_tolerance := Some 1 |}]
    !! "nameless"%string = None.
Proof.
  split.
  - destruct (processCouncils_keeps_valid_entries builtInCouncils "religious-order")
      as (_ & H & _).
    apply (H (builtIn "religious-order" "Religious Order" "🕊️"
                "Monastic orders dedicated to spiritual contemplation and service." 4));
      [|reflexivity|reflexivity].
    apply list_elem_of_In. simpl. do 5 right. by left.
  - destruct (processCouncils_keeps_valid_entries
                [{| cd_id := Some "nameless"%string; cd_name := None;
                    cd_icon := Some "x"%string;
                    cd_description := Some "no name"%string;
                    cd_tolerance := Some 1 |}] "nameless") as (_ & _ & H).
    apply H. intros d Hd _.
    apply list_elem_of_singleton in Hd. by subst d.
Defined.

(** *** What [processAnswer] leaves alone *)

Lemma councils_kept_refl (m : gmap string council) : councils_kept m m [].
Proof. intros k. destruct (m !! k) as [c|] eqn:E; [|done]. by exists c. Qed.

Lemma councils_kept_trans (m1 m2 m3 : gmap string council) (n1 n2 : list string) :
  councils_kept m1 m2 n1 -> councils_kept m2 m3 n2 ->
  councils_kept m1 m3 (n1 ++ n2).
Proof.
  intros H12 H23 k. specialize (H12 k). specialize (H23 k).
  destruct (m1 !! k) as [c|].
  - destruct H12 as (c2 & E2 & Hi & Ht & Hsame). rewrite E2 in H23.
    destruct H23 as (c3 & E3 & Hi' & Ht' & Hsame').
    exists c3. repeat split; [done|congruence|congruence|].
    intros Hn. rewrite Hsame', Hsame; [done| |];
      intros Hin; apply Hn, elem_of_app; auto.
  - by rewrite H12 in H23.
Qed.

Lemma processEntry_council (q : question) (a : answer) (acc : loop_acc)
    (cid : string) (rm : gmap string Q) (c : council) :
  acc_councils acc !! cid = Some c ->
  acc_councils (processEntry q a acc (cid, rm))
  = <[cid := push_history q a (reaction_score q a rm)
               (processCouncilReaction (acc_offended acc) c
                  (reaction_score q a rm)).1]> (acc_councils acc).
Proof. intros Hc. unfold processEntry. by rewrite Hc. Qed.

Lemma processEntry_unknown (q : question) (a : answer) (acc : loop_acc)
    (cid : string) (rm : gmap string Q) :
  acc_councils acc !! cid = None -> processEntry q a acc (cid, rm) = acc.
Proof. intros Hc. unfold processEntry. by rewrite Hc. Qed.

Lemma processEntry_kept (q : question) (a : answer) (acc : loop_acc)
    (entry : string * gmap string Q) :
  councils_kept (acc_councils acc) (acc_councils (processEntry q a acc entry))
    [entry.1].
Proof.
  destruct entry as [cid rm]. cbn [fst].
  destruct (acc_councils acc !! cid) as [c|] eqn:Hc.
  - rewrite (processEntry_council _ _ _ _ _ _ Hc). intros k.
    destruct (decide (cid = k)) as [<-|Hne].
    + rewrite Hc, lookup_insert_eq. eexists. repeat split; try done.
      intros Hn. exfalso. apply Hn. by apply list_elem_of_singleton.
    + rewrite lookup_insert_ne by done.
      destruct (acc_councils acc !! k) as [d|]; [|done]. by exists d.
  - rewrite (processEntry_unknown _ _ _ _ _ Hc). intros k.
    destruct (acc_councils acc !! k) as [d|]; [|done]. by exists d.
Qed.

Lemma fold_processEntry_kept (q : question) (a : answer)
    (entries : list (string * gmap string Q)) (acc : loop_acc) :
  councils_kept (acc_councils acc)
    (acc_councils (fold_left (processEntry q a) entries acc)) entries.*1.
Proof.
  revert acc. induction entries as [|e entries IH]; intros acc; simpl.
  - apply councils_kept_refl.
  - apply (councils_kept_trans _ (acc_councils (processEntry q a acc e)) _
             [e.1] (entries.*1)); [apply processEntry_kept|apply IH].
Qed.

Lemma processAnswer_kept (st : state) (q : question) (a : answer) :
  councils_kept (councils st) (councils (processAnswer st q a).2)
    (default [] (q_councils q)).*1.
Proof.
  unfold processAnswer. destruct (q_councils q) as [entries|]; simpl.
  - apply (fold_processEntry_kept q a entries
             {| acc_councils := councils st;
                acc_offended := offendedCouncils st;
                acc_reactions := [];
                acc_newly := [] |}).
  - apply councils_kept_refl.
Qed.

(** A manager made from councils whose tolerances are all positive starts
    with no council at its tolerance; every [processAnswer] call then keeps
    each council that has reached its tolerance in the offended set. *)
Lemma positive_tolerances_recorded (data : list councilData) :
  (forall d t, d ∈ data -> cd_tolerance d = Some t -> 0 < t) ->
  tolerance_recorded (processCouncils data) [].
Proof.
  intros Hpos. rewrite processCouncils_fold.
  assert (Hall : map_Forall (stored_from data) (fold_left processCouncils_step data ∅)).
  { apply fold_step_stored; [done|]. apply map_Forall_empty. }
  intros k c Hc Hr. exfalso.
  destruct (Hall k c Hc) as (_ & Hcount & _ & _ & d & Hin & _ & _ & Htol).
  rewrite Hcount, Htol in Hr. unfold reached_tolerance in Hr.
  destruct (cd_tolerance d) as [t|] eqn:Ht; [|done].
  apply num_le_spec in Hr. specialize (Hpos d t Hin Ht).
  change (inject_Z 0) with 0 in Hr. lra.
Qed.

(** X2: [processAnswer] neither adds nor drops a council and never changes an id
    or a tolerance; a council that the question's [councils] object does not
    name is left exactly as it was. *)
Theorem processAnswer_touches_named_councils_only (st : state) (q : question)
    (a : answer) (k : string) :
  match councils st !! k with
  | Some c =>
      exists c', councils (processAnswer st q a).2 !! k = Some c' /\
        id c' = id c /\ tolerance c' = tolerance c /\
        (k ∉ (default [] (q_councils q)).*1 -> c' = c)
  | None => councils (processAnswer st q a).2 !! k = None
  end.
Proof. apply (processAnswer_kept st q a k). Qed.

(** *** Reset *)

Lemma fmap_reset_insert (m : gmap string council) (k : string) (c c' : council) :
  m !! k = Some c -> id c' = id c -> tolerance c' = tolerance c ->
  reset_council <$> <[k := c']> m = reset_council <$> m.
Proof.
  intros Hk Hi Ht. apply map_eq. intros j.
  rewrite !lookup_fmap. destruct (decide (k = j)) as [<-|Hne].
  - rewrite lookup_insert_eq, Hk. simpl. f_equal.
    unfold reset_council. by rewrite Hi, Ht.
  - by rewrite lookup_insert_ne.
Qed.

Lemma fmap_reset_kept (m m' : gmap string council) (named : list string) :
  councils_kept m m' named -> reset_council <$> m' = reset_council <$> m.
Proof.
  intros H. apply map_eq. intros k. rewrite !lookup_fmap. specialize (H k).
  destruct (m !! k) as [c|].
  - destruct H as (c' & -> & Hi & Ht & _). simpl. f_equal.
    unfold reset_council. by rewrite Hi, Ht.
  - by rewrite H.
Qed.

Lemma reset_processAnswer (st : state) (q : question) (a : answer) :
  reset (processAnswer st q a).2 = reset st.
Proof.
  unfold reset. f_equal.
  apply (fmap_reset_kept _ _ (default [] (q_councils q)).*1).
  apply processAnswer_kept.
Qed.

(** X3: [reset] forgets a session completely: resetting after any sequence of
    answers gives the same manager as resetting before it, with no council
    offended and every council at count 0 with no last reaction and no
    history. *)
Theorem reset_forgets_session (st : state) (calls : list (question * answer)) :
  reset (runAnswers st calls).2 = reset st /\
  offendedCouncils (reset st) = [] /\
  (forall k c, councils (reset st) !! k = Some c ->
     offendedCount c = 0%Z /\ lastReaction c = None /\ reactionHistory c = [] /\
     exists c0, councils st !! k = Some c0 /\ id c = id c0 /\
                tolerance c = tolerance c0).
Proof.
  split; [|split; [done|]].
  - revert st. induction calls as [|[q a] rest IH]; intros st; [done|].
    rewrite runAnswers_cons. simpl. rewrite IH. apply reset_processAnswer.
  - intros k c. simpl. rewrite lookup_fmap.
    destruct (councils st !! k) as [c0|]; [|done].
    simpl. intros [= <-]. repeat split. by exists c0.
Qed.

(** *** Well-formedness and the statistics *)

Lemma processEntry_well_formed (q : question) (a : answer) (acc : loop_acc)
    (entry : string * gmap string Q) :
  map_Forall (fun k c => id c = k) (acc_councils acc) ->
  NoDup (acc_offended acc) ->
  (forall k, k ∈ acc_offended acc -> is_Some (acc_councils acc !! k)) ->
  map_Forall (fun k c => id c = k) (acc_councils (processEntry q a acc entry)) /\
  NoDup (acc_offended (processEntry q a acc entry)) /\
  (forall k, k ∈ acc_offended (processEntry q a acc entry) ->
     is_Some (acc_councils (processEntry q a acc entry) !! k)).
Proof.
  intros Hid Hnd Hdom. destruct entry as [cid rm].
  destruct (acc_councils acc !! cid) as [c|] eqn:Hc.
  - destruct (processEntry_found q a acc cid rm c Hc) as (_ & Ho & _).
    rewrite (processEntry_council _ _ _ _ _ _ Hc), Ho.
    split; [|split].
    + apply map_Forall_insert_2; [|done]. simpl. by apply (Hid cid c).
    + destruct (_ && negb _) eqn:Hf; [|done].
      apply andb_true_iff in Hf as [_ Hn].
      apply negb_true_iff, set_has_false in Hn.
      apply NoDup_app. repeat split; [done| |apply NoDup_singleton].
      intros x Hx Hx'. apply list_elem_of_singleton in Hx'. by subst x.
    + intros k Hk.
      destruct (decide (cid = k)) as [<-|Hne];
        [rewrite lookup_insert_eq; by eexists|].
      rewrite lookup_insert_ne by done. apply Hdom.
      destruct (_ && negb _); [|done].
      apply elem_of_app in Hk as [Hk|Hk]; [done|].
      apply list_elem_of_singleton in Hk. by subst k.
  - by rewrite (processEntry_unknown _ _ _ _ _ Hc).
Qed.

Lemma processAnswer_well_formed (st : state) (q : question) (a : answer) :
  well_formed st -> well_formed (processAnswer st q a).2.
Proof.
  unfold well_formed, processAnswer.
  destruct (q_councils q) as [entries|]; [|done]. simpl.
  set (acc0 := {| acc_councils := councils st;
                  acc_offended := offendedCouncils st;
                  acc_reactions := [];
                  acc_newly := [] |}).
  change (councils st) with (acc_councils acc0).
  change (offendedCouncils st) with (acc_offended acc0).
  generalize acc0. clear acc0.
  induction entries as [|e entries IH]; intros acc (H1 & H2 & H3); [done|].
  simpl. apply IH. by apply processEntry_well_formed.
Qed.

Lemma runAnswers_well_formed (calls : list (question * answer)) (st : state) :
  well_formed st -> well_formed (runAnswers st calls).2.
Proof.
  revert st. induction calls as [|[q a] rest IH]; intros st H; [done|].
  rewrite runAnswers_cons. simpl. by apply IH, processAnswer_well_formed.
Qed.

Lemma initial_well_formed : well_formed initial.
Proof.
  split; [|split].
  - apply (bool_decide_unpack _). vm_compute. exact I.
  - apply NoDup_nil_2.
  - intros k Hk. by apply not_elem_of_nil in Hk.
Qed.

Lemma filter_by_key (off : list string) (l : list (string * council)) :
  Forall (fun p => id p.2 = p.1) l ->
  filter (fun c => set_has (id c) off = false) l.*2
  = (filter (fun p => set_has p.1 off = false) l).*2.
Proof.
  induction 1 as [|[k c] l Hp _ IH]; [done|].
  simpl in Hp. rewrite fmap_cons. simpl.
  rewrite !filter_cons. simpl. rewrite Hp.
  destruct (decide (set_has k off = false)); simpl; by rewrite IH.
Qed.

Lemma offended_entries (m : gmap string council) (off : list string) :
  NoDup off -> (forall k, k ∈ off -> is_Some (m !! k)) ->
  length (filter (fun p => ¬ set_has p.1 off = false) (map_to_list m))
  = length off.
Proof.
  intros Hnd Hdom.
  rewrite <- (length_fmap fst).
  apply Permutation_length, NoDup_Permutation; [|done|].
  - apply (sublist_NoDup _ (map_to_list m).*1); [apply NoDup_fst_map_to_list|].
    apply fmap_sublist, sublist_filter.
  - intros k. split.
    + intros Hk. apply list_elem_of_fmap in Hk as ([k' c] & -> & Hin).
      apply list_elem_of_filter in Hin as [Hq _]. simpl in *.
      destruct (set_has k' off) eqn:E; [by apply set_has_true|done].
    + intros Hk. destruct (Hdom k Hk) as [c Hc].
      apply list_elem_of_fmap. exists (k, c). split; [done|].
      apply list_elem_of_filter. split.
      * simpl. apply set_has_true in Hk. by rewrite Hk.
      * by apply elem_of_map_to_list.
Qed.

Lemma active_count (st : state) :
  well_formed st ->
  (length (getActiveCouncils st) + length (offendedCouncils st))%nat
  = size (councils st).
Proof.
  intros (Hid & Hnd & Hdom). unfold getActiveCouncils, getAllCouncils.
  rewrite filter_by_key.
  - rewrite length_fmap, <- (offended_entries (councils st)) by done.
    rewrite <- length_app, <- length_map_to_list.
    apply Permutation_length, filter_app_complement.
  - apply Forall_forall. intros [k c] Hin. simpl.
    apply elem_of_map_to_list in Hin. by apply (Hid k c).
Qed.

(** X4: Starting from a well-formed manager, any session keeps it well formed
    (councils under their own ids, the offended set duplicate-free and made
    of known councils), and the [active] figure of [getCouncilStats], a
    difference of sizes, is the number of councils [getActiveCouncils]
    returns. *)
Theorem stats_count_active_councils (st : state) (calls : list (question * answer)) :
  well_formed st ->
  well_formed (runAnswers st calls).2 /\
  active (getCouncilStats (runAnswers st calls).2)
  = Z.of_nat (length (getActiveCouncils (runAnswers st calls).2)) /\
  (offended (getCouncilStats (runAnswers st calls).2)
   <= total (getCouncilStats (runAnswers st calls).2))%nat.
Proof.
  intros Hwf. pose proof (runAnswers_well_formed calls st Hwf) as Hwf'.
  pose proof (active_count _ Hwf') as Hc.
  split; [done|]. simpl. split; lia.
Qed.

Lemma stats_count_active_councils_witness :
  active (getCouncilStats
            (runAnswers initial [(scienceQuestion 3, ABool false)]).2)
  = Z.of_nat (length (getActiveCouncils
                        (runAnswers initial [(scienceQuestion 3, ABool false)]).2)).
Proof.
  apply (stats_count_active_councils initial [(scienceQuestion 3, ABool false)]).
  apply initial_well_formed.
Defined.

(** *** Standing *)

Lemma standing_of_mono (n m : nat) :
  (n <= m)%nat -> (standing_rank (standing_of n) <= standing_rank (standing_of m))%nat.
Proof.
  intros H. unfold standing_of.
  destruct (Nat.eqb_spec n 0), (Nat.eqb_spec m 0),
           (Nat.leb_spec n 1), (Nat.leb_spec m 1),
           (Nat.leb_spec n 2), (Nat.leb_spec m 2),
           (Nat.leb_spec n 3), (Nat.leb_spec m 3); simpl; lia.
Qed.

(** X5: During a session the standing with the councils never improves: after
    any sequence of answers it is at least as bad as before; it is
    [Excellent] exactly while no council is offended, and [reset] brings it
    back to [Excellent]. *)
Theorem standing_never_improves (st : state) (calls : list (question * answer)) :
  (standing_rank (getCurrentStanding st)
   <= standing_rank (getCurrentStanding (runAnswers st calls).2))%nat /\
  (getCurrentStanding st = Excellent <-> offendedCouncils st = []) /\
  getCurrentStanding (reset st) = Excellent.
Proof.
  split; [|split; [|done]].
  - change (getCurrentStanding st) with (standing_of (length (offendedCouncils st))).
    change (getCurrentStanding (runAnswers st calls).2)
      with (standing_of (length (offendedCouncils (runAnswers st calls).2))).
    apply standing_of_mono.
    destruct (runAnswers_appends calls st) as (-> & _).
    rewrite length_app. lia.
  - unfold getCurrentStanding.
    destruct (offendedCouncils st) as [|x [|y [|z [|w l]]]]; simpl; split; done.
Qed.

(** *** Severity of a reaction *)

Lemma Math_max_right (x y : Q) : y <= Math_max x y.
Proof.
  unfold Math_max. destruct (Qle_bool x y) eqn:E; [apply Qle_refl|].
  apply Qlt_le_weak. apply Qnot_le_lt. intros H.
  apply Qle_bool_iff in H. congruence.
Qed.

(** X6: A reaction that reports the council as offended is of severity low
    exactly when its score is not a number (the value a reaction map
    inherits under the answer's key): for a numeric score the count has
    reached the tolerance, which alone contributes 1 to the total, so the
    severity is never low; for a score that is not a number the total is
    [NaN], every comparison fails, and the severity is low. *)
Theorem offended_reaction_is_not_low (offended : list string) (c : council)
    (score : scoreValue) :
  r_offended (processCouncilReaction offended c score).2 = true ->
  (r_severity (processCouncilReaction offended c score).2 = Low <->
   exists key, score = Inherited key).
Proof.
  simpl. unfold reached_tolerance, calculateSeverity. simpl.
  destruct (tolerance c) as [t|]; [|done].
  intros Hr. apply num_le_spec in Hr.
  destruct score as [v|key].
  2:{ split; [by exists key|done]. }
  set (count' := next_count (offendedCount c) (Number v)) in *.
  assert (H1 : 1 <= Qabs v + Math_max 0 (inject_Z count' - t + 1)).
  { pose proof (Qabs_nonneg v) as Ha.
    pose proof (Math_max_right 0 (inject_Z count' - t + 1)) as Hm.
    lra. }
  apply num_le_spec in H1.
  split; [|by intros [key ?]].
  repeat case_match; done || congruence.
Qed.

Lemma offended_reaction_is_not_low_witness :
  r_severity (processCouncilReaction [] (reformation 2) (Number (-1))).2 ≠ Low /\
  r_severity (processCouncilReaction [] (reformation 3) (Inherited "constructor")).2
    = Low.
Proof.
  split.
  - intros H.
    apply (offended_reaction_is_not_low [] (reformation 2) (Number (-1))) in H
      as [key Hkey]; [discriminate Hkey|reflexivity].
  - apply (offended_reaction_is_not_low [] (reformation 3) (Inherited "constructor"));
      [reflexivity|by exists "constructor"%string].
Defined.

(** Such a score arises in [processAnswer]: for a multiple-choice question
    with an option of value [constructor], chosen by the player,
    [reactionMap[answer]] is the inherited constructor whatever the map
    holds; a council at its tolerance is then reported offended with
    severity low. *)
Example inherited_score_from_answer :
  reaction_score constructorQuestion (AStr "constructor")
    {[ "reform"%string := -1 ]} = Inherited "constructor" /\
  (exists r,
     councilReactions
       (processAnswer
          {| councils := {[ "protestant-reformation"%string := reformation 3 ]};
             offendedCouncils := ["protestant-reformation"%string];
             councilReactions := ∅ |}
          constructorQuestion (AStr "constructor")).2 !! Some "q3"%string
     = Some [("protestant-reformation"%string, r)] /\
     r_score r = Inherited "constructor" /\
     r_offended r = true /\
     r_severity r = Low).
Proof.
  split; [vm_compute; reflexivity|].
  eexists. split; [vm_compute; reflexivity|]. by split.
Qed.

(** *** Notifications *)

Lemma removeNotification_length (l : list notification) (i : string) :
  (length (removeNotification l i) <= length l)%nat.
Proof.
  induction l as [|n l IH]; simpl; [lia|].
  destruct (String.eqb (n_id n) i); simpl; lia.
Qed.

Lemma applyOp_bounded (cfg : notificationConfig) (l : list notification)
    (op : notificationOp) (bound : Z) :
  (maxConcurrentNotifications cfg <= bound)%Z ->
  (Z.of_nat (length l) <= bound)%Z ->
  (Z.of_nat (length (applyOp cfg l op)) <= bound)%Z.
Proof.
  intros Hm Hl. destruct op as [c sev now later|i]; simpl.
  - unfold showCouncilNotification.
    destruct (negb (enableNotifications cfg)); [done|].
    destruct (Z.leb_spec (maxConcurrentNotifications cfg) (Z.of_nat (length l)));
      [done|].
    rewrite length_app. simpl. lia.
  - pose proof (removeNotification_length l i). lia.
Qed.

(** X7: However notifications are shown and removed, starting with none, there
    are never more active than [maxConcurrentNotifications] (and none when
    that setting is not positive); with notifications disabled there are
    never any. *)
Theorem notifications_stay_bounded (cfg : notificationConfig)
    (ops : list notificationOp) :
  (Z.of_nat (length (fold_left (applyOp cfg) ops []))
   <= Z.max 0 (maxConcurrentNotifications cfg))%Z /\
  (enableNotifications cfg = false -> fold_left (applyOp cfg) ops [] = []).
Proof.
  split.
  - assert (H : forall l, (Z.of_nat (length l) <= Z.max 0 (maxConcurrentNotifications cfg))%Z ->
               (Z.of_nat (length (fold_left (applyOp cfg) ops l))
                <= Z.max 0 (maxConcurrentNotifications cfg))%Z).
    { induction ops as [|op ops IH]; intros l Hl; [done|].
      simpl. apply IH. apply applyOp_bounded; [lia|done]. }
    apply H. simpl. lia.
  - intros Hd. induction ops as [|op ops IH]; [done|].
    simpl. destruct op as [c sev now later|i]; simpl; [|done].
    unfold showCouncilNotification. by rewrite Hd.
Qed.

Lemma notifications_stay_bounded_witness :
  fold_left (applyOp {| enableNotifications := false; maxConcurrentNotifications := 3 |})
    [Show (reformation 3) "high" 0 1; Remove "x"] [] = [].
Proof.
  apply (notifications_stay_bounded
           {| enableNotifications := false; maxConcurrentNotifications := 3 |}
           [Show (reformation 3) "high" 0 1; Remove "x"]).
  reflexivity.
Defined.

(** *** The severity statistics *)

Lemma bySeverity_fold (cs : gmap string council) (off : list string)
    (by_sev : gmap string counter) (key : string) :
  key ≠ "undefined"%string ->
  fold_left
    (fun by_sev k =>
       match cs !! k with
       | Some c =>
           match lastReaction c with
           | Some r =>
               let key := lastReactionSeverityKey r in
               <[key := increment (by_sev !! key)]> by_sev
           | None => by_sev
           end
       | None => by_sev
       end) off by_sev !! key
  = by_sev !! key.
Proof.
  intros Hk. revert by_sev. induction off as [|k off IH]; intros by_sev; [done|].
  simpl. rewrite IH.
  destruct (cs !! k) as [c|]; [|done].
  destruct (lastReaction c) as [r|]; [|done].
  unfold lastReactionSeverityKey. by rewrite lookup_insert_ne.
Qed.

(** X8: [getCouncilStats] never counts a council under a severity: whatever the
    state, its [low], [medium], [high] and [severe] counters are 0, because
    the stored last reactions carry no severity. *)
Theorem stats_never_count_a_severity (st : state) :
  bySeverity (getCouncilStats st) !! "low"%string = Some (Count 0) /\
  bySeverity (getCouncilStats st) !! "medium"%string = Some (Count 0) /\
  bySeverity (getCouncilStats st) !! "high"%string = Some (Count 0) /\
  bySeverity (getCouncilStats st) !! "severe"%string = Some (Count 0).
Proof.
  unfold getCouncilStats. simpl.
  repeat split; by rewrite bySeverity_fold.
Qed.

End CouncilViewsProps.

(** ** Question manager: serving and answering *)

Module QuestionFlowProps.
Import QuestionManager QuestionFlow ShuffleProps.

Lemma scan_spec (answered : list string) (rest : list question) : forall idx,
  (idx <= (scan answered rest idx).2 <= idx + length rest)%nat /\
  (forall j q, (j < (scan answered rest idx).2 - idx)%nat -> rest !! j = Some q ->
     isAnswered answered q = true) /\
  match (scan answered rest idx).1 with
  | Some q => rest !! ((scan answered rest idx).2 - idx)%nat = Some q /\
              isAnswered answered q = false
  | None => (scan answered rest idx).2 = (idx + length rest)%nat
  end.
Proof.
  induction rest as [|q rest IH]; intros idx; simpl.
  - split; [lia|]. split; [|lia]. intros j q' Hj. lia.
  - destruct (isAnswered answered q) eqn:Hq.
    + destruct (IH (S idx)) as (Hb & Hskip & Hres).
      split; [lia|]. split.
      * intros j q' Hj Hl. destruct j as [|j]; simpl in Hl.
        -- by injection Hl as <-.
        -- apply (Hskip j q'); [lia|done].
      * destruct (scan answered rest (S idx)).1 as [q'|].
        -- destruct Hres as [Hl Hu]. split; [|done].
           replace ((scan answered rest (S idx)).2 - idx)%nat
             with (S ((scan answered rest (S idx)).2 - S idx)) by lia.
           done.
        -- lia.
    + simpl. split; [lia|]. split; [intros j q' Hj; lia|].
      rewrite Nat.sub_diag. done.
Qed.

Lemma scan_restart (answered : list string) (rest : list question) : forall idx,
  scan answered (drop ((scan answered rest idx).2 - idx) rest)
    (scan answered rest idx).2 = scan answered rest idx.
Proof.
  induction rest as [|q rest IH]; intros idx; simpl.
  - by rewrite drop_nil.
  - destruct (isAnswered answered q) eqn:Hq.
    + pose proof (scan_spec answered rest (S idx)) as (Hb & _).
      replace ((scan answered rest (S idx)).2 - idx)%nat
        with (S ((scan answered rest (S idx)).2 - S idx)) by lia.
      simpl. apply IH.
    + simpl. rewrite Nat.sub_diag. simpl. by rewrite Hq.
Qed.

(** X9: [getNextQuestion] returns the first question at or after the current
    index that has not been answered: it changes nothing but the index, the
    questions it skips are answered, the question it returns is the one at
    the new index, the one [getCurrentQuestion] then returns, and is not
    answered, it returns nothing only when every
    question from the current index on is answered, and asking again without
    answering returns the same question. *)
Theorem getNextQuestion_serves_first_unanswered (st : state) :
  questions (getNextQuestion st).2 = questions st /\
  answeredQuestions (getNextQuestion st).2 = answeredQuestions st /\
  (currentQuestionIndex st <= currentQuestionIndex (getNextQuestion st).2)%nat /\
  (forall j q,
     (currentQuestionIndex st <= j < currentQuestionIndex (getNextQuestion st).2)%nat ->
     questions st !! j = Some q -> isAnswered (answeredQuestions st) q = true) /\
  (forall q, (getNextQuestion st).1 = Some q ->
     getCurrentQuestion (getNextQuestion st).2 = Some q /\
     isAnswered (answeredQuestions st) q = false) /\
  ((getNextQuestion st).1 = None ->
     forall j q, (currentQuestionIndex st <= j)%nat -> questions st !! j = Some q ->
       isAnswered (answeredQuestions st) q = true) /\
  getNextQuestion (getNextQuestion st).2 = getNextQuestion st.
Proof.
  unfold getCurrentQuestion, getNextQuestion.
  destruct (Nat.eqb_spec (length (questions st)) 0) as [Hz|Hnz].
  { simpl. apply length_zero_iff_nil in Hz.
    split; [done|]. split; [done|]. split; [lia|].
    split; [intros j q Hj; lia|]. split; [done|].
    split; [intros _ j q _; by rewrite Hz|].
    by rewrite Hz. }
  set (idx := currentQuestionIndex st).
  set (rest := drop idx (questions st)).
  destruct (scan_spec (answeredQuestions st) rest idx) as (Hb & Hskip & Hres).
  simpl. fold idx rest.
  set (idx' := (scan (answeredQuestions st) rest idx).2) in *.
  assert (Hlook : forall j, rest !! j = questions st !! (idx + j)%nat).
  { intros j. unfold rest. by rewrite lookup_drop. }
  split; [done|]. split; [done|]. split; [lia|]. split; [|split; [|split]].
  - intros j q Hj Hq. apply (Hskip (j - idx)%nat q); [lia|].
    rewrite Hlook. by replace (idx + (j - idx))%nat with j by lia.
  - intros q Hq. rewrite Hq in Hres. destruct Hres as [Hl Hu].
    split; [|done]. rewrite Hlook in Hl.
    by replace (idx + (idx' - idx))%nat with idx' in Hl by lia.
  - intros Hn j q Hj Hq. rewrite Hn in Hres.
    apply (Hskip (j - idx)%nat q).
    + assert (j < length (questions st))%nat by (by eapply lookup_lt_Some).
      assert (length rest = length (questions st) - idx)%nat
        by (unfold rest; by rewrite length_drop).
      lia.
    + rewrite Hlook. by replace (idx + (j - idx))%nat with j by lia.
  - destruct (Nat.eqb_spec (length (questions st)) 0) as [Hz|_]; [done|].
    replace (drop idx' (questions st)) with (drop (idx' - idx) rest).
    + unfold idx'. rewrite scan_restart. done.
    + unfold rest. rewrite drop_drop. f_equal. lia.
Qed.

Lemma getNextQuestion_next (st : state) :
  match (getNextQuestion st).1 with
  | Some q =>
      questions (getNextQuestion st).2 = questions st /\
      answeredQuestions (getNextQuestion st).2 = answeredQuestions st /\
      (q ∈ questions st) /\ isAnswered (answeredQuestions st) q = false
  | None => True
  end.
Proof.
  unfold getNextQuestion.
  destruct (Nat.eqb_spec (length (questions st)) 0) as [Hz|Hnz]; [done|].
  simpl.
  pose proof (scan_spec (answeredQuestions st)
                (drop (currentQuestionIndex st) (questions st))
                (currentQuestionIndex st)) as (_ & _ & Hres).
  destruct (scan _ _ _).1 as [q|]; [|done].
  destruct Hres as [Hl Hu]. repeat split; try done.
  rewrite lookup_drop in Hl. by eapply list_elem_of_lookup_2.
Qed.

Lemma isAnswered_grows (old new : list string) (q : question) :
  old ⊆ new -> isAnswered new q = false -> isAnswered old q = false.
Proof.
  unfold isAnswered. intros Hsub. destruct (q_id q) as [i|]; [|done].
  rewrite !bool_decide_eq_false. intros Hn Ho. apply Hn, Hsub, Ho.
Qed.

Lemma processAnswer_recorded (rand : random_source) (st : state) (q : question)
    (a : option answer) (r : answerResult) (st' : state) :
  processAnswer rand st q a = Recorded r st' ->
  exists i, q_id q = Some i /\ (i ∈ answeredQuestions st') /\
    (answeredQuestions st ⊆ answeredQuestions st') /\
    (forall k, k ∈ answeredQuestions st' -> (k ∈ answeredQuestions st) \/ k = i) /\
    questions st' = questions st /\
    currentQuestionIndex st' = currentQuestionIndex st.
Proof.
  unfold processAnswer. destruct a as [ans|]; [|done].
  destruct (q_id q) as [i|]; [|done].
  intros [= <- <-]. exists i. simpl. split; [done|].
  case_bool_decide as Hin.
  - repeat split; try done. intros k Hk. by left.
  - split; [set_solver|]. split; [set_solver|]. split; [|done].
    intros k Hk. apply elem_of_app in Hk as [Hk|Hk]; [by left|].
    apply list_elem_of_singleton in Hk. by right.
Qed.

(** X10: Over a whole run of the quiz, in which each answer is given to the
    question [getNextQuestion] served, no question id is served twice, and
    every question served is one of the loaded questions that had not been
    answered when the run began. *)
Theorem play_serves_no_question_twice (rand : random_source)
    (answers : list answer) (st : state) :
  NoDup (q_id <$> play rand answers st) /\
  (forall q, q ∈ play rand answers st ->
     (q ∈ questions st) /\ isAnswered (answeredQuestions st) q = false).
Proof.
  revert st.
  induction answers as [|a rest IH]; intros st; cbn [play].
  - split; [constructor|]. intros q Hq. by apply elem_of_nil in Hq.
  - pose proof (getNextQuestion_next st) as Hnext.
    destruct (getNextQuestion st) as [[q|] st1] eqn:Hg; cbn [fst snd] in Hnext.
    2:{ split; [constructor|]. intros q Hq. by apply elem_of_nil in Hq. }
    destruct Hnext as (Hqs & Hans & Hin & Hun).
    assert (Hone : NoDup (q_id <$> [q]) /\
              (forall q', q' ∈ [q] ->
                 (q' ∈ questions st) /\
                 isAnswered (answeredQuestions st) q' = false)).
    { split; [apply NoDup_singleton|].
      intros q' Hq'. apply list_elem_of_singleton in Hq' as ->. done. }
    destruct (processAnswer rand st1 q (Some a)) as [r st2| |] eqn:Hp; try done.
    apply processAnswer_recorded in Hp as (i & Hi & Hi2 & Hsub & _ & Hqs2 & _).
    destruct (IH st2) as [Hnd Hrest].
    split.
    + rewrite fmap_cons. constructor; [|done].
      intros Hdup. apply list_elem_of_fmap in Hdup as (q' & Hid & Hq').
      destruct (Hrest q' Hq') as [_ Hun']. unfold isAnswered in Hun'.
      rewrite <- Hid, Hi in Hun'. by rewrite bool_decide_eq_false in Hun'.
    + intros q' Hq'. apply elem_of_cons in Hq' as [->|Hq']; [done|].
      destruct (Hrest q' Hq') as [Hm Hun']. split.
      * by rewrite <- Hqs, <- Hqs2.
      * rewrite <- Hans. by apply (isAnswered_grows _ (answeredQuestions st2)).
Qed.

Lemma scan_filter (answered : list string) (rest : list question) : forall idx,
  filter (fun q => isAnswered answered q = false) rest =
  match (scan answered rest idx).1 with
  | Some q =>
      q :: filter (fun q => isAnswered answered q = false)
             (drop (S ((scan answered rest idx).2 - idx)) rest)
  | None => []
  end.
Proof.
  induction rest as [|q rest IH]; intros idx; simpl; [done|].
  destruct (isAnswered answered q) eqn:Hq.
  - rewrite filter_cons_False by (by rewrite Hq).
    pose proof (scan_spec answered rest (S idx)) as (Hb & _).
    rewrite (IH (S idx)).
    destruct (scan answered rest (S idx)).1 as [q'|]; [|done].
    replace ((scan answered rest (S idx)).2 - idx)%nat
      with (S ((scan answered rest (S idx)).2 - S idx)) by lia.
    done.
  - rewrite filter_cons_True by done. simpl.
    rewrite Nat.sub_diag. simpl. by rewrite drop_0.
Qed.

Lemma filter_agree {A : Type} (P1 P2 : A -> Prop)
    `{!forall x, Decision (P1 x), !forall x, Decision (P2 x)} (l : list A) :
  (forall x, x ∈ l -> (P1 x <-> P2 x)) -> filter P1 l = filter P2 l.
Proof.
  induction l as [|x l IH]; intros Hagree; [done|].
  rewrite !filter_cons.
  rewrite IH by (intros y Hy; apply Hagree; by right).
  pose proof (Hagree x ltac:(by left)) as Hx.
  destruct (decide (P1 x)), (decide (P2 x)); tauto || done.
Qed.

(** X11: When each loaded question has an id of its own, a run of the quiz serves
    the questions that were unanswered at its start, from the current index
    on, in the order of the list, one for each answer given. *)
Theorem play_serves_in_order (rand : random_source) (answers : list answer)
    (st : state) :
  Forall (fun q => is_Some (q_id q)) (questions st) ->
  NoDup (q_id <$> questions st) ->
  play rand answers st =
  take (length answers)
    (filter (fun q => isAnswered (answeredQuestions st) q = false)
       (drop (currentQuestionIndex st) (questions st))).
Proof.
  intros Hids Hnd. remember (questions st) as qs eqn:Hqs.
  symmetry in Hqs. revert st Hqs.
  induction answers as [|a rest IH]; intros st Hqs; cbn [play].
  { by rewrite take_0. }
  unfold getNextQuestion. rewrite Hqs.
  destruct (Nat.eqb_spec (length qs) 0) as [Hz|Hnz].
  { apply length_zero_iff_nil in Hz. by rewrite Hz, drop_nil. }
  set (idx := currentQuestionIndex st).
  set (A := answeredQuestions st).
  rewrite (scan_filter A (drop idx qs) idx).
  pose proof (scan_spec A (drop idx qs) idx) as (Hb & _ & Hres).
  cbn [fst snd].
  destruct (scan A (drop idx qs) idx) as [[q|] idx'] eqn:Hs; cbn [fst snd] in *;
    [|done].
  destruct Hres as [Hl Hun]. rewrite lookup_drop in Hl.
  replace (idx + (idx' - idx))%nat with idx' in Hl by lia.
  assert (Hq : q ∈ qs) by (by eapply list_elem_of_lookup_2).
  rewrite Forall_forall in Hids. destruct (Hids q Hq) as [i Hi].
  unfold processAnswer. rewrite Hi. cbn [length take]. f_equal.
  rewrite IH by done. cbn [answeredQuestions currentQuestionIndex set_index].
  f_equal. rewrite drop_drop.
  replace (idx + S (idx' - idx))%nat with (S idx') by lia.
  fold A. unfold isAnswered in Hun. rewrite Hi in Hun.
  rewrite bool_decide_eq_false in Hun. rewrite bool_decide_false by done.
  rewrite (drop_S qs q idx' Hl).
  rewrite filter_cons_False.
  2:{ unfold isAnswered. rewrite Hi, bool_decide_true; [done|].
      apply elem_of_app. right. by apply list_elem_of_singleton. }
  apply filter_agree. intros q' Hq'.
  apply list_elem_of_lookup in Hq' as [j Hj]. rewrite lookup_drop in Hj.
  assert (Hne : q_id q' <> Some i).
  { intros Hsame.
    assert (Hinj : idx' = (S idx' + j)%nat); [|lia].
    eapply (NoDup_lookup (q_id <$> qs)); [done| |].
    - rewrite list_lookup_fmap, Hl. simpl. by rewrite Hi.
    - rewrite list_lookup_fmap, Hj. simpl. by rewrite Hsame. }
  unfold isAnswered. destruct (q_id q') as [i'|]; [|done].
  rewrite !bool_decide_eq_false, elem_of_app, list_elem_of_singleton.
  split; [tauto|]. intros Hn [Hin|He]; [done|]. congruence.
Qed.

Lemma play_serves_in_order_witness :
  play (fun _ => 1 # 2) [ABool true; ABool false] loadedManager =
  [builtin_001; builtin_002].
Proof.
  rewrite (play_serves_in_order (fun _ => 1 # 2) [ABool true; ABool false]
             loadedManager).
  - reflexivity.
  - repeat (constructor; [by eexists|]). constructor.
  - apply (bool_decide_unpack _). vm_compute. exact I.
Defined.

(** *** Processing of loaded questions *)

Lemma slice0_prefix {A : Type} (l : list A) (n : Z) : slice0 l n `prefix_of` l.
Proof. unfold slice0. destruct (n <? 0)%Z; apply prefix_take. Qed.

Lemma processQuestions_returns (cfg : config) (rand : random_source) (k : nat)
    (qs : list question) :
  unit_range rand ->
  exists shuffled out k',
    processQuestions cfg rand k qs = Returned (out, k') /\
    shuffled ≡ₚ validOnes qs /\
    (shuffleQuestions cfg = false -> shuffled = validOnes qs /\ k' = k) /\
    out `prefix_of` shuffled /\
    length out = limited cfg (length (validOnes qs)).
Proof.
  intros Hr. unfold processQuestions. fold (validOnes qs).
  assert (Hsh : exists shuffled k',
    (if shuffleQuestions cfg then shuffleArray rand k (validOnes qs)
     else Returned (validOnes qs, k)) = Returned (shuffled, k') /\
    shuffled ≡ₚ validOnes qs /\
    (shuffleQuestions cfg = false -> shuffled = validOnes qs /\ k' = k)).
  { destruct (shuffleQuestions cfg).
    - destruct (shuffleArray_returns rand k (validOnes qs) Hr)
        as (sh & k' & Hs & Hp).
      exists sh, k'. by repeat split.
    - by exists (validOnes qs), k. }
  destruct Hsh as (shuffled & k' & -> & Hp & Hoff). simpl.
  assert (Hlen : length shuffled = length (validOnes qs)) by (by rewrite Hp).
  unfold limited. exists shuffled.
  destruct (maxQuestions cfg) as [m|]; [|by exists shuffled, k'].
  rewrite Hlen.
  destruct (Z.eqb_spec m 0) as [->|Hm0]; simpl; [by exists shuffled, k'|].
  destruct (Z.ltb_spec m (Z.of_nat (length (validOnes qs)))) as [Hlt|Hge].
  - exists (slice0 shuffled m), k'. split; [done|]. split; [done|].
    split; [done|]. split; [apply slice0_prefix|].
    unfold slice0. destruct (Z.ltb_spec m 0); rewrite length_take; lia.
  - exists shuffled, k'. split; [done|]. split; [done|]. split; [done|].
    split; [done|]. destruct (Z.ltb_spec m 0); lia.
Qed.

(** X12: [processQuestions] returns for every list of questions, as long as
    [Math.random] keeps to its range: what it returns is a leading part of a
    rearrangement of the questions that pass validation (of those questions
    themselves, with the same random counter, when shuffling is off), every
    question in it is valid, and its length is what the limit leaves: all
    valid ones without a limit or with limit 0, the smaller of limit and
    count for a positive limit, and the count less the magnitude for a
    negative one. *)
Theorem processQuestions_selects_valid (cfg : config) (rand : random_source)
    (k : nat) (qs : list question) :
  unit_range rand ->
  exists shuffled out k',
    processQuestions cfg rand k qs = Returned (out, k') /\
    shuffled ≡ₚ validOnes qs /\
    (shuffleQuestions cfg = false -> shuffled = validOnes qs /\ k' = k) /\
    out `prefix_of` shuffled /\
    Forall (fun q => validQuestion q = true) out /\
    length out = limited cfg (length (validOnes qs)).
Proof.
  intros Hr.
  destruct (processQuestions_returns cfg rand k qs Hr)
    as (shuffled & out & k' & Hp & Hperm & Hoff & Hpre & Hlen).
  exists shuffled, out, k'. split; [done|]. split; [done|]. split; [done|].
  split; [done|]. split; [|done].
  apply Forall_forall. intros q Hq.
  assert (Hin : q ∈ validOnes qs).
  { rewrite <- Hperm. destruct Hpre as [rest ->]. apply elem_of_app. by left. }
  unfold validOnes in Hin. by apply list_elem_of_filter in Hin as [Hv _].
Qed.

Lemma half_in_unit_range : unit_range (fun _ => 1 # 2).
Proof. intros n. split; [discriminate|reflexivity]. Qed.

Lemma processQuestions_selects_valid_witness :
  exists out k',
    processQuestions defaultConfig (fun _ => 1 # 2) 0 getBuiltInQuestions
      = Returned (out, k') /\
    length out = 5%nat.
Proof.
  destruct (processQuestions_selects_valid defaultConfig (fun _ => 1 # 2) 0
              getBuiltInQuestions half_in_unit_range)
    as (shuffled & out & k' & Hp & _ & _ & _ & _ & Hlen).
  exists out, k'. split; [exact Hp|]. rewrite Hlen. reflexivity.
Defined.

(** *** Loading always completes *)

(** X13: Whatever the external source answers, [loadQuestions] on a manager that
    is not already loading returns normally, as long as [Math.random] keeps
    to its range: the loading flag is cleared, every question held
    afterwards is valid, and the last event announces completion with the
    number of questions held.  Without fallback no error is recorded, the
    index is 0 and no question counts as answered; with fallback the error
    is recorded, and the index and the answered questions are left as they
    were before the call. *)
Theorem loadQuestions_always_completes (cfg : config) (rand : random_source)
    (resp : fetch_result) (st : state) :
  unit_range rand ->
  isLoading st = false ->
  exists st' fallback,
    loadQuestions cfg rand resp st = Returned st' /\
    isLoading st' = false /\
    Forall (fun q => validQuestion q = true) (questions st') /\
    last (emitted st') = Some (LoadingCompleted (length (questions st')) fallback) /\
    if fallback
    then (exists e, loadError st' = Some e) /\
         currentQuestionIndex st' = currentQuestionIndex st /\
         answeredQuestions st' = answeredQuestions st
    else loadError st' = None /\
         currentQuestionIndex st' = 0%nat /\
         answeredQuestions st' = [].
Proof.
  intros Hr Hl. unfold loadQuestions. rewrite Hl.
  unfold loadQuestions_try.
  set (st0 := set_loadError None (set_loading true st)).
  assert (Hvalid : forall k qs out k',
            processQuestions cfg rand k qs = Returned (out, k') ->
            Forall (fun q => validQuestion q = true) out).
  { intros k qs out k' Hp.
    destruct (processQuestions_returns cfg rand k qs Hr)
      as (sh & out' & k'' & Hp' & Hperm & _ & Hpre & _).
    rewrite Hp in Hp'. injection Hp' as <- <-.
    apply Forall_forall. intros q Hq.
    assert (Hin : q ∈ validOnes qs).
    { rewrite <- Hperm. destruct Hpre as [rest ->]. apply elem_of_app. by left. }
    unfold validOnes in Hin. by apply list_elem_of_filter in Hin as [Hv _]. }
  destruct (if truthy_str (dataPath cfg) then loadFromExternalSource resp
            else Returned getBuiltInQuestions) as [qs|e|] eqn:Hsrc.
  - destruct (processQuestions_returns cfg rand
                (randomCalls (emit LoadingStarted st0)) qs Hr)
      as (sh & out & k' & Hp & _).
    simpl. simpl in Hp. rewrite Hp. simpl.
    eexists _, false. split; [reflexivity|]. simpl.
    split; [done|]. split; [by eapply Hvalid|].
    split; [by rewrite last_snoc|]. done.
  - destruct (processQuestions_returns cfg rand
                (randomCalls (emit LoadingStarted st0)) getBuiltInQuestions Hr)
      as (sh & out & k' & Hp & _).
    simpl. unfold loadQuestions_catch. simpl. simpl in Hp. rewrite Hp. simpl.
    eexists _, true. split; [reflexivity|]. simpl.
    split; [done|]. split; [by eapply Hvalid|].
    split; [by rewrite last_snoc|]. split; [by exists e|done].
  - destruct (truthy_str (dataPath cfg)); [|done].
    by destruct resp as [| | | |[| |]].
Qed.

Lemma loadQuestions_always_completes_witness :
  exists st' fallback,
    loadQuestions defaultConfig (fun _ => 1 # 2) (NotOk 404) freshManager
      = Returned st' /\
    isLoading st' = false /\
    last (emitted st') = Some (LoadingCompleted (length (questions st')) fallback).
Proof.
  destruct (loadQuestions_always_completes defaultConfig (fun _ => 1 # 2)
              (NotOk 404) freshManager half_in_unit_range eq_refl)
    as (st' & fallback & H1 & H2 & _ & H3 & _).
  exists st', fallback. auto.
Defined.

(** X14: A body in the old format, a plain array of questions, is an object
    without difficulty properties: [loadQuestions] with a data path then
    holds no question at all, records no error and announces completion
    with count 0 and without fallback, whatever the array contains. *)
Theorem array_document_loads_nothing (cfg : config) (rand : random_source)
    (qs : list question) (st : state) :
  unit_range rand ->
  isLoading st = false ->
  truthy_str (dataPath cfg) = true ->
  exists st',
    loadQuestions cfg rand (Body (QsArray qs)) st = Returned st' /\
    questions st' = [] /\
    loadError st' = None /\
    last (emitted st') = Some (LoadingCompleted 0 false).
Proof.
  intros Hr Hl Hd. unfold loadQuestions. rewrite Hl.
  unfold loadQuestions_try. rewrite Hd. simpl.
  destruct (processQuestions_returns cfg rand (randomCalls st) [] Hr)
    as (sh & out & k' & Hp & Hperm & _ & Hpre & _).
  change (flatten ∅) with (@nil question). rewrite Hp. simpl.
  apply Permutation_nil_r in Hperm. subst sh.
  apply prefix_nil_inv in Hpre. subst out.
  eexists. split; [reflexivity|]. simpl. by rewrite last_snoc.
Qed.

Lemma array_document_loads_nothing_witness :
  exists st',
    loadQuestions defaultConfig (fun _ => 1 # 2) (Body (QsArray getBuiltInQuestions))
      freshManager = Returned st' /\
    questions st' = [].
Proof.
  destruct (array_document_loads_nothing defaultConfig (fun _ => 1 # 2)
              getBuiltInQuestions freshManager half_in_unit_range eq_refl eq_refl)
    as (st' & H1 & H2 & _).
  exists st'. auto.
Defined.

(** *** Flattening the difficulty groups *)




(** *** Reactions and answers *)

(** X16: The question manager's reaction of the council a question names: the
    council is reported offended exactly when the answer is not the correct
    one.  While the question's heresy points are positive or missing, the
    score's sign says the same, a correct answer is met with [Pleased] or
    [Neutral] and a wrong one never is. *)
Theorem reaction_follows_correctness (q : question) (a : answer) (c : string) :
  q_council q = Some c ->
  c <> ""%string ->
  exists r,
    calculateCouncilReactions q a = [(c, r)] /\
    cr_isCorrect r = isCorrect q a /\
    cr_offended r = negb (isCorrect q a) /\
    (0 < num_or (q_heresyPoints q) 1 ->
       (cr_score r < 0 <-> isCorrect q a = false) /\
       (cr_severity r = Pleased \/ cr_severity r = Neutral
        <-> isCorrect q a = true)).
Proof.
  intros Hc Hne. unfold calculateCouncilReactions. rewrite Hc.
  assert (Ht : truthy_str (Some c) = true).
  { simpl. apply negb_true_iff. by apply String.eqb_neq. }
  rewrite Ht. eexists. split; [reflexivity|]. simpl.
  split; [done|].
  set (p := num_or (q_heresyPoints q) 1).
  destruct (isCorrect q a); simpl.
  - split; [done|]. intros Hp. split.
    + split; [|done]. intros H. exfalso. lra.
    + split; [done|]. intros _. unfold calculateSeverity.
      destruct (num_le 2 (1 * p)) eqn:E2; [by left|].
      destruct (num_le 0 (1 * p)) eqn:E0; [by right|].
      exfalso. apply not_true_iff_false in E0. apply E0.
      apply Qle_bool_iff. lra.
  - split; [done|]. intros Hp. split.
    + split; [done|]. intros _. lra.
    + unfold calculateSeverity.
      assert (E2 : num_le 2 (-1 * p) = false).
      { apply not_true_iff_false. intros H. apply Qle_bool_iff in H. lra. }
      assert (E0 : num_le 0 (-1 * p) = false).
      { apply not_true_iff_false. intros H. apply Qle_bool_iff in H. lra. }
      rewrite E2, E0. split; [|done].
      intros [H|H]; repeat case_match; discriminate.
Qed.

Lemma reaction_follows_correctness_witness :
  exists r,
    calculateCouncilReactions builtin_001 (AStr "No")
      = [("Scientific Community"%string, r)] /\
    cr_offended r = negb (isCorrect builtin_001 (AStr "No")).
Proof.
  destruct (reaction_follows_correctness builtin_001 (AStr "No")
              "Scientific Community")
    as (r & H1 & _ & H2 & _); [reflexivity|discriminate|].
  exists r. auto.
Defined.

Lemma calculateResponseTime_range (r : Q) :
  0 <= r -> r < 1 -> (1000 <= calculateResponseTime r <= 10999)%Z.
Proof.
  intros H0 H1. unfold calculateResponseTime.
  assert (Hlo : (0 <= Qfloor (r * 10000))%Z).
  { change 0%Z with (Qfloor 0). apply Qfloor_resp_le. lra. }
  assert (Hhi : inject_Z (Qfloor (r * 10000)) < inject_Z 10000).
  { eapply Qle_lt_trans; [apply Qfloor_le|]. change (inject_Z 10000) with 10000.
    lra. }
  rewrite <- Zlt_Qlt in Hhi. lia.
Qed.

(** X17: Answering a question that has an id, with any defined answer, records
    it: the id is in the answered set afterwards and it is the only id that
    can be new there, the set holds no id twice, the reported response time
    lies between 1000 and 10999 milliseconds, and the next question served
    is not the one just answered. *)
Theorem processAnswer_marks_answered (rand : random_source) (st : state)
    (q : question) (a : answer) (i : string) :
  unit_range rand ->
  q_id q = Some i ->
  NoDup (answeredQuestions st) ->
  exists r st',
    processAnswer rand st q (Some a) = Recorded r st' /\
    (forall k, k ∈ answeredQuestions st' <-> (k ∈ answeredQuestions st) \/ k = i) /\
    NoDup (answeredQuestions st') /\
    (1000 <= ar_responseTime r <= 10999)%Z /\
    (getNextQuestion st').1 <> Some q.
Proof.
  intros Hr Hi Hnd.
  destruct (processAnswer rand st q (Some a)) as [r st'| |] eqn:Hp.
  2,3: unfold processAnswer in Hp; by rewrite Hi in Hp.
  exists r, st'. split; [done|].
  pose proof (processAnswer_recorded _ _ _ _ _ _ Hp)
    as (i' & Hi' & Hin & Hsub & Hnew & _).
  assert (i' = i) as -> by congruence.
  split; [|split; [|split]].
  - intros k. split; [apply Hnew|]. intros [Hk| ->]; [by apply Hsub|done].
  - unfold processAnswer in Hp. rewrite Hi in Hp. injection Hp as _ <-. simpl.
    case_bool_decide as Hold; [done|].
    apply NoDup_app. split; [done|]. split; [|apply NoDup_singleton].
    intros k Hk Hk'. apply list_elem_of_singleton in Hk' as ->. done.
  - unfold processAnswer in Hp. rewrite Hi in Hp. injection Hp as <- _. simpl.
    destruct (Hr (randomCalls st)). by apply calculateResponseTime_range.
  - intros Hserved.
    pose proof (getNextQuestion_next st') as Hnext. rewrite Hserved in Hnext.
    destruct Hnext as (_ & _ & _ & Hun). unfold isAnswered in Hun.
    rewrite Hi in Hun. by rewrite bool_decide_eq_false in Hun.
Qed.

Lemma processAnswer_marks_answered_witness :
  exists r st',
    processAnswer (fun _ => 1 # 2) loadedManager builtin_001 (Some (ABool true))
      = Recorded r st' /\
    ar_responseTime r = 6000%Z /\
    answeredQuestions st' = ["builtin_001"%string].
Proof.
  destruct (processAnswer_marks_answered (fun _ => 1 # 2) loadedManager
              builtin_001 (ABool true) "builtin_001" half_in_unit_range
              eq_refl (NoDup_nil_2 : NoDup (answeredQuestions loadedManager)))
    as (r & st' & Hp & _).
  exists r, st'. split; [exact Hp|].
  injection Hp as <- <-. split; reflexivity.
Defined.

End QuestionFlowProps.

(** ** Verdict calculator: score terms and analysis *)

Module VerdictScoresProps.
Import VerdictCalculator VerdictCalculatorProps VerdictScores.

(** *** Consistency *)

Lemma consistency_value (stance : Z) :
  consistency stance == if (stance =? 0)%Z then 0 else 1.
Proof.
  unfold consistency. destruct (Z.eqb_spec stance 0) as [->|Hne].
  - reflexivity.
  - assert (Hpos : 1 <= Qabs (inject_Z stance)).
    { change (Qabs (inject_Z stance)) with (inject_Z (Z.abs stance)).
      change 1 with (inject_Z 1). rewrite <- Zle_Qle. lia. }
    unfold Math_max. apply Qle_bool_iff in Hpos. rewrite Hpos.
    apply Qle_bool_iff in Hpos. field. intros H0. rewrite H0 in Hpos.
    by apply Qle_not_lt in Hpos.
Qed.

Lemma Math_round_compat (x y : Q) : x == y -> Math_round x = Math_round y.
Proof. intros H. unfold Math_round. by rewrite H. Qed.

(** X18: The consistency score only tells how many of the three stances are not
    zero: it is 0 for fewer than three answers or no stance at all, 1 for
    one or two stances and 2 for three.  It is never negative. *)
Theorem consistency_score_counts_stances
    (questionsAnswered : list (question * answer)) :
  calculateConsistencyScore questionsAnswered =
  (if (length questionsAnswered <? 3)%nat then 0%Z
   else match stancesTaken
                (fold_left addStance questionsAnswered
                   {| theologicalStance := 0; scientificStance := 0;
                      politicalStance := 0 |}) with
        | 0%nat => 0%Z
        | 1%nat | 2%nat => 1%Z
        | _ => 2%Z
        end) /\
  (0 <= calculateConsistencyScore questionsAnswered <= 2)%Z.
Proof.
  unfold calculateConsistencyScore.
  destruct (length questionsAnswered <? 3)%nat; [split; [done|lia]|].
  set (s := fold_left addStance questionsAnswered _).
  assert (Hval : Math_round
            ((consistency (theologicalStance s) + consistency (scientificStance s)
              + consistency (politicalStance s)) / 3 * 2) =
          match stancesTaken s with
          | 0%nat => 0%Z
          | 1%nat | 2%nat => 1%Z
          | _ => 2%Z
          end).
  { unfold stancesTaken.
    erewrite Math_round_compat.
    2:{ rewrite !consistency_value. reflexivity. }
    destruct (theologicalStance s =? 0)%Z, (scientificStance s =? 0)%Z,
             (politicalStance s =? 0)%Z; reflexivity. }
  rewrite Hval. split; [done|].
  destruct (stancesTaken s) as [|[|[|n]]]; lia.
Qed.

(** *** Strengths and weaknesses *)

(** X19: No game is credited with a strength and charged with the weakness in
    the same matter: diplomatic skill and poor council relations, quick and
    slow decisions, good and low completion exclude each other. *)
Theorem strengths_exclude_weaknesses (g : gameData) :
  Forall (fun pair => ~ (pair.1 ∈ identifyStrengths g /\ pair.2 ∈ identifyWeaknesses g))
    opposites.
Proof.
  unfold opposites, identifyStrengths, identifyWeaknesses, averageBelow,
    averageAbove.
  destruct (Nat.eqb_spec (length (councilsOffended g)) 0) as [Hc0|Hc0],
           (Nat.leb_spec 3 (length (councilsOffended g))) as [Hc3|Hc3],
           (Nat.ltb_spec 5 (length (questionsAnswered g))) as [Hq5|Hq5],
           (Nat.ltb_spec (length (questionsAnswered g)) 3) as [Hq3|Hq3];
    try lia;
    (destruct (averageResponseTime g) as [t|];
     [destruct (num_lt t 5000) eqn:Hfast, (num_lt 15000 t) eqn:Hslow;
      [apply num_lt_spec in Hfast; apply num_lt_spec in Hslow; exfalso; lra| | |]
     |]);
    repeat constructor; simpl; intros [Hs Hw];
    repeat (apply elem_of_cons in Hs as [Hs|Hs]; [discriminate Hs|]);
    repeat (apply elem_of_cons in Hw as [Hw|Hw]; [discriminate Hw|]);
    (by apply elem_of_nil in Hs) || (by apply elem_of_nil in Hw).
Qed.

(** *** The council term for councils of the council manager *)

Lemma severityOf_manager_council (c : CouncilManager.council) :
  severityOf (ofCouncil c) = "medium"%string.
Proof.
  unfold severityOf, ofCouncil. simpl.
  by destruct (CouncilManager.lastReaction c).
Qed.

Lemma penalties_of_manager_councils (cs : list CouncilManager.council) :
  penalties (map ofCouncil cs) == -3 * inject_Z (Z.of_nat (length cs)).
Proof.
  induction cs as [|c cs IH]; [reflexivity|].
  cbn [map penalties foldr length]. fold (penalties (map ofCouncil cs)).
  rewrite IH, Nat2Z.inj_succ, <- Z.add_1_r, inject_Z_plus.
  assert (Hm : penaltyPerCouncil * labelMultiplier (severityOf (ofCouncil c)) == -3).
  { by rewrite severityOf_manager_council. }
  rewrite Hm. change (inject_Z 1) with 1. ring.
Qed.

(** X20: The reactions the council manager stores carry no severity, so for the
    councils it reports the verdict's council term depends on their number
    alone: each costs 3 points, and from four councils on the term is -10. *)
Theorem council_term_counts_councils (cs : list CouncilManager.council) :
  exists score,
    calculateCouncilScore (map ofCouncil cs) = Num score /\
    score == Math_max (-10) (-3 * inject_Z (Z.of_nat (length cs))) /\
    ((4 <= length cs)%nat -> score == -10).
Proof.
  assert (Hcs : Forall (fun c => inherited_name (severityOf c) = false)
                  (map ofCouncil cs)).
  { induction cs as [|c cs IH]; [constructor|].
    constructor; [by rewrite severityOf_manager_council|exact IH]. }
  unfold calculateCouncilScore.
  destruct (fold_penalties (map ofCouncil cs) 0 Hcs) as (total & -> & Heq).
  exists (Math_max (-10) total). split; [reflexivity|].
  assert (Hscore : Math_max (-10) total
            == Math_max (-10) (-3 * inject_Z (Z.of_nat (length cs)))).
  { apply Math_max_compat.
    rewrite Heq, penalties_of_manager_councils. ring. }
  split; [exact Hscore|].
  intros Hn. rewrite Hscore. unfold Math_max.
  destruct (Qle_bool (-10) (-3 * inject_Z (Z.of_nat (length cs)))) eqn:E;
    [|reflexivity].
  apply Qle_bool_iff in E.
  assert (H4 : inject_Z 4 <= inject_Z (Z.of_nat (length cs))).
  { rewrite <- Zle_Qle. lia. }
  change (inject_Z 4) with 4 in H4. exfalso. lra.
Qed.

Lemma council_term_counts_councils_witness :
  exists score,
    calculateCouncilScore
      (map ofCouncil (replicate 4 (CouncilManager.reformation 2))) = Num score /\
    score == -10.
Proof.
  destruct (council_term_counts_councils
              (replicate 4 (CouncilManager.reformation 2))) as (score & Hs & _ & H).
  exists score. split; [exact Hs|]. apply H. simpl. lia.
Defined.

End VerdictScoresProps.

(** ** State manager: encryption within Latin-1 *)

Module EncryptionLatin1.
Import StateManager Base64Props EncryptionProps.
#[local] Open Scope N_scope.

Lemma lxor_latin1 (a b : N) :
  a <= 255 -> b <= 255 -> fromCharCode (N.lxor a b) <= 255.
Proof.
  intros Ha Hb.
  assert (Hx : N.lxor a b < 2 ^ 8).
  { pose proof (lxor_mod_pow2 a b 8) as H.
    rewrite (N.mod_small a), (N.mod_small b) in H by (simpl; lia).
    rewrite <- H. apply N.mod_lt. discriminate. }
  unfold fromCharCode. rewrite N.mod_small; simpl in Hx; lia.
Qed.

Lemma charCodeAt_latin1 (key : jsstring) (i : nat) :
  Forall (fun c => c <= 255) key -> charCodeAt key i <= 255.
Proof.
  intros Hk. unfold charCodeAt. revert i.
  induction Hk as [|c key Hc Hk IH]; intros [|i]; simpl; try lia. apply IH.
Qed.

Lemma xorWithKey_latin1 (key s : jsstring) :
  Forall (fun c => c <= 255) key ->
  Forall (fun c => c <= 255) s ->
  Forall (fun c => c <= 255) (xorWithKey key s).
Proof.
  unfold jsstring in *. intros Hk Hs. apply Forall_lookup. intros i x Hx.
  unfold xorWithKey in Hx. rewrite list_lookup_imap in Hx.
  destruct (s !! i) as [c|] eqn:E; simpl in Hx; [|done].
  injection Hx as <-. apply lxor_latin1.
  - exact (Forall_lookup_1 _ s i c Hs E).
  - by apply charCodeAt_latin1.
Qed.

(** X21: With a key and a serialized state of code units up to 255, [encrypt]
    returns an encrypted wrapper, and [decrypt] under the same key hands
    [JSON.parse] exactly the text [encrypt] had serialized. *)
Theorem decrypt_recovers_serialized_text
    (JSON_parse : jsstring -> outcome json) (key : jsstring) (data : json) :
  key <> [] ->
  Forall (fun c => c <= 255) key ->
  Forall (fun c => c <= 255) (JSON_stringify data) ->
  exists encoded,
    encrypt key data = Returned (Encrypted encoded) /\
    decrypt JSON_parse key (Encrypted encoded)
    = (parsed ← JSON_parse (JSON_stringify data); Returned (Plain parsed)).
Proof.
  intros Hne Hk Hs.
  pose proof (xorWithKey_latin1 key _ Hk Hs) as Hx.
  exists (base64Encode (xorWithKey key (JSON_stringify data))).
  unfold encrypt, decrypt. destruct key as [|k0 key]; [done|].
  rewrite (btoa_accepts _ Hx). split; [done|].
  rewrite (atob_btoa _ _ (btoa_accepts _ Hx)). simpl.
  rewrite xorWithKey_involutive; [done|].
  eapply Forall_impl; [exact Hs|]. simpl. intros c Hc. lia.
Qed.

Lemma decrypt_recovers_serialized_text_witness :
  exists encoded,
    encrypt sampleKey startState = Returned (Encrypted encoded) /\
    decrypt (parseOnly startState) sampleKey (Encrypted encoded)
    = Returned (Plain startState).
Proof.
  destruct (decrypt_recovers_serialized_text (parseOnly startState) sampleKey
              startState) as (encoded & He & Hd).
  - discriminate.
  - apply (bool_decide_unpack _). vm_compute. exact I.
  - apply (bool_decide_unpack _). vm_compute. exact I.
  - exists encoded. split; [exact He|]. rewrite Hd.
    unfold parseOnly. rewrite bool_decide_true by reflexivity. reflexivity.
Defined.

(** X22: Under a non-empty key [encrypt] either returns an encrypted wrapper or
    throws [InvalidCharacterError]; it throws exactly when some code unit of
    the serialized state combined with the key exceeds 255. *)
Theorem encrypt_throws_exactly (key : jsstring) (data : json) :
  key <> [] ->
  (encrypt key data = Thrown InvalidCharacterError <->
   Exists (fun c => 255 < c) (xorWithKey key (JSON_stringify data))) /\
  (encrypt key data = Thrown InvalidCharacterError \/
   exists encoded, encrypt key data = Returned (Encrypted encoded)).
Proof.
  intros Hne. unfold encrypt. destruct key as [|k0 key]; [done|].
  set (x := xorWithKey (k0 :: key) (JSON_stringify data)).
  destruct (decide (Exists (fun c => 255 < c) x)) as [Hex|Hall].
  - apply Exists_exists in Hex as (c & Hc & Hbig).
    rewrite (btoa_rejects x c Hc Hbig). simpl.
    split; [|by left]. split; [|done]. intros _.
    apply Exists_exists. by exists c.
  - assert (Hx : Forall (fun c => c <= 255) x).
    { apply Forall_forall. intros c Hc.
      destruct (N.le_gt_cases c 255) as [|Hbig]; [done|].
      exfalso. apply Hall, Exists_exists. by exists c. }
    rewrite (btoa_accepts x Hx). simpl. split; [|right; by eexists].
    split; [done|]. intros Hex. by destruct Hall.
Qed.

Lemma encrypt_throws_exactly_witness :
  encrypt sampleKey verdictState = Thrown InvalidCharacterError.
Proof.
  destruct (encrypt_throws_exactly sampleKey verdictState) as [[_ H] _].
  - discriminate.
  - apply H. apply (bool_decide_unpack _). vm_compute. exact I.
Defined.

End EncryptionLatin1.

(** ** State manager: reading and writing by path *)

Module StateStoreProps.
Import StateManager StateStore.

Lemma split_nonempty (sep : N) (s : jsstring) : split sep s <> [].
Proof.
  destruct s as [|c rest]; simpl; [done|].
  destruct (c =? sep)%N; [done|]. by destruct (split sep rest).
Qed.

Lemma assign_last (k : jsstring) (newValue : value)
    (fields : gmap jsstring value) :
  assign [k] newValue (VObject fields) =
  if inherited k then Stuck
  else Returned (VObject (<[k := newValue]> fields)).
Proof. reflexivity. Qed.

Lemma assign_cons (k k2 : jsstring) (rest : list jsstring) (newValue : value)
    (fields : gmap jsstring value) :
  assign (k :: k2 :: rest) newValue (VObject fields) =
  if inherited k then Stuck
  else child' ← assign (k2 :: rest) newValue (descend fields k);
       Returned (VObject (<[k := child']> fields)).
Proof. reflexivity. Qed.

Lemma walk_cons (k : jsstring) (rest : list jsstring)
    (fields : gmap jsstring value) :
  walk (k :: rest) (VObject fields) =
  if inherited k then Outside
  else match fields !! k with
       | Some v => walk rest v
       | None => Undefined
       end.
Proof. reflexivity. Qed.

(** What was assigned along a path is found along it. *)
Lemma walk_assign (newValue : value) (keys : list jsstring) :
  forall current current',
    keys <> [] ->
    assign keys newValue current = Returned current' ->
    walk keys current' = Found newValue.
Proof.
  induction keys as [|k rest IH]; intros current current' Hne Ha; [done|].
  destruct current as [| | | | |fields]; try discriminate Ha.
  destruct rest as [|k2 rest].
  - rewrite assign_last in Ha. destruct (inherited k) eqn:Hk; [done|].
    injection Ha as <-. by rewrite walk_cons, Hk, lookup_insert_eq.
  - rewrite assign_cons in Ha. destruct (inherited k) eqn:Hk; [done|].
    destruct (assign (k2 :: rest) newValue (descend fields k))
      as [child'| |] eqn:Hc; try discriminate Ha.
    injection Ha as <-. rewrite walk_cons, Hk, lookup_insert_eq.
    by apply (IH (descend fields k) child').
Qed.

Lemma descend_objectType (fields : gmap jsstring value) (k : jsstring) :
  isObjectType (descend fields k) = true.
Proof.
  unfold descend. destruct (fields !! k) as [v|]; [|done].
  by destruct (isObjectType v) eqn:E.
Qed.

Lemma walk_empty_object (p : list jsstring) : walk p (VObject ∅) <> Found VNull.
Proof.
  destruct p as [|k p]; [done|]. rewrite walk_cons, lookup_empty.
  by destruct (inherited k).
Qed.

Lemma walk_primitive (p : list jsstring) (v : value) :
  isObjectType v = false -> walk p v <> Found VNull.
Proof. intros Hv. destruct p; by destruct v. Qed.

(** Reaching [null] sees no difference between the object before and after
    the replacement of what is not of type object. *)
Lemma walk_descend_null (fields : gmap jsstring value) (k : jsstring)
    (p : list jsstring) :
  inherited k = false ->
  walk (k :: p) (VObject fields) = Found VNull <->
  walk p (descend fields k) = Found VNull.
Proof.
  intros Hk. rewrite walk_cons, Hk. unfold descend.
  destruct (fields !! k) as [v|].
  - destruct (isObjectType v) eqn:Hv; [done|].
    split; intros H; exfalso.
    + by apply (walk_primitive p v Hv).
    + by apply (walk_empty_object p).
  - split; [done|]. intros H. exfalso. by apply (walk_empty_object p).
Qed.

Lemma assign_throws (newValue : value) (keys : list jsstring) :
  forall current e,
    isObjectType current = true ->
    keys <> [] ->
    assign keys newValue current = Thrown e <->
    e = TypeError /\
    exists p k r, keys = p ++ k :: r /\ walk p current = Found VNull.
Proof.
  induction keys as [|k rest IH]; intros current e Hobj Hne; [done|].
  destruct current as [| | | |items|fields]; try discriminate Hobj.
  - simpl. split.
    + intros [= <-]. split; [done|]. by exists [], k, rest.
    + by intros [-> _].
  - simpl. split; [done|]. intros (_ & p & k' & r & _ & Hw).
    destruct p; discriminate Hw.
  - destruct rest as [|k2 rest].
    + rewrite assign_last. split.
      * by destruct (inherited k).
      * intros (_ & p & k' & r & Hp & Hw). exfalso.
        destruct p as [|k0 p]; [discriminate Hw|].
        injection Hp as _ Hp. by destruct p.
    + rewrite assign_cons. destruct (inherited k) eqn:Hk.
      { split; [done|]. intros (_ & p & k' & r & Hp & Hw). exfalso.
        destruct p as [|k0 p]; [discriminate Hw|].
        injection Hp as <- _. rewrite walk_cons, Hk in Hw. done. }
      specialize (IH (descend fields k) e (descend_objectType fields k)
                    ltac:(done)).
      split.
      * intros Ha.
        destruct (assign (k2 :: rest) newValue (descend fields k))
          as [child'| e'|] eqn:Hc; try discriminate Ha.
        injection Ha as ->.
        destruct (proj1 IH eq_refl) as (-> & p & k' & r & Hp & Hw).
        split; [done|]. exists (k :: p), k', r. split; [by rewrite Hp|].
        by apply walk_descend_null.
      * intros (-> & p & k' & r & Hp & Hw).
        destruct p as [|k0 p]; [discriminate Hw|].
        injection Hp as <- Hp. apply walk_descend_null in Hw; [|done].
        rewrite (proj2 IH); [done|]. split; [done|]. by exists p, k', r.
Qed.

Lemma walk_app (p q : list jsstring) : forall current,
  walk (p ++ q) current =
  match walk p current with
  | Found v => walk q v
  | other => other
  end.
Proof.
  induction p as [|k p IH]; intros current; [done|].
  destruct current as [| | | | |fields]; try done.
  rewrite <- app_comm_cons, !walk_cons.
  destruct (inherited k); [done|]. destruct (fields !! k) as [v|]; [apply IH|done].
Qed.

Lemma diverge_nonempty (keys keys' : list jsstring) :
  diverge keys keys' = true -> keys' <> [].
Proof. destruct keys, keys'; done. Qed.

Lemma addToHistory_last (limit : nat) (history : list entry) (e : entry) :
  (0 < limit)%nat -> last (addToHistory limit history e) = Some e.
Proof.
  intros Hl. unfold addToHistory. rewrite length_app. simpl.
  destruct (Nat.ltb_spec limit (length history + 1)) as [Hlt|Hge];
    [|by rewrite last_snoc].
  destruct history as [|e0 history]; [simpl in Hlt; lia|].
  simpl. by rewrite last_snoc.
Qed.

Lemma set_returns (key : jsstring) (newValue : value) (record : bool)
    (m m' : manager) :
  key <> [] ->
  set key newValue record m = Returned m' ->
  get key (state m) <> Outside /\
  assign (split 46 key) newValue (state m) = Returned (state m') /\
  hasUnsavedChanges m' = true /\
  maxHistory m' = maxHistory m /\
  history m' =
    if record
    then addToHistory (maxHistory m) (history m)
           {| e_key := key; e_oldValue := get key (state m);
              e_newValue := newValue |}
    else history m.
Proof.
  intros Hne Hs. unfold set in Hs. destruct key as [|c key]; [done|].
  destruct (get (c :: key) (state m)) as [old| |] eqn:Hg; [| |done];
    (destruct (assign (split 46 (c :: key)) newValue (state m))
       as [state'| |]; try discriminate Hs; injection Hs as <-; done).
Qed.

(** X23: After [set(key, value)] has returned, [get(key)] answers the value set
    and the manager has unsaved changes.  When the change is recorded and
    the history has room for at least one entry, the last entry holds the
    key, what [get(key)] answered before the call, and the new value; when
    it is not recorded the history is left alone. *)
Theorem set_then_get (key : jsstring) (newValue : value) (record : bool)
    (m m' : manager) :
  key <> [] ->
  set key newValue record m = Returned m' ->
  get key (state m') = Found newValue /\
  hasUnsavedChanges m' = true /\
  (record = true -> (0 < maxHistory m)%nat ->
     last (history m') =
     Some {| e_key := key; e_oldValue := get key (state m);
             e_newValue := newValue |}) /\
  (record = false -> history m' = history m).
Proof.
  intros Hne Hs.
  destruct (set_returns _ _ _ _ _ Hne Hs) as (_ & Ha & Hu & _ & Hh).
  split; [|split; [done|split]].
  - unfold get. destruct key as [|c key]; [done|].
    eapply walk_assign; [apply split_nonempty|exact Ha].
  - intros -> Hl. rewrite Hh. by apply addToHistory_last.
  - intros ->. exact Hh.
Qed.

Lemma set_then_get_witness :
  exists m',
    set (ofString "settings.volume") (VNumber 7) true (freshStore 50)
      = Returned m' /\
    get (ofString "settings.volume") (state m') = Found (VNumber 7) /\
    last (history m') =
      Some {| e_key := ofString "settings.volume"; e_oldValue := Undefined;
              e_newValue := VNumber 7 |}.
Proof.
  destruct (set (ofString "settings.volume") (VNumber 7) true (freshStore 50))
    as [m'| |] eqn:Hs; try (vm_compute in Hs; discriminate Hs).
  exists m'. split; [reflexivity|].
  destruct (set_then_get (ofString "settings.volume") (VNumber 7) true
              (freshStore 50) m') as (Hg & _ & Hl & _);
    [discriminate|exact Hs|].
  split; [exact Hg|]. apply Hl; [reflexivity|simpl; lia].
Defined.

(** X25: On a state that is an object, [set] throws only [TypeError], and it
    throws exactly when [null] is found along the path before its last
    key. *)
Theorem set_throws_at_null (key : jsstring) (newValue : value) (record : bool)
    (m : manager) (e : error) :
  key <> [] ->
  isObjectType (state m) = true ->
  set key newValue record m = Thrown e <->
  e = TypeError /\
  exists p k r, split 46 key = p ++ k :: r /\ walk p (state m) = Found VNull.
Proof.
  intros Hne Hobj.
  pose proof (assign_throws newValue (split 46 key) (state m) e Hobj
                (split_nonempty 46 key)) as Ha.
  unfold set. destruct key as [|c key]; [done|].
  destruct (get (c :: key) (state m)) as [old| |] eqn:Hg.
  1,2: rewrite <- Ha;
       destruct (assign (split 46 (c :: key)) newValue (state m)); simpl;
       split; congruence.
  split; [done|]. intros (_ & p & k & r & Hp & Hw). exfalso.
  unfold get in Hg. rewrite Hp, walk_app, Hw in Hg. done.
Qed.

Lemma set_throws_at_null_witness :
  set (ofString "verdict.type") (VString (ofString "faithful")) true
    (freshStore 50) = Thrown TypeError.
Proof.
  apply (set_throws_at_null (ofString "verdict.type")
           (VString (ofString "faithful")) true (freshStore 50) TypeError).
  - discriminate.
  - reflexivity.
  - split; [reflexivity|].
    exists [ofString "verdict"], (ofString "type"), [].
    split; vm_compute; reflexivity.
Defined.

(** *** The history *)

Lemma addToHistory_length (limit : nat) (history : list entry) (e : entry) :
  (length history <= limit)%nat ->
  (length (addToHistory limit history e) <= limit)%nat.
Proof.
  intros Hl. unfold addToHistory. rewrite length_app. simpl.
  destruct (Nat.ltb_spec limit (length history + 1)) as [Hlt|Hge];
    [|rewrite length_app; simpl; lia].
  destruct history as [|e0 history]; simpl in *; [lia|].
  rewrite length_app. simpl. lia.
Qed.

(** X26: However many changes are recorded, the history of a manager that began
    within its limit stays within it, and the limit stays what it was. *)
Theorem history_stays_within_limit (calls : list (jsstring * value))
    (m m' : manager) :
  (length (history m) <= maxHistory m)%nat ->
  setEach calls m = Some m' ->
  (length (history m') <= maxHistory m')%nat /\ maxHistory m' = maxHistory m.
Proof.
  revert m. induction calls as [|[key newValue] rest IH]; intros m Hl Hrun.
  { simpl in Hrun. injection Hrun as <-. done. }
  simpl in Hrun.
  destruct (set key newValue true m) as [m1| |] eqn:Hs; [| |done].
  - destruct key as [|c key].
    { simpl in Hs. injection Hs as <-. by apply IH. }
    destruct (set_returns (c :: key) _ _ _ _ ltac:(done) Hs)
      as (_ & _ & _ & Hm & Hh).
    destruct (IH m1) as [Hl' Hm']; [|done|].
    + rewrite Hh, Hm. by apply addToHistory_length.
    + split; [done|]. by rewrite Hm', Hm.
  - by apply IH.
Qed.

Lemma history_stays_within_limit_witness :
  exists m',
    setEach [(ofString "score", VNumber 1); (ofString "score", VNumber 2);
             (ofString "phase", VString (ofString "playing"))] (freshStore 2)
      = Some m' /\
    (length (history m') <= 2)%nat.
Proof.
  destruct (setEach [(ofString "score", VNumber 1); (ofString "score", VNumber 2);
                     (ofString "phase", VString (ofString "playing"))]
              (freshStore 2)) as [m'|] eqn:Hrun;
    [|vm_compute in Hrun; discriminate Hrun].
  exists m'. split; [reflexivity|].
  destruct (history_stays_within_limit
              [(ofString "score", VNumber 1); (ofString "score", VNumber 2);
               (ofString "phase", VString (ofString "playing"))]
              (freshStore 2) m') as [Hl Hm];
    [simpl; lia|exact Hrun|].
  rewrite Hm in Hl. exact Hl.
Defined.

(** *** Validation of a loaded state *)

Lemma ensureArray_same (key : jsstring) (fields : gmap jsstring value) :
  isArray (ensureArray key fields !! key) = true.
Proof.
  unfold ensureArray. destruct (isArray (fields !! key)) eqn:E; [done|].
  by rewrite lookup_insert_eq.
Qed.

Lemma ensureArray_other (key key' : jsstring) (fields : gmap jsstring value) :
  key <> key' -> ensureArray key fields !! key' = fields !! key'.
Proof.
  intros Hne. unfold ensureArray. destruct (isArray (fields !! key)); [done|].
  by rewrite lookup_insert_ne.
Qed.

Lemma ensureArray_keeps (key key' : jsstring) (fields : gmap jsstring value) :
  is_Some (fields !! key') -> is_Some (ensureArray key fields !! key').
Proof.
  intros Hs. unfold ensureArray. destruct (isArray (fields !! key)); [done|].
  destruct (decide (key = key')) as [->|Hne].
  - by rewrite lookup_insert_eq.
  - by rewrite lookup_insert_ne.
Qed.

Lemma ensureArray_idle (key : jsstring) (fields : gmap jsstring value) :
  isArray (fields !! key) = true -> ensureArray key fields = fields.
Proof. intros H. unfold ensureArray. by rewrite H. Qed.

Lemma initial_wellShaped : wellShaped createInitialState.
Proof. exists initialFields. repeat split; done. Qed.

Lemma validateState_wellShaped (state : value) : wellShaped (validateState state).
Proof.
  destruct state as [| | | | |fields]; try apply initial_wellShaped.
  unfold validateState.
  destruct (forallb _ requiredKeys); [|apply initial_wellShaped].
  eexists. split; [reflexivity|]. split; [|split].
  - intros key Hk. do 2 apply ensureArray_keeps.
    rewrite lookup_union. destruct Hk as [w ->].
    destruct (fields !! key); by eexists.
  - rewrite ensureArray_other by done. apply ensureArray_same.
  - apply ensureArray_same.
Qed.

Lemma wellShaped_fixed (state : value) :
  wellShaped state -> validateState state = state.
Proof.
  intros (fields & -> & Hkeys & Hqa & Hco). unfold validateState.
  assert (Hreq : forallb (fun key => bool_decide (is_Some (fields !! key)))
                   requiredKeys = true).
  { apply forallb_forall. intros key Hk. apply bool_decide_eq_true, Hkeys.
    apply list_elem_of_In in Hk. revert key Hk. apply Forall_forall.
    apply (bool_decide_unpack _). vm_compute. exact I. }
  rewrite Hreq.
  assert (Hu : fields ∪ initialFields = fields).
  { apply map_eq. intros key. rewrite lookup_union.
    destruct (fields !! key) as [v|] eqn:Hv.
    - by destruct (initialFields !! key).
    - destruct (initialFields !! key) as [w|] eqn:Hw; [|done].
      destruct (Hkeys key) as [v Hv']; [by exists w|]. congruence. }
  rewrite Hu. rewrite (ensureArray_idle (ofString "questionsAnswered") fields Hqa).
  by rewrite (ensureArray_idle (ofString "councilsOffended") fields Hco).
Qed.

Lemma validateState_keeps (fields : gmap jsstring value)
    (key : jsstring) (v : value) :
  Forall (fun k => is_Some (fields !! k)) requiredKeys ->
  fields !! key = Some v ->
  exists validated,
    validateState (VObject fields) = VObject validated /\
    (validated !! key = Some v \/
     (key ∈ [ofString "questionsAnswered"; ofString "councilsOffended"] /\
      isArray (Some v) = false /\ validated !! key = Some (VArray []))).
Proof.
  intros Hreq Hv. unfold validateState.
  assert (Hall : forallb (fun key => bool_decide (is_Some (fields !! key)))
                   requiredKeys = true).
  { apply forallb_forall. intros k Hk. apply bool_decide_eq_true.
    rewrite Forall_forall in Hreq. by apply Hreq, list_elem_of_In. }
  rewrite Hall.
  set (validated := ensureArray _ (ensureArray _ _)).
  exists validated. split; [reflexivity|].
  assert (Hm : (fields ∪ initialFields) !! key = Some v).
  { by rewrite lookup_union, Hv; destruct (initialFields !! key). }
  destruct (decide (key = ofString "questionsAnswered")) as [->|Hqa].
  - assert (E : validated !! ofString "questionsAnswered" =
                if isArray (Some v) then Some v else Some (VArray [])).
    { unfold validated. rewrite ensureArray_other by done.
      unfold ensureArray. rewrite Hm.
      destruct (isArray (Some v)); [done|]. by rewrite lookup_insert_eq. }
    rewrite E. destruct (isArray (Some v)); [by left|].
    right. split; [set_solver|done].
  - destruct (decide (key = ofString "councilsOffended")) as [->|Hco].
    + assert (E : validated !! ofString "councilsOffended" =
                  if isArray (Some v) then Some v else Some (VArray [])).
      { unfold validated. unfold ensureArray at 1.
        rewrite ensureArray_other by done. rewrite Hm.
        destruct (isArray (Some v)).
        - by rewrite ensureArray_other.
        - by rewrite lookup_insert_eq. }
      rewrite E. destruct (isArray (Some v)); [by left|].
      right. split; [set_solver|done].
    + left. unfold validated. by rewrite !ensureArray_other.
Qed.

(** X27: Whatever is loaded, [validateState] returns an object that has every
    key of the initial state and arrays under [questionsAnswered] and
    [councilsOffended], and validating a second time changes nothing.  A
    loaded object that has the four required keys keeps each of its own
    properties; only under the two list keys a value that is not an array
    gives way to the empty array. *)
Theorem validateState_settles (state : value) :
  wellShaped (validateState state) /\
  validateState (validateState state) = validateState state /\
  (forall fields key v,
     state = VObject fields ->
     Forall (fun k => is_Some (fields !! k)) requiredKeys ->
     fields !! key = Some v ->
     exists validated,
       validateState state = VObject validated /\
       (validated !! key = Some v \/
        (key ∈ [ofString "questionsAnswered"; ofString "councilsOffended"] /\
         isArray (Some v) = false /\ validated !! key = Some (VArray [])))).
Proof.
  split; [apply validateState_wellShaped|]. split.
  - apply wellShaped_fixed, validateState_wellShaped.
  - intros fields key v -> Hreq Hv. by apply validateState_keeps.
Qed.

End StateStoreProps.

(** ** State manager: objects held by reference *)

Module StateHeapProps.
Import StateManager StateStore StateHeap.

Lemma reach_dom (h : heap) (a : nat) (p : list jsstring) (x : nat) :
  closed h -> a ∈ dom h -> reach h a p x -> x ∈ dom h.
Proof.
  intros Hc Ha Hr. induction Hr as [a|a k c rest x He Hr IH]; [done|].
  apply IH. by eapply Hc.
Qed.

Lemma reach_last (h : heap) (a : nat) (p : list jsstring) (x : nat) :
  reach h a p x ->
  (p = [] /\ x = a) \/
  exists p0 b k, p = p0 ++ [k] /\ reach h a p0 b /\ edge h b k x.
Proof.
  intros Hr. induction Hr as [a|a k c rest x He Hr IH]; [by left|].
  right. destruct IH as [[-> ->]|(p0 & b & k0 & -> & Hr0 & He0)].
  - exists [], a, k. split; [done|]. split; [apply reach_nil|done].
  - exists (k :: p0), b, k0. split; [done|]. split; [|done].
    by eapply reach_cons.
Qed.

Lemma edges_spec (h : heap) (a : nat) (k : jsstring) (c : nat) :
  (a, k, c) ∈ edges h <-> edge h a k c.
Proof.
  unfold edges, edge. rewrite list_elem_of_bind. split.
  - intros ([a0 fields] & Hin & Hh). apply elem_of_map_to_list in Hh.
    apply list_elem_of_omap in Hin as ([k0 v] & Hkv & Hsome).
    apply elem_of_map_to_list in Hkv.
    destruct v; try discriminate Hsome. injection Hsome as -> -> ->.
    by exists fields.
  - intros (fields & Hh & Hk). exists (a, fields). split.
    + apply list_elem_of_omap. exists (k, RObject c). split; [|done].
      by apply elem_of_map_to_list.
    + by apply elem_of_map_to_list.
Qed.

Lemma NoDup_fmap_eq {A B : Type} (f : A -> B) (l : list A) (x y : A) :
  NoDup (f <$> l) -> x ∈ l -> y ∈ l -> f x = f y -> x = y.
Proof.
  induction l as [|z l IH]; intros Hnd Hx Hy Hf; [by apply elem_of_nil in Hx|].
  rewrite fmap_cons in Hnd. apply NoDup_cons in Hnd as [Hz Hnd].
  apply elem_of_cons in Hx as [->|Hx]; apply elem_of_cons in Hy as [->|Hy].
  - done.
  - exfalso. apply Hz. rewrite Hf. by apply list_elem_of_fmap_2.
  - exfalso. apply Hz. rewrite <- Hf. by apply list_elem_of_fmap_2.
  - by apply IH.
Qed.

Lemma unsharedCheck_sound (h : heap) (root : nat) :
  unsharedCheck h root = true -> unshared h root.
Proof.
  unfold unsharedCheck. intros H.
  apply andb_true_iff in H as [H Hdom]. apply andb_true_iff in H as [H Hroot].
  apply andb_true_iff in H as [Hin Hnd].
  apply bool_decide_eq_true in Hin, Hnd, Hroot, Hdom.
  split; [done|]. split; [|split].
  - intros a k a' k' c He He'. apply edges_spec in He, He'.
    assert (Heq : (a, k, c) = (a', k', c)) by (by eapply (NoDup_fmap_eq snd)).
    by injection Heq.
  - intros a k He. apply edges_spec in He. apply Hroot.
    apply list_elem_of_fmap. by exists (a, k, root).
  - intros a k c He. apply edges_spec in He.
    rewrite Forall_forall in Hdom. apply Hdom.
    apply list_elem_of_fmap. by exists (a, k, c).
Qed.

(** Without sharing, paths from the root are unique. *)
Lemma unshared_tree (h : heap) (root : nat) : unshared h root -> tree h root.
Proof.
  intros (Hdom & Hu & Hroot & Hcl) p.
  induction p as [|k p IH] using rev_ind; intros q x Hp Hq.
  - inversion Hp; subst.
    destruct (reach_last _ _ _ _ Hq) as [[-> _]|(q0 & b & k & -> & _ & He)];
      [done|].
    by apply Hroot in He.
  - destruct (reach_last _ _ _ _ Hp) as [[Hnil _]|(p0 & b & k0 & Hp0 & Hr0 & He0)].
    { by destruct p. }
    apply app_inj_tail in Hp0 as [<- <-].
    destruct (reach_last _ _ _ _ Hq) as [[-> ->]|(q0 & b' & k' & -> & Hr' & He')].
    { by apply Hroot in He0. }
    destruct (Hu _ _ _ _ _ He0 He') as [<- <-].
    f_equal. by eapply IH.
Qed.

Lemma closed_fresh (h : heap) (a : nat) (fields : gmap jsstring ref)
    (k : jsstring) :
  closed h -> h !! a = Some fields ->
  closed (<[fresh (dom h) := ∅]>
            (<[a := <[k := RObject (fresh (dom h))]> fields]> h)).
Proof.
  intros Hcl Hf b kb c (fs & Hfs & Hkb).
  rewrite !dom_insert.
  destruct (decide (b = fresh (dom h))) as [->|Hb'].
  { rewrite lookup_insert_eq in Hfs. injection Hfs as <-.
    by rewrite lookup_empty in Hkb. }
  rewrite lookup_insert_ne in Hfs by done.
  destruct (decide (b = a)) as [->|Hba].
  - rewrite lookup_insert_eq in Hfs. injection Hfs as <-.
    destruct (decide (kb = k)) as [->|Hkbk].
    + rewrite lookup_insert_eq in Hkb. injection Hkb as <-. set_solver.
    + rewrite lookup_insert_ne in Hkb by done.
      assert (c ∈ dom h); [|set_solver].
      apply (Hcl a kb c). by exists fields.
  - rewrite lookup_insert_ne in Hfs by done.
    assert (c ∈ dom h); [|set_solver].
    apply (Hcl b kb c). by exists fs.
Qed.

(** A heap with no more places where objects are held, and no fewer
    objects, is unshared as well. *)
Lemma unshared_sub (h h' : heap) (root : nat) :
  (forall b kb c, edge h' b kb c -> edge h b kb c) ->
  dom h ⊆ dom h' ->
  unshared h root -> unshared h' root.
Proof.
  intros Hsub Hdom (Hroot & Hu & Hnot & Hcl).
  split; [by apply Hdom|]. split; [|split].
  - intros a k a' k' c He He'. by eapply Hu; apply Hsub.
  - intros a k He. by eapply Hnot, Hsub.
  - intros a k c He. apply Hdom. by eapply Hcl, Hsub.
Qed.

(** Storing a new empty object where none was held keeps the heap
    unshared. *)
Lemma unshared_fresh (h : heap) (root a : nat) (fields : gmap jsstring ref)
    (k : jsstring) :
  unshared h root -> h !! a = Some fields -> replaced fields k = true ->
  unshared (<[fresh (dom h) := ∅]>
              (<[a := <[k := RObject (fresh (dom h))]> fields]> h)) root.
Proof.
  intros (Hroot & Hu & Hnot & Hcl) Hf Hrep.
  set (a' := fresh (dom h)).
  assert (Hfr : a' ∉ dom h) by apply is_fresh.
  assert (Hedge : forall b kb c,
    edge (<[a' := ∅]> (<[a := <[k := RObject a']> fields]> h)) b kb c ->
    (b = a /\ kb = k /\ c = a') \/ (edge h b kb c /\ c <> a')).
  { intros b kb c (fs & Hfs & Hkb).
    destruct (decide (b = a')) as [->|Hb'].
    { rewrite lookup_insert_eq in Hfs. injection Hfs as <-.
      by rewrite lookup_empty in Hkb. }
    rewrite lookup_insert_ne in Hfs by done.
    destruct (decide (b = a)) as [->|Hba].
    - rewrite lookup_insert_eq in Hfs. injection Hfs as <-.
      destruct (decide (kb = k)) as [->|Hkbk].
      + rewrite lookup_insert_eq in Hkb. injection Hkb as <-. by left.
      + rewrite lookup_insert_ne in Hkb by done. right.
        assert (He : edge h a kb c) by (by exists fields).
        split; [done|]. intros ->. by apply Hcl in He.
    - rewrite lookup_insert_ne in Hfs by done. right.
      assert (He : edge h b kb c) by (by exists fs).
      split; [done|]. intros ->. by apply Hcl in He. }
  split; [rewrite !dom_insert; by do 2 apply elem_of_union_r|]. split; [|split].
  - intros b kb b2 kb2 c He He2.
    apply Hedge in He as [(Hb & Hkb & Hc)|[He Hc]];
      apply Hedge in He2 as [(Hb2 & Hkb2 & Hc2)|[He2 Hc2]].
    + by subst.
    + done.
    + done.
    + by eapply Hu.
  - intros b kb He. apply Hedge in He as [(_ & _ & Heq)|[He _]].
    + apply Hfr. by rewrite <- Heq.
    + by eapply Hnot.
  - by apply closed_fresh.
Qed.

Lemma tree_child (h : heap) (a : nat) (k : jsstring) (c : nat) :
  tree h a -> edge h a k c -> tree h c.
Proof.
  intros Ht He p q x Hp Hq.
  assert (H : k :: p = k :: q); [|by injection H].
  eapply Ht; eapply reach_cons; eauto.
Qed.

Lemma tree_acyclic (h : heap) (a : nat) (k : jsstring) (c : nat)
    (q : list jsstring) :
  tree h a -> edge h a k c -> ~ reach h c q a.
Proof.
  intros Ht He Hr.
  assert (H : k :: q = []); [|done].
  eapply Ht; [eapply reach_cons; eauto|apply reach_nil].
Qed.

Lemma tree_apart (h : heap) (a : nat) (k k' : jsstring) (c c' : nat)
    (q q' : list jsstring) (x : nat) :
  tree h a -> k <> k' -> edge h a k c -> edge h a k' c' ->
  reach h c q x -> ~ reach h c' q' x.
Proof.
  intros Ht Hne He He' Hr Hr'.
  assert (H : k :: q = k' :: q'); [|by injection H].
  eapply Ht; eapply reach_cons; eauto.
Qed.

Lemma object_or_not (v : ref) :
  (exists c, v = RObject c) \/ (forall c, v <> RObject c).
Proof. destruct v; eauto; by right. Qed.

(** [walk] below a value that is no object does not look at the heap. *)
Lemma walk_flat (h h' : heap) (p : list jsstring) (v : ref) :
  (forall c, v <> RObject c) -> walk h' p v = walk h p v.
Proof. intros Hv. destruct p, v; try done. by destruct (Hv address). Qed.

(** [walk] reads the objects it reaches only. *)
Lemma walk_local (h h' : heap) (p : list jsstring) : forall c,
  (forall q y, reach h c q y -> h' !! y = h !! y) ->
  walk h' p (RObject c) = walk h p (RObject c).
Proof.
  induction p as [|k p IH]; intros c Hsame; [done|].
  simpl. rewrite (Hsame [] c (reach_nil h c)).
  destruct (h !! c) as [fields|] eqn:Hc; [|done].
  destruct (inherited k); [done|].
  destruct (fields !! k) as [v|] eqn:Hk; [|done].
  destruct (object_or_not v) as [[c' ->]|Hno].
  - apply IH. intros q y Hr. apply (Hsame (k :: q)).
    eapply reach_cons; [|exact Hr]. by exists fields.
  - by apply walk_flat.
Qed.

Lemma heap_assign_last (v : ref) (h : heap) (a : nat) (fields : gmap jsstring ref)
    (k : jsstring) :
  h !! a = Some fields ->
  assign [k] v h (RObject a) =
  if inherited k then Stuck else Returned (<[a := <[k := v]> fields]> h).
Proof. intros Hf. simpl. by rewrite Hf. Qed.

Lemma heap_assign_cons (v : ref) (h : heap) (a : nat) (fields : gmap jsstring ref)
    (k k2 : jsstring) (rest : list jsstring) :
  h !! a = Some fields ->
  assign (k :: k2 :: rest) v h (RObject a) =
  if inherited k then Stuck
  else if replaced fields k then
    assign (k2 :: rest) v
      (<[fresh (dom h) := ∅]> (<[a := <[k := RObject (fresh (dom h))]> fields]> h))
      (RObject (fresh (dom h)))
  else assign (k2 :: rest) v h (default RNull (fields !! k)).
Proof. intros Hf. cbn [assign]. by rewrite Hf. Qed.

(** Where [assign] returns and does not replace, it goes on at an object. *)
Lemma assign_into (v : ref) (h h' : heap) (fields : gmap jsstring ref)
    (k : jsstring) (keys : list jsstring) :
  replaced fields k = false ->
  assign keys v h (default RNull (fields !! k)) = Returned h' ->
  exists c, fields !! k = Some (RObject c).
Proof.
  unfold replaced. destruct (fields !! k) as [[| | | |arr|c]|]; try done.
  - by destruct keys.
  - by destruct keys.
  - by exists c.
Qed.

(** Below a key that is replaced every longer path answers [undefined]. *)
Lemma walk_replaced (h : heap) (fields : gmap jsstring ref) (k : jsstring)
    (rest : list jsstring) :
  replaced fields k = true -> rest <> [] ->
  match fields !! k with
  | Some v => walk h rest v
  | None => Undefined
  end = Undefined.
Proof.
  unfold replaced. intros Hr Hne. destruct rest as [|k2 rest]; [done|].
  by destruct (fields !! k) as [[| | | |arr|c]|].
Qed.

(** A new empty object leads nowhere. *)
Lemma reach_empty (h : heap) (a : nat) (p : list jsstring) (x : nat) :
  h !! a = Some ∅ -> reach h a p x -> p = [] /\ x = a.
Proof.
  intros Ha Hr. inversion Hr as [|? ? ? ? ? [fs [Hfs Hk]]]; subst; [done|].
  rewrite Ha in Hfs. injection Hfs as <-. by rewrite lookup_empty in Hk.
Qed.

(** [assign] changes no object that exists and is not reached from where it
    starts. *)
Lemma assign_frame (v : ref) (p : list jsstring) : forall h a h' y,
  assign p v h (RObject a) = Returned h' ->
  y ∈ dom h ->
  (forall q, ~ reach h a q y) ->
  h' !! y = h !! y.
Proof.
  induction p as [|k rest IH]; intros h a h' y Ha Hy Hn.
  { simpl in Ha. by destruct (h !! a). }
  assert (Hya : y <> a).
  { intros ->. apply (Hn []). apply reach_nil. }
  destruct (h !! a) as [fields|] eqn:Hf; [|by simpl in Ha; rewrite Hf in Ha].
  destruct rest as [|k2 rest].
  { rewrite (heap_assign_last _ _ _ _ _ Hf) in Ha. destruct (inherited k); [done|].
    injection Ha as <-. by rewrite lookup_insert_ne. }
  rewrite (heap_assign_cons _ _ _ _ _ _ _ Hf) in Ha.
  destruct (inherited k); [done|].
  destruct (replaced fields k) eqn:Hrep.
  - assert (Hyf : y <> fresh (dom h)).
    { intros ->. by apply is_fresh in Hy. }
    rewrite (IH _ _ _ y Ha).
    + by rewrite !lookup_insert_ne.
    + rewrite !dom_insert. set_solver.
    + intros q Hr. apply reach_empty in Hr as [_ ->]; [done|].
      by rewrite lookup_insert_eq.
  - destruct (assign_into _ _ _ _ _ _ Hrep Ha) as [c Hk].
    rewrite Hk in Ha.
    change (default RNull (Some (RObject c))) with (RObject c) in Ha.
    eapply IH; [exact Ha|done|].
    intros q Hr. apply (Hn (k :: q)).
    eapply reach_cons; [|exact Hr]. by exists fields.
Qed.

(** What is read below one key of an object is left alone by changes to
    the object itself and to what lies below another key. *)
Lemma walk_beside (h h' : heap) (a : nat) (fields : gmap jsstring ref)
    (k k' : jsstring) (x : ref) (rest' : list jsstring) :
  closed h -> tree h a ->
  h !! a = Some fields ->
  k <> k' ->
  fields !! k' = Some x ->
  (forall y, y ∈ dom h -> y <> a ->
     (forall c q, edge h a k c -> ~ reach h c q y) ->
     h' !! y = h !! y) ->
  walk h' rest' x = walk h rest' x.
Proof.
  intros Hcl Ht Hf Hne Hx Hsame.
  destruct (object_or_not x) as [[c' ->]|Hno]; [|by apply walk_flat].
  assert (He' : edge h a k' c') by (by exists fields).
  apply walk_local. intros q y Hr. apply Hsame.
  - eapply reach_dom; [done| |exact Hr]. by eapply Hcl.
  - intros ->. by eapply tree_acyclic.
  - intros c q' He Hr'.
    by eapply (tree_apart h a k k' c c' q' q y).
Qed.

Lemma walk_assign_apart (v : ref) (p : list jsstring) : forall p' h a h',
  closed h -> tree h a ->
  diverge p p' = true ->
  Forall (fun k => inherited k = false) p' ->
  assign p v h (RObject a) = Returned h' ->
  walk h' p' (RObject a) = walk h p' (RObject a).
Proof.
  induction p as [|k rest IH]; intros p' h a h' Hcl Ht Hd Hin Ha; [done|].
  destruct p' as [|k' rest']; [done|].
  apply Forall_cons in Hin as [Hk' Hrest'].
  destruct (h !! a) as [fields|] eqn:Hf; [|by simpl in Ha; rewrite Hf in Ha].
  assert (Ha_dom : a ∈ dom h) by (apply elem_of_dom; by eexists).
  cbn [walk]. cbn [diverge] in Hd.
  destruct rest as [|k2 rest].
  - (* the final assignment *)
    rewrite (heap_assign_last _ _ _ _ _ Hf) in Ha. destruct (inherited k); [done|].
    injection Ha as <-. rewrite lookup_insert_eq, Hf, Hk'.
    case_bool_decide as Hkk; [by destruct rest'|].
    rewrite lookup_insert_ne by done.
    destruct (fields !! k') as [x|] eqn:Hx; [|done].
    eapply (walk_beside h _ a fields k k'); try done.
    intros y _ Hya _. by rewrite lookup_insert_ne.
  - rewrite (heap_assign_cons _ _ _ _ _ _ _ Hf) in Ha.
    destruct (inherited k) eqn:Hik; [done|].
    destruct (replaced fields k) eqn:Hrep.
    + (* a new object is stored under [k] *)
      set (a' := fresh (dom h)) in *.
      set (h1 := <[a' := ∅]> (<[a := <[k := RObject a']> fields]> h)) in *.
      assert (Hfr : a' ∉ dom h) by apply is_fresh.
      assert (Haa : a <> a') by (intros ->; done).
      assert (Ha' : h1 !! a' = Some ∅) by apply lookup_insert_eq.
      assert (Hframe : forall y, y ∈ dom h -> h' !! y = h1 !! y).
      { intros y Hy. eapply assign_frame; [exact Ha| |].
        - unfold h1. rewrite !dom_insert. set_solver.
        - intros q Hr. apply reach_empty in Hr as [_ ->]; done. }
      rewrite (Hframe a Ha_dom). unfold h1 at 1.
      rewrite lookup_insert_ne, lookup_insert_eq, Hf, Hk' by done.
      case_bool_decide as Hkk.
      * subst k'. rewrite lookup_insert_eq.
        assert (Ht1 : tree h1 a').
        { intros p q x Hp Hq.
          apply reach_empty in Hp as [-> _]; [|done].
          by apply reach_empty in Hq as [-> _]. }
        rewrite (IH rest' h1 a' h' (closed_fresh h a fields k Hcl Hf) Ht1 Hd Hrest' Ha).
        rewrite (walk_replaced h fields k rest' Hrep) by (by eapply StateStoreProps.diverge_nonempty).
        destruct rest' as [|k3 rest']; [by apply StateStoreProps.diverge_nonempty in Hd|].
        apply Forall_cons in Hrest' as [Hk3 _].
        cbn [walk]. by rewrite Ha', Hk3, lookup_empty.
      * rewrite lookup_insert_ne by done.
        destruct (fields !! k') as [x|] eqn:Hx; [|done].
        eapply (walk_beside h _ a fields k k'); try done.
        intros y Hy Hya _. rewrite (Hframe y Hy). unfold h1.
        rewrite !lookup_insert_ne; [done|done|].
        intros ->. done.
    + (* descending into an object that exists *)
      destruct (assign_into _ _ _ _ _ _ Hrep Ha) as [c Hk].
      rewrite Hk in Ha.
    change (default RNull (Some (RObject c))) with (RObject c) in Ha.
      assert (He : edge h a k c) by (by exists fields).
      assert (Hframe : forall y, y ∈ dom h -> (forall q, ~ reach h c q y) ->
                                 h' !! y = h !! y).
      { intros y Hy Hn. by eapply assign_frame. }
      rewrite (Hframe a Ha_dom) by (intros q; by eapply tree_acyclic).
      rewrite Hf, Hk'.
      case_bool_decide as Hkk.
      * subst k'. rewrite Hk.
        eapply IH; try done. by eapply tree_child.
      * destruct (fields !! k') as [x|] eqn:Hx; [|done].
        eapply (walk_beside h _ a fields k k'); try done.
        intros y Hy Hya Hn. apply Hframe; [done|].
        intros q. by apply Hn.
Qed.

Lemma returns_after (call : outcome heap) :
  returns call = true -> call = Returned (after call).
Proof. by destruct call. Qed.

(** Storing a primitive value keeps the heap unshared. *)
Lemma assign_unshared (v : ref) (root : nat) (p : list jsstring) : forall h a h',
  primitive v = true ->
  unshared h root ->
  assign p v h (RObject a) = Returned h' ->
  unshared h' root.
Proof.
  induction p as [|k rest IH]; intros h a h' Hv Hu Ha.
  { simpl in Ha. by destruct (h !! a). }
  destruct (h !! a) as [fields|] eqn:Hf; [|by simpl in Ha; rewrite Hf in Ha].
  destruct rest as [|k2 rest].
  - rewrite (heap_assign_last _ _ _ _ _ Hf) in Ha. destruct (inherited k); [done|].
    injection Ha as <-. eapply unshared_sub; [| |exact Hu].
    + intros b kb c (fs & Hfs & Hkb).
      destruct (decide (b = a)) as [->|Hba].
      * rewrite lookup_insert_eq in Hfs. injection Hfs as <-.
        destruct (decide (kb = k)) as [->|Hkbk].
        -- rewrite lookup_insert_eq in Hkb. injection Hkb as ->. done.
        -- rewrite lookup_insert_ne in Hkb by done. by exists fields.
      * rewrite lookup_insert_ne in Hfs by done. by exists fs.
    + rewrite dom_insert. set_solver.
  - rewrite (heap_assign_cons _ _ _ _ _ _ _ Hf) in Ha.
    destruct (inherited k); [done|].
    destruct (replaced fields k) eqn:Hrep.
    + eapply IH; [done| |exact Ha]. by apply unshared_fresh.
    + destruct (assign_into _ _ _ _ _ _ Hrep Ha) as [c Hk].
      rewrite Hk in Ha.
      change (default RNull (Some (RObject c))) with (RObject c) in Ha.
      by eapply IH.
Qed.

(** X24: With the objects of the state held by reference, take a state in
    which no object is held in two places and the state object itself in
    none, as in the initial state.  There [set] leaves every other path
    alone: where the path read parts ways with the path written, and names
    no inherited property, [get] answers after the call what it answered
    before.  When the value stored is a primitive, no object is held in two
    places afterwards either, so the same holds for the call after. *)
Theorem set_leaves_other_paths (key : jsstring) (newValue : ref)
    (root : nat) (h h' : heap) :
  unshared h root ->
  key <> [] ->
  set key newValue root h = Returned h' ->
  (forall key',
     key' <> [] ->
     diverge (split 46 key) (split 46 key') = true ->
     Forall (fun k => inherited k = false) (split 46 key') ->
     get key' root h' = get key' root h) /\
  (primitive newValue = true -> unshared h' root).
Proof.
  intros Hu Hne Hs.
  pose proof (unshared_tree h root Hu) as Ht.
  pose proof Hu as (_ & _ & _ & Hcl).
  unfold set in Hs. destruct key as [|c key]; [done|].
  assert (Ha : assign (split 46 (c :: key)) newValue h (RObject root) = Returned h').
  { by destruct (get (c :: key) root h). }
  split.
  - intros key' Hne' Hd Hin.
    unfold get. destruct key' as [|c' key']; [done|].
    by eapply walk_assign_apart.
  - intros Hv. by eapply assign_unshared.
Qed.

Lemma set_leaves_other_paths_witness :
  returns (set (ofString "settings.volume") (RNumber 7) 0 initialHeap) = true /\
  get (ofString "settings.difficulty") 0
    (after (set (ofString "settings.volume") (RNumber 7) 0 initialHeap))
  = Found (RString (ofString "normal")) /\
  unshared (after (set (ofString "settings.volume") (RNumber 7) 0 initialHeap)) 0.
Proof.
  assert (Hr : returns (set (ofString "settings.volume") (RNumber 7) 0 initialHeap)
               = true) by (vm_compute; reflexivity).
  destruct (set_leaves_other_paths (ofString "settings.volume") (RNumber 7) 0
              initialHeap _ (unsharedCheck_sound initialHeap 0 eq_refl)
              ltac:(discriminate) (returns_after _ Hr)) as [Hother Hkeeps].
  split; [exact Hr|]. split; [|by apply Hkeeps].
  rewrite (Hother (ofString "settings.difficulty")).
  - vm_compute. reflexivity.
  - discriminate.
  - vm_compute. reflexivity.
  - apply Forall_forall. intros k Hk. revert k Hk. apply Forall_forall.
    apply (bool_decide_unpack _). vm_compute. exact I.
Defined.

(** Sharing, as it comes about by [set('a', get('settings'))] on the
    initial state: the settings object is then held under [a] as well, the
    heap is no longer unshared, and [set('a.soundEnabled', false)] changes
    what [get('settings.soundEnabled')] answers, although the two paths part
    ways at their first key. *)
Example shared_object_is_written_through :
  get (ofString "settings") 0 initialHeap = Found (RObject 1) /\
  edge sharedHeap 0 (ofString "settings") 1 /\
  edge sharedHeap 0 (ofString "a") 1 /\
  ~ unshared sharedHeap 0 /\
  diverge (split 46 (ofString "a.soundEnabled"))
    (split 46 (ofString "settings.soundEnabled")) = true /\
  get (ofString "settings.soundEnabled") 0 sharedHeap = Found (RBool true) /\
  returns (set (ofString "a.soundEnabled") (RBool false) 0 sharedHeap) = true /\
  get (ofString "settings.soundEnabled") 0
    (after (set (ofString "a.soundEnabled") (RBool false) 0 sharedHeap))
  = Found (RBool false).
Proof.
  assert (Hs : edge sharedHeap 0 (ofString "settings") 1).
  { apply edges_spec. apply (bool_decide_unpack _). vm_compute. exact I. }
  assert (Ha : edge sharedHeap 0 (ofString "a") 1).
  { apply edges_spec. apply (bool_decide_unpack _). vm_compute. exact I. }
  split; [vm_compute; reflexivity|]. split; [exact Hs|]. split; [exact Ha|].
  split.
  { intros (_ & Hu & _). destruct (Hu _ _ _ _ _ Hs Ha) as [_ Hk].
    vm_compute in Hk. discriminate Hk. }
  repeat split; vm_compute; reflexivity.
Qed.

End StateHeapProps.

(** ** Event emitter: subscribing and emitting *)

Module EventEmitterProps.
Import EventEmitter.

Lemma removeFirst_fresh (callback : listener) (callbacks : list listener) :
  callback ∉ callbacks -> removeFirst callback callbacks = callbacks.
Proof.
  induction callbacks as [|c rest IH]; intros Hn; [done|]. simpl.
  destruct (decide (c = callback)) as [->|Hne].
  - exfalso. apply Hn. by left.
  - f_equal. apply IH. intros Hin. apply Hn. by right.
Qed.

Lemma removeFirst_app (callback : listener) (before rest : list listener) :
  callback ∉ before ->
  removeFirst callback (before ++ callback :: rest) = before ++ rest.
Proof.
  induction before as [|c before IH]; intros Hn; simpl.
  - by rewrite decide_True.
  - rewrite decide_False by (intros ->; apply Hn; by left).
    f_equal. apply IH. intros Hin. apply Hn. by right.
Qed.

Lemma removeFirst_permutation (callback : listener) (callbacks : list listener) :
  callback ∈ callbacks ->
  callback :: removeFirst callback callbacks ≡ₚ callbacks.
Proof.
  induction callbacks as [|c rest IH]; intros Hin; [by apply elem_of_nil in Hin|].
  simpl. destruct (decide (c = callback)) as [->|Hne]; [done|].
  apply elem_of_cons in Hin as [->|Hin]; [done|].
  rewrite Permutation_swap. by rewrite IH.
Qed.

(** X28: Subscribing and then calling the returned function leaves as many
    listeners as before, the same ones up to their order, and in their old
    order when the callback had not been registered for the event before.
    The event itself stays registered, with an empty list when it had been
    unknown. *)
Theorem unsubscribe_undoes_on (event : string) (callback : listener)
    (events : registry) :
  listeners event (unsubscribe event callback (on event callback events))
    ≡ₚ listeners event events /\
  listenerCount event (unsubscribe event callback (on event callback events))
    = listenerCount event events /\
  (callback ∉ listeners event events ->
   listeners event (unsubscribe event callback (on event callback events))
   = listeners event events) /\
  event ∈ eventNames (unsubscribe event callback (on event callback events)).
Proof.
  unfold unsubscribe, on, listeners, listenerCount, eventNames.
  rewrite lookup_insert_eq, insert_insert_eq, lookup_insert_eq. simpl.
  set (old := default [] (events !! event)).
  assert (Hperm : removeFirst callback (old ++ [callback]) ≡ₚ old).
  { apply (Permutation_cons_inv (a := callback)).
    rewrite removeFirst_permutation by (apply elem_of_app; right; by left).
    by rewrite Permutation_app_comm. }
  split; [exact Hperm|]. split; [|split].
  - rewrite Hperm. unfold old. by destruct (events !! event).
  - intros Hn. rewrite removeFirst_app by done. by rewrite app_nil_r.
  - apply elem_of_dom. by rewrite lookup_insert_eq.
Qed.

(** *** Emitting *)

Lemma forEach_idle (fuel : nat) (event : string) : forall k acc,
  (length (default [] (after acc !! event)) <= k)%nat ->
  forEach fuel event k acc = acc.
Proof.
  induction fuel as [|fuel IH]; intros k acc Hk; [done|]. simpl.
  rewrite lookup_ge_None_2 by done. apply IH. lia.
Qed.

Lemma wrapper_not_before (before rest : list listener) (l : listener) :
  isOnce l = true -> wrappersDistinct (before ++ l :: rest) -> l ∉ before.
Proof.
  unfold wrappersDistinct. intros Hl Hnd Hin.
  rewrite filter_app, filter_cons_True in Hnd by done.
  apply NoDup_app in Hnd as (_ & Hsep & _).
  apply (Hsep l); [by apply list_elem_of_filter|by left].
Qed.

Lemma wrappersDistinct_drop (before rest : list listener) (l : listener) :
  wrappersDistinct (before ++ l :: rest) -> wrappersDistinct (before ++ rest).
Proof.
  unfold wrappersDistinct. intros Hnd. eapply sublist_NoDup; [exact Hnd|].
  rewrite !filter_app, filter_cons. apply sublist_app; [done|].
  destruct (decide (isOnce l = true)); [by apply sublist_cons|done].
Qed.

Lemma emission_done (acc : emission) (event : string)
    (callbacks : list listener) :
  after acc !! event = Some callbacks ->
  acc = {| called := called acc ++ []; logged := logged acc ++ [];
           after := <[event := callbacks]> (after acc) |}.
Proof.
  intros H. destruct acc as [c lg a]. simpl in *.
  by rewrite !app_nil_r, insert_id.
Qed.

Lemma forEach_sweep (event : string) (fuel : nat) :
  forall rest before acc,
    after acc !! event = Some (before ++ rest) ->
    (length rest <= fuel)%nat ->
    wrappersDistinct (before ++ rest) ->
    forEach fuel event (length before) acc =
    {| called := called acc ++ sweep false rest;
       logged := logged acc ++ omap raisesOf (sweep false rest);
       after := <[event := before ++ leftover false rest]> (after acc) |}.
Proof.
  induction fuel as [|fuel IH]; intros rest before acc Hev Hlen Hnd.
  { destruct rest; [|simpl in Hlen; lia]. simpl. by apply emission_done. }
  destruct rest as [|l rest].
  { rewrite forEach_idle; [by apply emission_done|].
    rewrite Hev. simpl. rewrite length_app. simpl. lia. }
  cbn [forEach]. rewrite Hev. cbn [default from_option]. unfold id.
  rewrite list_lookup_middle by done. simpl in Hlen.
  destruct l as [name raises|name raises].
  - cbn [invoke fst snd].
    replace (S (length before)) with (length (before ++ [Callback name raises]))
      by (rewrite length_app; simpl; lia).
    rewrite (IH rest); cbn [called logged after].
    + cbn [sweep leftover isOnce omap raisesOf].
      rewrite <- !app_assoc. f_equal. f_equal. by destruct raises.
    + by rewrite <- app_assoc.
    + lia.
    + by rewrite <- app_assoc.
  - pose proof (wrapper_not_before before rest (OnceWrapper name raises)
                  eq_refl Hnd) as Hfresh.
    cbn [invoke fst snd]. unfold unsubscribe. rewrite Hev.
    rewrite removeFirst_app by done.
    destruct rest as [|l2 rest].
    + rewrite forEach_idle.
      2:{ cbn [after]. rewrite lookup_insert_eq. simpl.
          rewrite app_nil_r. lia. }
      cbn [sweep leftover isOnce omap raisesOf]. by rewrite !app_nil_r.
    + replace (S (length before)) with (length (before ++ [l2]))
        by (rewrite length_app; simpl; lia).
      rewrite (IH rest); cbn [called logged after].
      * cbn [sweep leftover isOnce omap raisesOf].
        rewrite insert_insert_eq, <- !app_assoc. f_equal. f_equal.
        by destruct raises.
      * by rewrite lookup_insert_eq, <- app_assoc.
      * simpl in Hlen. lia.
      * rewrite <- app_assoc. eapply wrappersDistinct_drop. exact Hnd.
Qed.

Lemma emit_sweep (event : string) (events : registry)
    (callbacks : list listener) :
  events !! event = Some callbacks ->
  wrappersDistinct callbacks ->
  emit event events =
  {| called := sweep false callbacks;
     logged := omap raisesOf (sweep false callbacks);
     after := <[event := leftover false callbacks]> events |}.
Proof.
  intros Hev Hnd. unfold emit. rewrite Hev.
  destruct callbacks as [|l rest]; simpl Nat.ltb; cbv iota.
  - simpl. by rewrite insert_id.
  - by rewrite (forEach_sweep event _ (l :: rest) []).
Qed.

Lemma sweep_plain (before rest : list listener) :
  Forall (fun l => isOnce l = false) before ->
  sweep false (before ++ rest) = before ++ sweep false rest /\
  leftover false (before ++ rest) = before ++ leftover false rest.
Proof.
  induction 1 as [|l before Hl _ [IHs IHl]]; [done|].
  simpl. by rewrite Hl, IHs, IHl.
Qed.

Lemma plain_wrappersDistinct (callbacks : list listener) :
  Forall (fun l => isOnce l = false) callbacks -> wrappersDistinct callbacks.
Proof.
  intros Hp. unfold wrappersDistinct.
  replace (filter (fun l => isOnce l = true) callbacks) with (@nil listener);
    [constructor|].
  induction Hp as [|l rest Hl _ IH]; [done|].
  rewrite filter_cons_False by (by rewrite Hl). exact IH.
Qed.

Lemma leftover_subset (skip : bool) (callbacks : list listener) :
  leftover skip callbacks ⊆ callbacks.
Proof.
  revert skip. induction callbacks as [|l rest IH]; intros skip; [done|].
  simpl. destruct skip; [|destruct (isOnce l)].
  - intros x Hx. apply elem_of_cons in Hx as [->|Hx]; [by left|].
    right. by eapply IH.
  - intros x Hx. right. by eapply IH.
  - intros x Hx. apply elem_of_cons in Hx as [->|Hx]; [by left|].
    right. by eapply IH.
Qed.

(** X29: While no once-wrapper is registered for an event, [emit] calls every
    listener of the event once, in the order of registration, whether or not
    listeners before it throw; it logs what they throw and leaves the
    registry as it was. *)
Theorem emit_calls_every_listener (event : string) (events : registry)
    (callbacks : list listener) :
  events !! event = Some callbacks ->
  Forall (fun l => isOnce l = false) callbacks ->
  emit event events =
  {| called := callbacks; logged := omap raisesOf callbacks; after := events |}.
Proof.
  intros Hev Hp.
  rewrite (emit_sweep event events callbacks Hev (plain_wrappersDistinct _ Hp)).
  destruct (sweep_plain callbacks [] Hp) as [Hs Hl].
  simpl in Hs, Hl. rewrite !app_nil_r in Hs, Hl.
  rewrite Hs, Hl. by rewrite insert_id.
Qed.

Lemma emit_calls_every_listener_witness :
  called
    (emit "stateChanged"
       (on "stateChanged" (Callback 2 None)
          (on "stateChanged" (Callback 1 (Some TypeError)) ∅)))
  = [Callback 1 (Some TypeError); Callback 2 None].
Proof.
  rewrite (emit_calls_every_listener "stateChanged" _
             [Callback 1 (Some TypeError); Callback 2 None]).
  - reflexivity.
  - vm_compute. reflexivity.
  - repeat constructor.
Defined.

(** X30: A once-wrapper that is called removes itself from the array [emit] is
    walking, so the listener registered right after it is passed over in that
    [emit]: the call continues with the listeners after that one, the
    passed-over listener stays registered, and the wrapper is gone. *)
Theorem once_hides_next_listener (event : string) (events : registry)
    (before rest : list listener) (wrapper next : listener) :
  events !! event = Some (before ++ wrapper :: next :: rest) ->
  Forall (fun l => isOnce l = false) before ->
  isOnce wrapper = true ->
  wrappersDistinct (before ++ wrapper :: next :: rest) ->
  called (emit event events)
    = before ++ wrapper :: called (emit event (<[event := rest]> events)) /\
  listeners event (after (emit event events))
    = before ++ next ::
        listeners event (after (emit event (<[event := rest]> events))) /\
  wrapper ∉ listeners event (after (emit event events)).
Proof.
  intros Hev Hp Hw Hnd.
  assert (Hrest : wrappersDistinct rest).
  { unfold wrappersDistinct in *. eapply sublist_NoDup; [exact Hnd|].
    rewrite filter_app. apply sublist_inserts_l.
    rewrite !filter_cons.
    destruct (decide (isOnce wrapper = true)), (decide (isOnce next = true));
      repeat apply sublist_cons; done. }
  rewrite (emit_sweep event events _ Hev Hnd).
  rewrite (emit_sweep event (<[event := rest]> events) rest
             (lookup_insert_eq _ _ _) Hrest).
  destruct (sweep_plain before (wrapper :: next :: rest) Hp) as [Hs Hl].
  cbn [called after]. unfold listeners. rewrite !lookup_insert_eq. simpl.
  rewrite Hs, Hl. simpl. rewrite Hw. split; [done|]. split; [done|].
  intros Hin.
  pose proof (wrapper_not_before before (next :: rest) wrapper Hw Hnd) as Hb.
  apply elem_of_app in Hin as [Hin|Hin]; [done|].
  assert (Hin' : wrapper ∈ next :: rest).
  { apply elem_of_cons in Hin as [->|Hin]; [by left|].
    right. by eapply leftover_subset. }
  unfold wrappersDistinct in Hnd.
  rewrite filter_app, filter_cons_True in Hnd by done.
  apply NoDup_app in Hnd as (_ & _ & Hnd). apply NoDup_cons in Hnd as [Hfresh _].
  apply Hfresh. by apply list_elem_of_filter.
Qed.

Lemma once_hides_next_listener_witness :
  called
    (emit "verdict"
       (once "verdict" 2 None (once "verdict" 1 None ∅)))
  = [OnceWrapper 1 None] /\
  listeners "verdict"
    (after (emit "verdict" (once "verdict" 2 None (once "verdict" 1 None ∅))))
  = [OnceWrapper 2 None].
Proof.
  destruct (once_hides_next_listener "verdict"
              (once "verdict" 2 None (once "verdict" 1 None ∅))
              [] [] (OnceWrapper 1 None) (OnceWrapper 2 None))
    as (Hc & Hl & _).
  - vm_compute. reflexivity.
  - constructor.
  - reflexivity.
  - apply (bool_decide_unpack _). vm_compute. exact I.
  - split; [exact Hc|exact Hl].
Defined.

End EventEmitterProps.
